(** * A verified reading of the C-like front end: tokenizer, parser,
      semantic analyzer and flowchart builder.

    The Python sources (lexer.py, parser.py, astnode.py, semantic.py,
    flowchart.py) are embedded as executable Rocq functions; stateful
    methods become state-passing computations that may raise the Python
    exception the source would raise. *)

From Stdlib Require Import String Ascii DecimalString.
From stdpp Require Import gmap strings list.

Open Scope string_scope.
Open Scope list_scope.
Open Scope nat_scope.

(** ** Exceptions and the state/exception monad *)

(** The Python exceptions the modelled code can raise. *)
Inductive exn : Type :=
  | IndexError                    (* list index out of range *)
  | AttributeError                (* attribute access on None *)
  | TypeError                     (* e.g. str.join over a None item *)
  | NameError (name : string)     (* reference to an undefined variable *)
  | RuntimeError (msg : string).  (* raised explicitly by lexer and parser *)

(** [Raise] is a Python exception; [OutOfFuel] only says that a fuelled
    model of a recursive method was not given enough fuel. *)
Inductive result (A : Type) : Type :=
  | Ok (a : A)
  | Raise (e : exn)
  | OutOfFuel.
Arguments Ok {A} a.
Arguments Raise {A} e.
Arguments OutOfFuel {A}.

(** A method of an object with fields [S]. *)
Definition M (S A : Type) : Type := S → result (A * S).

Definition ret {S A} (a : A) : M S A := λ s, Ok (a, s).
Definition bind {S A B} (m : M S A) (k : A → M S B) : M S B :=
  λ s, match m s with
       | Ok (a, s') => k a s'
       | Raise e => Raise e
       | OutOfFuel => OutOfFuel
       end.
Definition raise {S A} (e : exn) : M S A := λ _, Raise e.
Definition get {S} : M S S := λ s, Ok (s, s).
Definition modify {S} (f : S → S) : M S unit := λ s, Ok (tt, f s).
Definition lift {S A} (r : result A) : M S A :=
  λ s, match r with Ok a => Ok (a, s) | Raise e => Raise e | OutOfFuel => OutOfFuel end.

Declare Scope mon_scope.
Delimit Scope mon_scope with mon.
Notation "'do' x <- m ; k" := (bind m (λ x, k))
  (at level 10, x name, m at level 100, k at level 200,
   format "'[v' 'do'  x  <-  m ; '/' k ']'") : mon_scope.
Notation "'run' m ; k" := (bind m (λ _, k))
  (at level 10, m at level 100, k at level 200,
   format "'[v' 'run'  m ; '/' k ']'") : mon_scope.
Open Scope mon_scope.

(** A computation faults when it raises a Python exception. *)
Definition faults {A} (r : result A) : Prop := ∃ e, r = Raise e.

(** ** astnode.py *)

(** [ASTNode(nodetype, value)]: a type tag, an optional payload and the
    list of children; a child slot may hold [None] (the absent clauses of
    a [for]). *)
#[warnings="-register-all"]
Inductive ASTNode : Type :=
  | Node (ntype : string) (nvalue : option string)
         (children : list (option ASTNode)).

Definition ntype (n : ASTNode) : string := let 'Node t _ _ := n in t.
Definition nvalue (n : ASTNode) : option string := let 'Node _ v _ := n in v.
Definition children (n : ASTNode) : list (option ASTNode) :=
  let 'Node _ _ c := n in c.

(** Induction over the tree, with the hypothesis available for every
    child that is present. *)
Definition child_all (P : ASTNode → Prop) (c : option ASTNode) : Prop :=
  match c with Some n => P n | None => True end.

Fixpoint ASTNode_tree_ind (P : ASTNode → Prop)
    (IH : ∀ t v ch, Forall (child_all P) ch → P (Node t v ch))
    (n : ASTNode) : P n :=
  match n with
  | Node t v ch =>
      IH t v ch
        ((fix go (l : list (option ASTNode)) : Forall (child_all P) l :=
            match l with
            | [] => @List.Forall_nil _ _
            | c :: l' =>
                @List.Forall_cons _ _ c l'
                  (match c return child_all P c with
                   | Some m => ASTNode_tree_ind P IH m
                   | None => I
                   end)
                  (go l')
            end) ch)
  end.

(** Python's [str(x)] inside an f-string: [None] prints as "None". *)
Definition py_str (v : option string) : string :=
  match v with Some s => s | None => "None" end.

(** Python's [repr(s)] of a string, on ASCII text: between single
    quotes, or between double quotes when the text holds a single quote
    and no double quote; the quote in use and the backslash are escaped
    with a backslash; tab, newline and carriage return are written as a
    backslash and [t], [n], [r], and the other control characters as a
    backslash, [x] and two hexadecimal digits. *)
Definition double_quote : ascii := "034"%char.
Definition backslash : ascii := "092"%char.

Fixpoint contains (c : ascii) (s : string) : bool :=
  match s with
  | EmptyString => false
  | String c' s' => Ascii.eqb c' c || contains c s'
  end.

Definition hex_digit (n : nat) : ascii :=
  nth n (list_ascii_of_string "0123456789abcdef") "0"%char.

Definition escape (c : ascii) : string := String backslash (String c "").

Definition repr_char (quote c : ascii) : string :=
  let n := nat_of_ascii c in
  if Ascii.eqb c quote || Ascii.eqb c backslash then escape c
  else if Ascii.eqb c "009" then escape "t"
  else if Ascii.eqb c "010" then escape "n"
  else if Ascii.eqb c "013" then escape "r"
  else if Nat.ltb n 32 || Nat.eqb n 127 then
    String backslash
      (String "x" (String (hex_digit (n / 16))
                     (String (hex_digit (n mod 16)) "")))
  else String c "".

Fixpoint repr_chars (quote : ascii) (s : string) : string :=
  match s with
  | EmptyString => String quote ""
  | String c s' => repr_char quote c +:+ repr_chars quote s'
  end.

Definition py_repr (s : string) : string :=
  let quote :=
    if contains "'" s && negb (contains double_quote s) then double_quote
    else "'"%char in
  String quote (repr_chars quote s).

(** [ty in (t1, t2, ...)]. *)
Definition in_types (ty : string) (l : list string) : bool :=
  existsb (String.eqb ty) l.

(** [node.children[i]]: an [IndexError] past the end. *)
Definition get_child {S} (ch : list (option ASTNode)) (i : nat)
  : M S (option ASTNode) :=
  match ch !! i with
  | Some c => ret c
  | None => raise IndexError
  end.

(** [n.value] where [n] may be [None]. *)
Definition attr_value {S} (n : option ASTNode) : M S (option string) :=
  match n with
  | Some m => ret (nvalue m)
  | None => raise AttributeError
  end.

(** The recursive method applied to every child slot; [visit c] is the
    delayed call [self.method(c)]. *)
Definition visits {S} (visit : ASTNode → M S unit)
    (ch : list (option ASTNode)) : list (option (M S unit)) :=
  map (option_map visit) ch.

(** [self.method(node.children[i])]: the call on a [None] child fails
    on its first attribute access, [node.type]. *)
Definition call {S} (rec : list (option (M S unit))) (i : nat) : M S unit :=
  match rec !! i with
  | None => raise IndexError
  | Some None => raise AttributeError
  | Some (Some m) => m
  end.

(** [for child in (node.children or []): if child: self.method(child)]. *)
Fixpoint for_children {S} (rec : list (option (M S unit))) : M S unit :=
  match rec with
  | [] => ret tt
  | Some m :: rec' => run m; for_children rec'
  | None :: rec' => for_children rec'
  end.


(** [ASTNode.__repr__(level)]: one line for the node, indented by two
    spaces per level, with the payload after a colon when it is truthy;
    then the loop appends the lines of the children that are present. *)
Fixpoint spaces (n : nat) : string :=
  match n with
  | 0 => ""
  | S n' => " " +:+ spaces n'
  end.

(** The Python truth value of [self.value]: [None] and the empty string
    are falsy. *)
Definition truthy (v : option string) : bool :=
  match v with
  | Some s => negb (String.eqb s "")
  | None => false
  end.

Definition repr_line (level : nat) (ty : string) (v : option string) : string :=
  spaces (2 * level) +:+ ty
  +:+ (if truthy v then ": " +:+ py_str v else "")
  +:+ String "010" "".

Fixpoint __repr__ (level : nat) (n : ASTNode) : string :=
  match n with
  | Node ty v ch =>
      fold_left (λ ret c, match c with
                          | Some m => ret +:+ __repr__ (S level) m
                          | None => ret
                          end)
                ch (repr_line level ty v)
  end.

(** [repr(ast)]. *)
Definition repr (n : ASTNode) : string := __repr__ 0 n.

(** ** lexer.py *)

(** The strings used as a token's ['type']: the group names of
    [token_specification] and the parser's end marker ['EOF']. *)
Inductive token_kind : Type :=
  | INT | MAIN | IF | ELSE | WHILE | FOR | DO | RETURN
  | ID | NUM | STRING | OP
  | LPAREN | RPAREN | LBRACE | RBRACE | SEMI
  | SKIP | MISMATCH | EOF.

Global Instance token_kind_eq_dec : EqDecision token_kind.
Proof. solve_decision. Defined.

Definition kind_name (k : token_kind) : string :=
  match k with
  | INT => "INT" | MAIN => "MAIN" | IF => "IF" | ELSE => "ELSE"
  | WHILE => "WHILE" | FOR => "FOR" | DO => "DO" | RETURN => "RETURN"
  | ID => "ID" | NUM => "NUM" | STRING => "STRING" | OP => "OP"
  | LPAREN => "LPAREN" | RPAREN => "RPAREN" | LBRACE => "LBRACE"
  | RBRACE => "RBRACE" | SEMI => "SEMI" | SKIP => "SKIP"
  | MISMATCH => "MISMATCH" | EOF => "EOF"
  end.

(** A token dict [{'type': ..., 'value': ...}]; the value is [None] only
    in the parser's end marker. *)
Record token : Type := mkToken {
  ttype : token_kind;
  tvalue : option string
}.

Global Instance token_eq_dec : EqDecision token.
Proof. solve_decision. Defined.

Module Lexer.

(** Source text is a sequence of ASCII characters. *)
Definition in_range (lo hi c : ascii) : bool :=
  (nat_of_ascii lo <=? nat_of_ascii c)%nat && (nat_of_ascii c <=? nat_of_ascii hi)%nat.

Definition is_digit (c : ascii) : bool := in_range "0" "9" c.
Definition is_letter (c : ascii) : bool := in_range "A" "Z" c || in_range "a" "z" c.

(** [[A-Za-z_]] and [[A-Za-z0-9_]]. *)
Definition is_ident_start (c : ascii) : bool := is_letter c || Ascii.eqb c "_".
Definition is_ident_char (c : ascii) : bool :=
  is_letter c || is_digit c || Ascii.eqb c "_".

(** [\w] on ASCII text. *)
Definition is_word (c : ascii) : bool :=
  is_letter c || is_digit c || Ascii.eqb c "_".

Definition is_word_opt (c : option ascii) : bool :=
  match c with Some a => is_word a | None => false end.

(** [\b] between the character before a position and the one at it; the
    ends of the text count as non-word. *)
Definition at_boundary (before after : option ascii) : bool :=
  xorb (is_word_opt before) (is_word_opt after).

(** Length of the longest prefix whose characters satisfy [p]. *)
Fixpoint span (p : ascii → bool) (l : list ascii) : nat :=
  match l with
  | c :: l' => if p c then S (span p l') else 0
  | [] => 0
  end.

Fixpoint starts_with (w l : list ascii) : bool :=
  match w, l with
  | [], _ => true
  | a :: w', b :: l' => Ascii.eqb a b && starts_with w' l'
  | _ :: _, [] => false
  end.

(** A pattern, tried at one position: it sees the character before the
    position and the rest of the text, and answers with the length of
    its match. *)
Definition pattern : Type := option ascii → list ascii → option nat.

(** [\bword\b]. *)
Definition keyword (word : string) : pattern :=
  λ before rest,
    let w := list_ascii_of_string word in
    if at_boundary before (head rest)
       && starts_with w rest
       && at_boundary (last w) (head (drop (length w) rest))
    then Some (length w) else None.

(** [[A-Za-z_][A-Za-z0-9_]*], greedy. *)
Definition identifier : pattern :=
  λ _ rest,
    match rest with
    | c :: rest' =>
        if is_ident_start c then Some (S (span is_ident_char rest')) else None
    | [] => None
    end.

(** [\d+], greedy. *)
Definition number : pattern :=
  λ _ rest,
    match span is_digit rest with
    | 0 => None
    | n => Some n
    end.

(** The rest of the string-literal pattern after the opening quote: the
    shortest run of characters other than newline that is followed by a
    quote (the non-greedy star); [k] characters have been taken so far. *)
Fixpoint until_quote (rest : list ascii) (k : nat) : option nat :=
  match rest with
  | [] => None
  | c :: rest' =>
      if Ascii.eqb c "034" then Some (S k)
      else if Ascii.eqb c "010" then None
      else until_quote rest' (S k)
  end.

(** A quote, the shortest run without newline, a quote. *)
Definition string_literal : pattern :=
  λ _ rest,
    match rest with
    | c :: rest' => if Ascii.eqb c "034" then until_quote rest' 1 else None
    | [] => None
    end.

Definition one_of (cs : list ascii) (c : ascii) : bool :=
  existsb (Ascii.eqb c) cs.

(** [==|!=|<=|>=|<<|>>|[+\-*/%=<>]]. *)
Definition operator : pattern :=
  λ _ rest,
    if existsb (λ op, starts_with (list_ascii_of_string op) rest)
               ["=="; "!="; "<="; ">="; "<<"; ">>"]
    then Some 2
    else match rest with
         | c :: _ =>
             if one_of ["+"; "-"; "*"; "/"; "%"; "="; "<"; ">"]%char c
             then Some 1 else None
         | [] => None
         end.

(** A single literal character, e.g. [\(]. *)
Definition single (ch : ascii) : pattern :=
  λ _ rest,
    match rest with
    | c :: _ => if Ascii.eqb c ch then Some 1 else None
    | [] => None
    end.

(** [[ \t\n]+]. *)
Definition whitespace : pattern :=
  λ _ rest,
    match span (one_of [" "; "009"; "010"]%char) rest with
    | 0 => None
    | n => Some n
    end.

(** [.]: any character but a newline. *)
Definition any_char : pattern :=
  λ _ rest,
    match rest with
    | c :: _ => if Ascii.eqb c "010" then None else Some 1
    | [] => None
    end.

(** Order matters: the alternatives are tried from first to last. *)
Definition token_specification : list (token_kind * pattern) :=
  [ (INT, keyword "int");
    (MAIN, keyword "main");
    (IF, keyword "if");
    (ELSE, keyword "else");
    (WHILE, keyword "while");
    (FOR, keyword "for");
    (DO, keyword "do");
    (RETURN, keyword "return");
    (ID, identifier);
    (NUM, number);
    (STRING, string_literal);
    (OP, operator);
    (LPAREN, single "(");
    (RPAREN, single ")");
    (LBRACE, single "{");
    (RBRACE, single "}");
    (SEMI, single ";");
    (SKIP, whitespace);
    (MISMATCH, any_char) ].

(** The combined regex [(?P<INT>...)|(?P<MAIN>...)|...]: the first
    alternative that matches wins; the answer is [lastgroup] and the
    length of the match. *)
Fixpoint first_match (spec : list (token_kind * pattern))
    (before : option ascii) (rest : list ascii) : option (token_kind * nat) :=
  match spec with
  | [] => None
  | (name, pat) :: spec' =>
      match pat before rest with
      | Some len => Some (name, len)
      | None => first_match spec' before rest
      end
  end.

(** The character before position [pos], if any. *)
Definition char_before (code : list ascii) (pos : nat) : option ascii :=
  match pos with
  | 0 => None
  | S p => code !! p
  end.

(** [get_token(code, pos)]: [re.compile(tok_regex).match]. *)
Definition get_token (code : list ascii) (pos : nat) : option (token_kind * nat) :=
  first_match token_specification (char_before code pos) (drop pos code).

(** [mo.group()]. *)
Definition matched (code : list ascii) (pos len : nat) : string :=
  string_of_list_ascii (take len (drop pos code)).

(** [f'Unexpected character {mo.group()!r} at position {pos}']. *)
Definition mismatch_error (code : list ascii) (pos len : nat) : exn :=
  RuntimeError ("Unexpected character " +:+ py_repr (matched code pos len)
                +:+ " at position "
                +:+ DecimalString.NilZero.string_of_uint (Nat.to_uint pos)).

(** The [while mo is not None] loop of [lexer].  Every match consumes a
    character, so [n] iterations are enough for [n] remaining
    characters. *)
Fixpoint lexer_loop (n : nat) (code : list ascii) (pos : nat)
    (tokens : list token) : result (list token) :=
  match get_token code pos with
  | None => Ok tokens
  | Some (typ, len) =>
      match n with
      | 0 => OutOfFuel
      | S n' =>
          if decide (typ = SKIP) then lexer_loop n' code (pos + len) tokens
          else if decide (typ = MISMATCH) then Raise (mismatch_error code pos len)
          else lexer_loop n' code (pos + len)
                 (tokens ++ [mkToken typ (Some (matched code pos len))])
      end
  end.

Definition lexer (code : string) : result (list token) :=
  let chars := list_ascii_of_string code in
  lexer_loop (length chars) chars 0 [].

(** The reserved words and their token types. *)
Definition keywords : list (token_kind * string) :=
  [ (INT, "int"); (MAIN, "main"); (IF, "if"); (ELSE, "else");
    (WHILE, "while"); (FOR, "for"); (DO, "do"); (RETURN, "return") ].

(** The word at a position: the longest run of identifier characters
    that starts there. *)
Definition word_at (code : list ascii) (pos : nat) : list ascii :=
  let rest := drop pos code in take (span is_ident_char rest) rest.

(** The token type of a word that stands at a word boundary. *)
Definition word_kind (w : list ascii) : token_kind :=
  match find (λ kw, bool_decide (w = list_ascii_of_string kw.2)) keywords with
  | Some (k, _) => k
  | None => ID
  end.

End Lexer.

(** ** parser.py *)

Module Parser.

(** [{'type': 'EOF', 'value': None}]. *)
Definition EOF_token : token := mkToken EOF None.

(** [str] of a token dict, which writes the [repr] of its keys and
    values: [{'type': 'NUM', 'value': '1'}]. *)
Definition token_repr (tok : token) : string :=
  "{'type': " +:+ py_repr (kind_name (ttype tok)) +:+ ", 'value': "
  +:+ match tvalue tok with Some v => py_repr v | None => "None" end
  +:+ "}".

(** [str.strip()] on ASCII text. *)
Definition is_space (c : ascii) : bool :=
  let n := nat_of_ascii c in
  ((9 <=? n)%nat && (n <=? 13)%nat) || ((28 <=? n)%nat && (n <=? 32)%nat).

Fixpoint lstrip (s : list ascii) : list ascii :=
  match s with
  | c :: s' => if is_space c then lstrip s' else s
  | [] => []
  end.

Definition strip (s : string) : string :=
  string_of_list_ascii
    (reverse (lstrip (reverse (lstrip (list_ascii_of_string s))))).

(** [" ".join(text_tokens)]: every item has to be a string. *)
Fixpoint join_values (sep : string) (items : list (option string))
  : result string :=
  match items with
  | [] => Ok ""
  | [Some v] => Ok v
  | Some v :: rest =>
      match join_values sep rest with
      | Ok r => Ok (v +:+ sep +:+ r)
      | Raise e => Raise e
      | OutOfFuel => OutOfFuel
      end
  | None :: _ => Raise TypeError
  end.

Section WithTokens.

(** [self.tokens]; the state of a parser method is [self.pos]. *)
Variable tokens : list token.

Definition out_of_fuel {A} : M nat A := λ _, OutOfFuel.

(** [self.tokens[i] if i < len(self.tokens) else EOF]. *)
Definition token_at (i : nat) : token := default EOF_token (tokens !! i).

Definition current : M nat token := λ pos, Ok (token_at pos, pos).

(** The token after the current one, as [stmt] peeks it. *)
Definition next_token : M nat token := λ pos, Ok (token_at (pos + 1), pos).

(** [self.pos += 1]. *)
Definition advance : M nat unit := modify S.

Definition eat (token_type : token_kind) : M nat token :=
  do cur <- current;
  if decide (ttype cur = token_type) then (run advance; ret cur)
  else raise (RuntimeError ("Expected token type " +:+ kind_name token_type
                            +:+ " but got " +:+ kind_name (ttype cur)
                            +:+ " (" +:+ py_str (tvalue cur) +:+ ")")).

(** [tok['type'] == 'OP' and tok['value'] in ops]. *)
Definition is_op (ops : list string) (tok : token) : bool :=
  bool_decide (ttype tok = OP)
  && match tvalue tok with
     | Some v => existsb (String.eqb v) ops
     | None => false
     end.

(** [while test(self.current()): acc = step(acc)].  An iteration that
    returns has consumed a token, so the number of tokens bounds the
    number of iterations; [n] counts them down. *)
Fixpoint while_current {A} (n : nat) (test : token → bool)
    (step : A → M nat A) (acc : A) : M nat A :=
  do cur <- current;
  if test cur then
    match n with
    | 0 => out_of_fuel
    | S n' => do acc' <- step acc; while_current n' test step acc'
    end
  else ret acc.

(** *** Expression rules

    The methods call each other through [self]; here the callee is a
    parameter, and [expr] ties the knot. *)

Definition factor (expr : M nat ASTNode) : M nat ASTNode :=
  do tok <- current;
  if decide (ttype tok = NUM) then
    run eat NUM; ret (Node "num" (tvalue tok) [])
  else if decide (ttype tok = ID) then
    run eat ID; ret (Node "id" (tvalue tok) [])
  else if decide (ttype tok = LPAREN) then
    run eat LPAREN;
    do node <- expr;
    run eat RPAREN;
    ret node
  else raise (RuntimeError ("Unexpected factor token " +:+ token_repr tok)).

(** One round of the loop of [term] and of [arith_expr]. *)
Definition binary_step (kind : string) (operand : M nat ASTNode)
    (node : ASTNode) : M nat ASTNode :=
  do op_tok <- eat OP;
  do rhs <- operand;
  ret (Node kind (tvalue op_tok) [Some node; Some rhs]).

Definition term (expr : M nat ASTNode) : M nat ASTNode :=
  do node <- factor expr;
  while_current (length tokens) (is_op ["*"; "/"; "%"])
    (binary_step "term" (factor expr)) node.

Definition arith_expr (expr : M nat ASTNode) : M nat ASTNode :=
  do node <- term expr;
  while_current (length tokens) (is_op ["+"; "-"])
    (binary_step "arith_expr" (term expr)) node.

Definition expr_body (expr : M nat ASTNode) : M nat ASTNode :=
  do node <- arith_expr expr;
  do cur <- current;
  if is_op ["<"; ">"; "=="; "!="; "<="; ">="] cur then
    do op_tok <- eat OP;
    do rhs <- arith_expr expr;
    ret (Node "comparison" (tvalue op_tok) [Some node; Some rhs])
  else ret node.

(** [fuel] bounds the nesting of parentheses. *)
Fixpoint expr (fuel : nat) (pos : nat) : result (ASTNode * nat) :=
  match fuel with
  | 0 => OutOfFuel
  | S fuel' => expr_body (expr fuel') pos
  end.

(** *** Statement rules *)

Definition type_spec : M nat ASTNode :=
  do tok <- eat INT;
  ret (Node "type" (tvalue tok) []).

(** [cur['type'] == 'OP' and cur['value'] == '=']. *)
Definition is_assign_op (tok : token) : bool := is_op ["="] tok.

Definition var_decl (expr : M nat ASTNode) : M nat ASTNode :=
  do ty <- type_spec;
  do id_tok <- eat ID;
  let id_node := Node "id" (tvalue id_tok) [] in
  do cur <- current;
  if is_assign_op cur then
    run eat OP;
    do init <- expr;
    run eat SEMI;
    ret (Node "var_decl" None [Some ty; Some id_node; Some init])
  else
    run eat SEMI;
    ret (Node "var_decl" None [Some ty; Some id_node]).

Definition assign_stmt (expr : M nat ASTNode) : M nat ASTNode :=
  do id_tok <- eat ID;
  run eat OP;
  do rhs <- expr;
  run eat SEMI;
  ret (Node "assign" None [Some (Node "id" (tvalue id_tok) []); Some rhs]).

Definition assign_expr (expr : M nat ASTNode) : M nat ASTNode :=
  do id_tok <- eat ID;
  run eat OP;
  do rhs <- expr;
  ret (Node "assign" None [Some (Node "id" (tvalue id_tok) []); Some rhs]).

Definition return_stmt (expr : M nat ASTNode) : M nat ASTNode :=
  run eat RETURN;
  do e <- expr;
  run eat SEMI;
  ret (Node "return_stmt" None [Some e]).

(** The generic statement of [stmt]: the token texts up to the next
    semicolon (or the end of the tokens), joined by single spaces. *)
Definition not_semi_nor_eof (tok : token) : bool :=
  bool_decide (ttype tok ≠ SEMI) && bool_decide (ttype tok ≠ EOF).

Definition gather_step (text_tokens : list (option string))
  : M nat (list (option string)) :=
  do cur <- current;
  run advance;
  ret (text_tokens ++ [tvalue cur]).

Definition generic_stmt : M nat ASTNode :=
  do text_tokens <-
    while_current (length tokens) not_semi_nor_eof gather_step [];
  do cur <- current;
  do text_tokens <-
    (if decide (ttype cur = SEMI)
     then do semi <- eat SEMI; ret (text_tokens ++ [tvalue semi])
     else ret text_tokens);
  do joined <- lift (join_values " " text_tokens);
  let raw_text := strip joined in
  ret (Node "stmt" (Some raw_text) []).

(** [( compound_stmt | stmt )], chosen on the current token. *)
Definition body (stmt compound_stmt : M nat ASTNode) : M nat ASTNode :=
  do cur <- current;
  if decide (ttype cur = LBRACE) then compound_stmt else stmt.

Definition if_stmt (expr stmt compound_stmt : M nat ASTNode)
  : M nat ASTNode :=
  run eat IF;
  run eat LPAREN;
  do cond <- expr;
  run eat RPAREN;
  do then_ <- body stmt compound_stmt;
  do cur <- current;
  if decide (ttype cur = ELSE) then
    run eat ELSE;
    do else_ <- body stmt compound_stmt;
    ret (Node "if_stmt" None [Some cond; Some then_; Some else_])
  else ret (Node "if_stmt" None [Some cond; Some then_]).

Definition while_stmt (expr stmt compound_stmt : M nat ASTNode)
  : M nat ASTNode :=
  run eat WHILE;
  run eat LPAREN;
  do cond <- expr;
  run eat RPAREN;
  do b <- body stmt compound_stmt;
  ret (Node "while" None [Some cond; Some b]).

Definition for_stmt (expr stmt compound_stmt : M nat ASTNode)
  : M nat ASTNode :=
  run eat FOR;
  run eat LPAREN;
  (* INIT clause *)
  do cur <- current;
  do init_node <-
    (if decide (ttype cur = INT) then
       do n <- var_decl expr; ret (Some n)
     else if decide (ttype cur = ID) then
       do n <- assign_stmt expr; ret (Some n)
     else
       run eat SEMI; ret None);
  (* COND clause *)
  do cur <- current;
  do cond_node <-
    (if decide (ttype cur ≠ SEMI) then
       do n <- expr; run eat SEMI; ret (Some n)
     else
       run eat SEMI; ret None);
  (* UPDATE clause (no semicolon) *)
  do cur <- current;
  do upd_node <-
    (if decide (ttype cur = ID) then
       do n <- assign_expr expr; ret (Some n)
     else ret None);
  run eat RPAREN;
  (* LOOP BODY *)
  do b <- body stmt compound_stmt;
  ret (Node "for" None [init_node; cond_node; upd_node; Some b]).

Definition do_while_stmt (expr stmt compound_stmt : M nat ASTNode)
  : M nat ASTNode :=
  run eat DO;
  do b <- body stmt compound_stmt;
  run eat WHILE;
  run eat LPAREN;
  do cond <- expr;
  run eat RPAREN;
  run eat SEMI;
  ret (Node "do_while" None [Some b; Some cond]).

(** The token types that start a statement inside [compound_stmt]. *)
Definition starts_stmt (tok : token) : bool :=
  bool_decide (ttype tok ∈ [INT; ID; IF; RETURN; WHILE; FOR; DO]).

Definition compound_stmt_body (stmt : M nat ASTNode) : M nat ASTNode :=
  run eat LBRACE;
  do stmts <-
    while_current (length tokens) starts_stmt
      (λ acc, do s <- stmt; ret (acc ++ [Some s])) [];
  run eat RBRACE;
  ret (Node "compound_stmt" None stmts).

Definition stmt_body (expr stmt compound_stmt : M nat ASTNode)
  : M nat ASTNode :=
  do tok <- current;
  if decide (ttype tok = INT) then var_decl expr
  else if decide (ttype tok = ID) then
    (* could be an assignment or something else up to the next ';' *)
    do next_tok <- next_token;
    if is_assign_op next_tok then assign_stmt expr else generic_stmt
  else if decide (ttype tok = IF) then if_stmt expr stmt compound_stmt
  else if decide (ttype tok = RETURN) then return_stmt expr
  else if decide (ttype tok = WHILE) then while_stmt expr stmt compound_stmt
  else if decide (ttype tok = FOR) then for_stmt expr stmt compound_stmt
  else if decide (ttype tok = DO) then do_while_stmt expr stmt compound_stmt
  else raise (RuntimeError ("Unexpected token in stmt(): " +:+ token_repr tok)).

(** [fuel] bounds the nesting of statements (and, inside each, of
    parentheses). *)
Fixpoint stmt (fuel : nat) (pos : nat) : result (ASTNode * nat) :=
  match fuel with
  | 0 => OutOfFuel
  | S fuel' =>
      stmt_body (expr fuel) (stmt fuel') (compound_stmt_body (stmt fuel')) pos
  end.

Definition compound_stmt (fuel : nat) : M nat ASTNode :=
  compound_stmt_body (stmt fuel).

(** *** Program and function rules *)

Definition function (fuel : nat) : M nat ASTNode :=
  do ty <- type_spec;
  do main_tok <- eat MAIN;
  run eat LPAREN;
  run eat RPAREN;
  do b <- compound_stmt fuel;
  ret (Node "function" None
         [Some ty; Some (Node "main" (tvalue main_tok) []); Some b]).

Definition program (fuel : nat) : M nat ASTNode :=
  do f <- function fuel;
  ret (Node "program" None [Some f]).

End WithTokens.

(** [Parser(tokens).parse()], with the position the parser stopped at.
    No construct nests deeper than there are tokens. *)
Definition parse_from (tokens : list token) : result (ASTNode * nat) :=
  program tokens (length tokens) 0.

Definition parse (tokens : list token) : result ASTNode :=
  match parse_from tokens with
  | Ok (ast, _) => Ok ast
  | Raise e => Raise e
  | OutOfFuel => OutOfFuel
  end.

(** The tokens a generic statement starting at [pos] takes: those before
    the next semicolon (or end marker, or end of the tokens), and the
    semicolon when there is one. *)
Fixpoint span_while (p : token → bool) (l : list token) : nat :=
  match l with
  | t :: l' => if p t then S (span_while p l') else 0
  | [] => 0
  end.

Definition statement_tokens (tokens : list token) (pos : nat) : list token :=
  let rest := drop pos tokens in
  let k := span_while not_semi_nor_eof rest in
  take (if decide (ttype (token_at tokens (pos + k)) = SEMI) then S k else k)
       rest.

End Parser.

(** ** semantic.py *)

Module Semantic.

(** [self.symbols] and [self.errors]. *)
Record analyzer : Type := mkAnalyzer {
  symbols : gset (option string);
  errors : list string
}.

Definition init : analyzer := mkAnalyzer ∅ [].

Definition already_declared (var_name : option string) : string :=
  "Semantic Error: Variable '" +:+ py_str var_name +:+ "' already declared".
Definition used_before (var_name : option string) : string :=
  "Semantic Error: Variable '" +:+ py_str var_name +:+ "' used before declaration".

(** [self.symbols], read. *)
Definition get_symbols : M analyzer (gset (option string)) :=
  λ a, Ok (symbols a, a).

Definition add_error (msg : string) : M analyzer unit :=
  modify (λ a, mkAnalyzer (symbols a) (errors a ++ [msg])).
Definition add_symbol (x : option string) : M analyzer unit :=
  modify (λ a, mkAnalyzer ({[x]} ∪ symbols a) (errors a)).

Definition generic_visit (rec : list (option (M analyzer unit)))
  : M analyzer unit :=
  for_children rec.

Definition visit_var_decl (ch : list (option ASTNode))
    (rec : list (option (M analyzer unit))) : M analyzer unit :=
  do id_node <- get_child ch 1;
  do var_name <- attr_value id_node;
  do syms <- get_symbols;
  run (if decide (var_name ∈ syms)
       then add_error (already_declared var_name)
       else add_symbol var_name);
  if decide (length ch = 3) then call rec 2 else ret tt.

Definition visit_assign (ch : list (option ASTNode))
    (rec : list (option (M analyzer unit))) : M analyzer unit :=
  do id_node <- get_child ch 0;
  do var_name <- attr_value id_node;
  do syms <- get_symbols;
  run (if decide (var_name ∈ syms)
       then ret tt
       else add_error (used_before var_name));
  call rec 1.

Definition visit_id (v : option string) : M analyzer unit :=
  do syms <- get_symbols;
  if decide (v ∈ syms) then ret tt else add_error (used_before v).

Definition visit_if_stmt (ch : list (option ASTNode))
    (rec : list (option (M analyzer unit))) : M analyzer unit :=
  run call rec 0;
  run call rec 1;
  if decide (length ch = 3) then call rec 2 else ret tt.

Definition visit_while (rec : list (option (M analyzer unit)))
  : M analyzer unit :=
  run call rec 0;
  call rec 1.

(** [if node.children[i]: self.analyze(node.children[i])]. *)
Definition call_if_present (ch : list (option ASTNode))
    (rec : list (option (M analyzer unit))) (i : nat) : M analyzer unit :=
  do c <- get_child ch i;
  match c with Some _ => call rec i | None => ret tt end.

Definition visit_for (ch : list (option ASTNode))
    (rec : list (option (M analyzer unit))) : M analyzer unit :=
  run call_if_present ch rec 0;
  run call_if_present ch rec 1;
  run call_if_present ch rec 2;
  call rec 3.

Definition visit_do_while (rec : list (option (M analyzer unit)))
  : M analyzer unit :=
  run call rec 0;
  call rec 1.

Definition visit_return_stmt (rec : list (option (M analyzer unit)))
  : M analyzer unit :=
  call rec 0.

(** [getattr(self, 'visit_' + node.type, self.generic_visit)(node)],
    given the delayed calls [rec] of [analyze] on the children. *)
Definition dispatch (ty : string) (v : option string)
    (ch : list (option ASTNode)) (rec : list (option (M analyzer unit)))
  : M analyzer unit :=
  if String.eqb ty "var_decl" then visit_var_decl ch rec
  else if String.eqb ty "assign" then visit_assign ch rec
  else if String.eqb ty "id" then visit_id v
  else if String.eqb ty "if_stmt" then visit_if_stmt ch rec
  else if String.eqb ty "while" then visit_while rec
  else if String.eqb ty "for" then visit_for ch rec
  else if String.eqb ty "do_while" then visit_do_while rec
  else if String.eqb ty "return_stmt" then visit_return_stmt rec
  else generic_visit rec.

Fixpoint analyze (node : ASTNode) : M analyzer unit :=
  match node with
  | Node ty v ch => dispatch ty v ch (map (option_map analyze) ch)
  end.

(** What the caller reads after [analyzer.analyze(ast)] on a fresh
    analyzer: [analyzer.errors]. *)
Definition diagnostics (ast : ASTNode) : result (list string) :=
  match analyze ast init with
  | Ok (_, a) => Ok (errors a)
  | Raise e => Raise e
  | OutOfFuel => OutOfFuel
  end.

End Semantic.

(** ** flowchart.py *)

Module Flowchart.

(** Fallible pure helpers ([_formatter], [_expr_to_str]) live in [result]. *)
Definition rbind {A B} (r : result A) (k : A → result B) : result B :=
  match r with
  | Ok a => k a
  | Raise e => Raise e
  | OutOfFuel => OutOfFuel
  end.
Notation "'try' x <- r ; k" := (rbind r (λ x, k))
  (at level 10, x name, r at level 100, k at level 200,
   format "'[v' 'try'  x  <-  r ; '/' k ']'") : mon_scope.

(** [l[i]] on a Python list, without state. *)
Definition index {A} (l : list A) (i : nat) : result A :=
  match l !! i with Some a => Ok a | None => Raise IndexError end.

(** [n.value] where [n] may be [None]. *)
Definition value_of (n : option ASTNode) : result (option string) :=
  match n with Some m => Ok (nvalue m) | None => Raise AttributeError end.

(** [sep.join(parts)]: a [None] item is a [TypeError]. *)
Fixpoint join (sep : string) (parts : list (option string)) : result string :=
  match parts with
  | [] => Ok ""
  | [Some p] => Ok p
  | Some p :: rest => try r <- join sep rest; Ok (p +:+ sep +:+ r)
  | None :: _ => Raise TypeError
  end.

(** The graph handed to Graphviz.  The identifier [f'node{N}'] is
    represented by the number [N]. *)
Inductive shape : Type := oval | box | diamond | point.

Global Instance shape_eq_dec : EqDecision shape.
Proof. solve_decision. Defined.

Record gnode : Type := mkGNode {
  g_id : nat;
  g_label : option string;
  g_shape : shape;
  g_attrs : list (string * string)
}.

Record gedge : Type := mkGEdge {
  e_tail : nat;
  e_head : nat;
  e_label : option string
}.

Record digraph : Type := mkDigraph {
  g_nodes : list gnode;
  g_edges : list gedge
}.

(** The fields of a [FlowchartGenerator]. *)
Record generator : Type := mkGenerator {
  dot : digraph;
  node_count : nat;
  last_node : option nat;
  merge_stack : list nat
}.

Definition init : generator := mkGenerator (mkDigraph [] []) 0 None [].

(** [self.dot.node(name, label, shape=..., **attrs)]. *)
Definition dot_node (name : nat) (label : option string) (sh : shape)
    (attrs : list (string * string)) : M generator unit :=
  modify (λ g,
    mkGenerator
      (mkDigraph (g_nodes (dot g) ++ [mkGNode name label sh attrs])
                 (g_edges (dot g)))
      (node_count g) (last_node g) (merge_stack g)).

(** [self.dot.edge(tail, head, label=...)].  Graphviz quotes both names
    with string methods, so a [None] tail raises before anything is
    recorded. *)
Definition dot_edge (tail : option nat) (head : nat) (label : option string)
  : M generator unit :=
  match tail with
  | None => raise AttributeError
  | Some t =>
      modify (λ g,
        mkGenerator
          (mkDigraph (g_nodes (dot g))
                     (g_edges (dot g) ++ [mkGEdge t head label]))
          (node_count g) (last_node g) (merge_stack g))
  end.

Definition set_last_node (l : option nat) : M generator unit :=
  modify (λ g, mkGenerator (dot g) (node_count g) l (merge_stack g)).

(** [self.merge_stack.append(m)]. *)
Definition push_merge (m : nat) : M generator unit :=
  modify (λ g, mkGenerator (dot g) (node_count g) (last_node g)
                           (merge_stack g ++ [m])).

Definition _new_node_id : M generator nat :=
  λ g, Ok (S (node_count g),
           mkGenerator (dot g) (S (node_count g)) (last_node g) (merge_stack g)).

Definition _make_invisible_merge : M generator nat :=
  do merge_id <- _new_node_id;
  run dot_node merge_id (Some "") point [("width", "0.01"); ("style", "invis")];
  ret merge_id.

(** [if self.last_node: self.dot.edge(self.last_node, target)]. *)
Definition edge_from_last (target : nat) : M generator unit :=
  do g <- get;
  match last_node g with
  | Some p => dot_edge (Some p) target None
  | None => ret tt
  end.

(** [_expr_to_str] on a node that is not [None], given the results of
    the recursive calls on its child slots. *)
Definition expr_to_str_body (ty : string) (v : option string)
    (rec : list (result (option string))) : result (option string) :=
  if in_types ty ["num"; "id"] then Ok v
  else if in_types ty ["comparison"; "arith_expr"; "term"] then
    try l <- index rec 0;
    try left <- l;
    try r <- index rec 1;
    try right <- r;
    Ok (Some (py_str left +:+ " " +:+ py_str v +:+ " " +:+ py_str right))
  else Ok (Some ty).

Fixpoint expr_to_str_node (n : ASTNode) : result (option string) :=
  match n with
  | Node ty v ch =>
      expr_to_str_body ty v
        (map (λ c, match c with
                   | Some m => expr_to_str_node m
                   | None => Ok (Some "")
                   end) ch)
  end.

Definition _expr_to_str (node : option ASTNode) : result (option string) :=
  match node with
  | None => Ok (Some "")
  | Some n => expr_to_str_node n
  end.

(** [self._expr_to_str(node.children[i])]. *)
Definition expr_child (ch : list (option ASTNode)) (i : nat)
  : result (option string) :=
  try c <- index ch i; _expr_to_str c.

(** [_formatter], given the results of [_formatter] on the child slots
    that hold a node. *)
Definition formatter_body (ty : string) (v : option string)
    (ch : list (option ASTNode))
    (rec : list (option (result (option string))))
  : result (option string) :=
  if String.eqb ty "var_decl" then
    try c0 <- index ch 0;
    try var_type <- value_of c0;
    try c1 <- index ch 1;
    try var_name <- value_of c1;
    if decide (length ch = 3) then
      try expr_str <- expr_child ch 2;
      Ok (Some (py_str var_type +:+ " " +:+ py_str var_name +:+ " = "
                +:+ py_str expr_str))
    else Ok (Some (py_str var_type +:+ " " +:+ py_str var_name))
  else if String.eqb ty "assign" then
    try c0 <- index ch 0;
    try var_name <- value_of c0;
    try expr_str <- expr_child ch 1;
    Ok (Some (py_str var_name +:+ " = " +:+ py_str expr_str))
  else if String.eqb ty "return_stmt" then
    try expr_str <- expr_child ch 0;
    Ok (Some ("return " +:+ py_str expr_str))
  else if String.eqb ty "stmt" then Ok v
  else if String.eqb ty "if_stmt" then
    try cond <- expr_child ch 0;
    Ok (Some ("if (" +:+ py_str cond +:+ ")"))
  else if String.eqb ty "while" then
    try cond <- expr_child ch 0;
    Ok (Some ("while (" +:+ py_str cond +:+ ")"))
  else if String.eqb ty "for" then
    try init <- index rec 0;
    try cond <- index ch 1;
    try upd <- index rec 2;
    try p0 <- match init with Some r => r | None => Ok (Some "") end;
    try p1 <- match cond with Some _ => _expr_to_str cond | None => Ok (Some "") end;
    try p2 <- match upd with Some r => r | None => Ok (Some "") end;
    try parts <- join "; " [p0; p1; p2];
    Ok (Some ("for (" +:+ parts +:+ ")"))
  else if String.eqb ty "do_while" then Ok (Some "do … while")
  else Ok (Some ty).

Fixpoint _formatter (node : ASTNode) : result (option string) :=
  match node with
  | Node ty v ch => formatter_body ty v ch (map (option_map _formatter) ch)
  end.

(** Case 2 of [_process_node]: a box for an action statement. *)
Definition process_action (node : ASTNode) : M generator unit :=
  do box_id <- _new_node_id;
  do label <- lift (_formatter node);
  run dot_node box_id label box [];
  run edge_from_last box_id;
  set_last_node (Some box_id).

(** Case 3: [if_stmt]. *)
Definition process_if (node : ASTNode) (ch : list (option ASTNode))
    (rec : list (option (M generator unit))) : M generator unit :=
  do decision_id <- _new_node_id;
  do label <- lift (_formatter node);
  run dot_node decision_id label diamond [];
  run edge_from_last decision_id;
  (* (a) THEN branch *)
  do g <- get;
  let before_then := node_count g in
  run set_last_node (Some decision_id);
  run call rec 1;
  do g <- get;
  let then_end := last_node g in
  let then_entry := before_then + 1 in
  (* (b) ELSE branch? *)
  if decide (length ch = 3) then
    do g <- get;
    let before_else := node_count g in
    run set_last_node (Some decision_id);
    run call rec 2;
    do g <- get;
    let else_end := last_node g in
    let else_entry := before_else + 1 in
    do merge_id <- _make_invisible_merge;
    run push_merge merge_id;
    run dot_edge then_end merge_id None;
    run dot_edge else_end merge_id None;
    run dot_edge (Some decision_id) then_entry (Some "true");
    run dot_edge (Some decision_id) else_entry (Some "false");
    set_last_node (Some merge_id)
  else
    (* no ELSE: create or reuse a merge point *)
    do g <- get;
    do merge <-
      match last (merge_stack g), then_end with
      | Some top, Some te =>
          if decide (te = top) then ret (te, true)
          else (do m <- _make_invisible_merge; run push_merge m; ret (m, false))
      | _, _ => do m <- _make_invisible_merge; run push_merge m; ret (m, false)
      end;
    let merge_id := merge.1 in
    let reused := merge.2 in
    run (if reused then ret tt else dot_edge then_end merge_id None);
    run dot_edge (Some decision_id) then_entry (Some "true");
    (* the source names [mergerId] here, a variable that does not exist *)
    do mergerId <- raise (NameError "mergerId");
    run dot_edge (Some decision_id) mergerId (Some "false");
    set_last_node (Some merge_id).

(** Case 4: [while]. *)
Definition process_while (node : ASTNode)
    (rec : list (option (M generator unit))) : M generator unit :=
  do cond_id <- _new_node_id;
  do label <- lift (_formatter node);
  run dot_node cond_id label diamond [];
  run edge_from_last cond_id;
  (* body: temporarily suppress auto-edge *)
  do g <- get;
  let before_body := node_count g in
  run set_last_node None;
  run call rec 1;
  do g <- get;
  let body_end := last_node g in
  let body_entry := before_body + 1 in
  run dot_edge (Some cond_id) body_entry (Some "true");
  run dot_edge body_end cond_id None;
  do merge_id <- _make_invisible_merge;
  run dot_edge (Some cond_id) merge_id (Some "false");
  set_last_node (Some merge_id).

(** Case 5: [for]. *)
Definition process_for (ch : list (option ASTNode))
    (rec : list (option (M generator unit))) : M generator unit :=
  (* (a) init clause *)
  do init_node <- get_child ch 0;
  run (match init_node with Some _ => call rec 0 | None => ret tt end);
  (* (b) condition diamond *)
  do cond_id <- _new_node_id;
  do c1 <- get_child ch 1;
  do cond_label <-
    lift (match c1 with Some _ => _expr_to_str c1 | None => Ok (Some "") end);
  run dot_node cond_id (Some ("for_cond (" +:+ py_str cond_label +:+ ")")) diamond [];
  run edge_from_last cond_id;
  (* (c) body: suppress auto-edge *)
  do g <- get;
  let before_body := node_count g in
  run set_last_node None;
  run call rec 3;
  do g <- get;
  let body_end := last_node g in
  let body_entry := before_body + 1 in
  run dot_edge (Some cond_id) body_entry (Some "true");
  (* (d) update clause *)
  do upd_node <- get_child ch 2;
  run (match upd_node with
       | Some upd =>
           do upd_id <- _new_node_id;
           do label <- lift (_formatter upd);
           run dot_node upd_id label box [];
           run dot_edge body_end upd_id None;
           dot_edge (Some upd_id) cond_id None
       | None => dot_edge body_end cond_id None
       end);
  (* (e) false -> merge *)
  do merge_id <- _make_invisible_merge;
  run dot_edge (Some cond_id) merge_id (Some "false");
  set_last_node (Some merge_id).

(** Case 6: [do_while]. *)
Definition process_do_while (ch : list (option ASTNode))
    (rec : list (option (M generator unit))) : M generator unit :=
  do g <- get;
  let before_body := node_count g in
  run call rec 0;
  do g <- get;
  let body_end := last_node g in
  do cond_id <- _new_node_id;
  do cond_label <- lift (expr_child ch 1);
  run dot_node cond_id (Some ("while (" +:+ py_str cond_label +:+ ")")) diamond [];
  run dot_edge body_end cond_id None;
  let body_entry := before_body + 1 in
  run dot_edge (Some cond_id) body_entry (Some "true");
  do merge_id <- _make_invisible_merge;
  run dot_edge (Some cond_id) merge_id (Some "false");
  set_last_node (Some merge_id).

(** The body of [_process_node], given the delayed recursive calls
    [rec] on the child slots. *)
Definition process_body (node : ASTNode)
    (rec : list (option (M generator unit))) : M generator unit :=
  let ty := ntype node in
  let ch := children node in
  if in_types ty ["program"; "function"; "compound_stmt"] then for_children rec
  else if in_types ty ["var_decl"; "assign"; "return_stmt"; "stmt"] then
    process_action node
  else if String.eqb ty "if_stmt" then process_if node ch rec
  else if String.eqb ty "while" then process_while node rec
  else if String.eqb ty "for" then process_for ch rec
  else if String.eqb ty "do_while" then process_do_while ch rec
  else if in_types ty ["type"; "main"] then ret tt
  else for_children rec.

Fixpoint _process_node (node : ASTNode) : M generator unit :=
  match node with
  | Node ty v ch =>
      process_body (Node ty v ch) (map (option_map _process_node) ch)
  end.

(** [generate], run on a fresh generator; the caller receives [self.dot]. *)
Definition generate_steps (ast_root : ASTNode) : M generator digraph :=
  (* 1) Start oval *)
  do start_id <- _new_node_id;
  run dot_node start_id (Some "Start") oval [];
  run set_last_node (Some start_id);
  (* 2) recursively process the AST *)
  run _process_node ast_root;
  (* 3) End oval *)
  do end_id <- _new_node_id;
  run dot_node end_id (Some "End") oval [];
  run edge_from_last end_id;
  do g <- get;
  ret (dot g).

Definition generate (ast_root : ASTNode) : result digraph :=
  match generate_steps ast_root init with
  | Ok (d, _) => Ok d
  | Raise e => Raise e
  | OutOfFuel => OutOfFuel
  end.

(** Degrees, and the ovals with a given label, in a graph description. *)
Definition in_degree (d : digraph) (id : nat) : nat :=
  length (filter (λ e, e_head e = id) (g_edges d)).
Definition out_degree (d : digraph) (id : nat) : nat :=
  length (filter (λ e, e_tail e = id) (g_edges d)).
Definition out_edges (d : digraph) (id : nat) : list gedge :=
  filter (λ e, e_tail e = id) (g_edges d).
Definition ovals (label : string) (d : digraph) : list gnode :=
  filter (λ n, g_shape n = oval ∧ g_label n = Some label) (g_nodes d).

End Flowchart.

(** ** The shapes of parser-built trees

    The nodes the parser builds for the constructs the properties below
    speak about. *)

Definition leaf (ty v : string) : ASTNode := Node ty (Some v) [].

(** [int main() { body }]. *)
Definition main_program (body : list (option ASTNode)) : ASTNode :=
  Node "program" None
    [Some (Node "function" None
       [Some (leaf "type" "int"); Some (leaf "main" "main");
        Some (Node "compound_stmt" None body)])].

(** [int x;] and [int x = init;]. *)
Definition decl (x : string) : ASTNode :=
  Node "var_decl" None [Some (leaf "type" "int"); Some (leaf "id" x)].
Definition decl_init (x : string) (init : ASTNode) : ASTNode :=
  Node "var_decl" None [Some (leaf "type" "int"); Some (leaf "id" x); Some init].

(** An opaque statement with its raw text. *)
Definition opaque (text : string) : ASTNode := Node "stmt" (Some text) [].

(** [{ }]. *)
Definition empty_block : ASTNode := Node "compound_stmt" None [].

(** Lexing then parsing, as the GUI chains them. *)
Definition front_end (code : string) : result ASTNode :=
  match Lexer.lexer code with
  | Ok tokens => Parser.parse tokens
  | Raise e => Raise e
  | OutOfFuel => OutOfFuel
  end.

(** The GUI's [parse_code]: tokenize, parse, analyze with a fresh
    analyzer, and read its [errors]. *)
Definition parse_code (code : string) : result (list string) :=
  match front_end code with
  | Ok ast => Semantic.diagnostics ast
  | Raise e => Raise e
  | OutOfFuel => OutOfFuel
  end.

(** The GUI's [generate_flowchart] on fresh text: tokenize, parse, and
    build the graph with a fresh generator. *)
Definition flowchart_of_code (code : string) : result Flowchart.digraph :=
  match front_end code with
  | Ok ast => Flowchart.generate ast
  | Raise e => Raise e
  | OutOfFuel => OutOfFuel
  end.

(** * Properties *)

(** ** The state/exception monad *)

Lemma bind_ok {S A B} (m : M S A) (k : A → M S B) s a s' :
  m s = Ok (a, s') → bind m k s = k a s'.
Proof. unfold bind. by intros ->. Qed.

Lemma bind_inv_ok {S A B} (m : M S A) (k : A → M S B) s b s'' :
  bind m k s = Ok (b, s'') → ∃ a s', m s = Ok (a, s') ∧ k a s' = Ok (b, s'').
Proof.
  unfold bind. destruct (m s) as [[a s']| |]; [|done..]. eauto.
Qed.

Lemma bind_raise {S A B} (m : M S A) (k : A → M S B) s e :
  m s = Raise e → bind m k s = Raise e.
Proof. unfold bind. by intros ->. Qed.

Lemma for_children_app {S} (l1 l2 : list (option (M S unit))) s :
  for_children (l1 ++ l2) s = (run for_children l1; for_children l2) s.
Proof.
  revert s. induction l1 as [|[m|] l1 IH]; intros s; simpl.
  - done.
  - unfold bind. destruct (m s) as [[[] s']| |]; [|done..].
    rewrite IH. done.
  - apply IH.
Qed.

(** *** Weakest preconditions

    [wp m Q s]: run from [s], the method [m] does not run out of fuel,
    and if it returns [a] in state [s'] then [Q a s'] holds. *)

Definition wp {S A} (m : M S A) (Q : A → S → Prop) (s : S) : Prop :=
  match m s with
  | Ok (a, s') => Q a s'
  | Raise _ => True
  | OutOfFuel => False
  end.

Lemma wp_ret {S A} (a : A) (Q : A → S → Prop) s : Q a s → wp (ret a) Q s.
Proof. done. Qed.

Lemma wp_raise {S A} e (Q : A → S → Prop) s : wp (raise e) Q s.
Proof. done. Qed.

Lemma wp_get {S} (Q : S → S → Prop) s : Q s s → wp get Q s.
Proof. done. Qed.

Lemma wp_modify {S} (f : S → S) (Q : unit → S → Prop) s :
  Q tt (f s) → wp (modify f) Q s.
Proof. done. Qed.

Lemma wp_bind {S A B} (m : M S A) (k : A → M S B) (Q : B → S → Prop) s :
  wp m (λ a s', wp (k a) Q s') s → wp (bind m k) Q s.
Proof. unfold wp, bind. by destruct (m s) as [[a s']| |]. Qed.

Lemma wp_mono {S A} (m : M S A) (Q Q' : A → S → Prop) s :
  wp m Q s → (∀ a s', Q a s' → Q' a s') → wp m Q' s.
Proof. unfold wp. destruct (m s) as [[a s']| |]; auto. Qed.

Lemma wp_lift {S A} (r : result A) (Q : A → S → Prop) s :
  r ≠ OutOfFuel → (∀ a, r = Ok a → Q a s) → wp (lift r) Q s.
Proof. unfold wp, lift. destruct r; auto. Qed.

Lemma wp_ok {S A} (m : M S A) (Q : A → S → Prop) s a s' :
  wp m Q s → m s = Ok (a, s') → Q a s'.
Proof. unfold wp. intros H Hm. by rewrite Hm in H. Qed.

Lemma wp_total {S A} (m : M S A) (Q : A → S → Prop) s :
  wp m Q s → m s ≠ OutOfFuel.
Proof. unfold wp. by destruct (m s). Qed.

(** A method respects the relation [R] between the state it starts in
    and the state it returns in. *)
Definition respects {S A} (R : S → S → Prop) (m : M S A) : Prop :=
  ∀ s, wp m (λ _ s', R s s') s.

Definition respects_slot {S} (R : S → S → Prop) (o : option (M S unit)) : Prop :=
  match o with Some m => respects R m | None => True end.

Lemma wp_call {S} (R : S → S → Prop) rec i (Q : unit → S → Prop) s :
  Forall (respects_slot R) rec →
  (∀ s', R s s' → Q tt s') →
  wp (call rec i) Q s.
Proof.
  intros Hrec HQ. unfold call.
  destruct (rec !! i) as [[m|]|] eqn:Hi; [|done..].
  apply (wp_mono _ (λ _ s', R s s')).
  - apply (Forall_lookup_1 _ _ _ _ Hrec Hi).
  - by intros [].
Qed.

Lemma wp_for_children {S} (R : S → S → Prop) rec (Q : unit → S → Prop) s :
  (∀ s, R s s) → (∀ s1 s2 s3, R s1 s2 → R s2 s3 → R s1 s3) →
  Forall (respects_slot R) rec →
  (∀ s', R s s' → Q tt s') →
  wp (for_children rec) Q s.
Proof.
  intros Hrefl Htrans Hrec. revert Q.
  assert (H : wp (for_children rec) (λ _ s', R s s') s).
  { revert s. induction Hrec as [|[m|] rec Hm _ IH]; intros s; simpl.
    - apply Hrefl.
    - apply wp_bind. apply (wp_mono _ (λ _ s', R s s')); [apply Hm|].
      intros _ s1 H1. apply (wp_mono _ (λ _ s', R s1 s')); [apply IH|].
      intros _ s2 H2. by apply (Htrans _ s1).
    - apply IH. }
  intros Q HQ. apply (wp_mono _ _ _ _ H). by intros [].
Qed.

Lemma Forall_visits {S} (P : ASTNode → Prop) (Q : option (M S unit) → Prop)
    (visit : ASTNode → M S unit) ch :
  (∀ n, P n → Q (Some (visit n))) → Q None →
  Forall (child_all P) ch → Forall Q (map (option_map visit) ch).
Proof.
  intros HS HN. induction 1 as [|[n|] ch Hn _ IH]; simpl; constructor; auto.
Qed.


Lemma wp_faults {S A} (m : M S A) s : wp m (λ _ _, False) s → faults (m s).
Proof. unfold wp, faults. destruct (m s) as [[a s']| |]; [done|eauto|done]. Qed.

Lemma wp_of_result {S A} (m : M S A) (Q : A → S → Prop) s :
  m s ≠ OutOfFuel → (∀ a s', m s = Ok (a, s') → Q a s') → wp m Q s.
Proof. unfold wp. destruct (m s) as [[a s']| |]; auto. Qed.

(** ** Semantic analyzer *)

Module SemanticProps.
Import Semantic.

(** The nodes under [int main() { ... }] are visited in order. *)
Definition analyze_all (l : list (option ASTNode)) : M analyzer unit :=
  for_children (map (option_map analyze) l).

Lemma analyze_main_program body a :
  analyze (main_program body) a = analyze_all body a.
Proof.
  unfold analyze_all, main_program, leaf. cbn [analyze map option_map].
  cbv beta iota delta [dispatch String.eqb Ascii.eqb Bool.eqb generic_visit].
  cbn [for_children]. unfold bind, ret.
  by destruct (for_children _ a) as [[[] a']| |].
Qed.

Lemma analyze_all_app l1 l2 a :
  analyze_all (l1 ++ l2) a = (run analyze_all l1; analyze_all l2) a.
Proof. unfold analyze_all. rewrite map_app. apply for_children_app. Qed.

Lemma analyze_all_cons n l a :
  analyze_all (Some n :: l) a = (run analyze n; analyze_all l) a.
Proof. done. Qed.

(** Replacing one statement by another with the same effect. *)
Lemma analyze_all_replace pre post n n' :
  (∀ a, analyze n a = analyze n' a) →
  ∀ a, analyze_all (pre ++ Some n :: post) a
       = analyze_all (pre ++ Some n' :: post) a.
Proof.
  intros Heq a. rewrite !analyze_all_app. unfold bind.
  destruct (analyze_all pre a) as [[[] a1]| |]; [|done..].
  rewrite !analyze_all_cons. unfold bind. by rewrite Heq.
Qed.

(** *** Diagnostics are only ever appended

    What a visit does depends on the symbols alone; the diagnostics
    recorded so far are a prefix of those recorded after it. *)

Definition with_errors {A} (E : list string) (r : result (A * analyzer))
  : result (A * analyzer) :=
  match r with
  | Ok (x, a) => Ok (x, mkAnalyzer (symbols a) (E ++ errors a))
  | Raise e => Raise e
  | OutOfFuel => OutOfFuel
  end.

Definition framed {A} (m : M analyzer A) : Prop :=
  ∀ S E, m (mkAnalyzer S E) = with_errors E (m (mkAnalyzer S [])).

Definition framed_slot (o : option (M analyzer unit)) : Prop :=
  match o with Some m => framed m | None => True end.

Lemma framed_ret {A} (x : A) : framed (ret x).
Proof. intros S E. unfold ret; simpl. by rewrite app_nil_r. Qed.

Lemma framed_raise {A} e : framed (raise e : M analyzer A).
Proof. by intros S E. Qed.

Lemma framed_bind {A B} (m : M analyzer A) (k : A → M analyzer B) :
  framed m → (∀ x, framed (k x)) → framed (bind m k).
Proof.
  intros Hm Hk S E. unfold bind. rewrite (Hm S E).
  destruct (m (mkAnalyzer S [])) as [[x [S1 E1]]| |]; simpl; [|done..].
  rewrite (Hk x S1 (E ++ E1)), (Hk x S1 E1).
  destruct (k x (mkAnalyzer S1 [])) as [[y [S2 E2]]| |]; simpl; [|done..].
  by rewrite app_assoc.
Qed.

Lemma framed_get_symbols : framed get_symbols.
Proof. intros S E. unfold get_symbols; simpl. by rewrite app_nil_r. Qed.

Lemma framed_add_error msg : framed (add_error msg).
Proof. by intros S E. Qed.

Lemma framed_add_symbol x : framed (add_symbol x).
Proof. intros S E. unfold add_symbol, modify; simpl. by rewrite app_nil_r. Qed.

Lemma framed_get_child ch i : framed (get_child ch i).
Proof.
  unfold get_child. destruct (ch !! i); [apply framed_ret|apply framed_raise].
Qed.

Lemma framed_attr_value n : framed (attr_value n).
Proof.
  unfold attr_value. destruct n; [apply framed_ret|apply framed_raise].
Qed.

Lemma framed_call rec i : Forall framed_slot rec → framed (call rec i).
Proof.
  intros Hrec. unfold call.
  destruct (rec !! i) as [[m|]|] eqn:Hi; try apply framed_raise.
  by apply (Forall_lookup_1 _ _ _ _ Hrec Hi).
Qed.

Lemma framed_for_children rec :
  Forall framed_slot rec → framed (for_children rec).
Proof.
  induction 1 as [|[m|] rec Hm _ IH]; simpl.
  - apply framed_ret.
  - apply framed_bind; [done|]. by intros _.
  - done.
Qed.

Create HintDb framed.
#[local] Hint Resolve framed_ret framed_raise framed_get_symbols
  framed_add_error framed_add_symbol framed_get_child framed_attr_value
  framed_call framed_for_children : framed.

Ltac framed_steps :=
  repeat first
    [ apply framed_bind; [|intros ?]
    | case_decide
    | case_match
    | solve [eauto with framed] ].

Lemma framed_dispatch ty v ch rec :
  Forall framed_slot rec → framed (dispatch ty v ch rec).
Proof.
  intros Hrec. unfold dispatch.
  repeat case_match;
    unfold visit_var_decl, visit_assign, visit_id, visit_if_stmt, visit_while,
      visit_for, call_if_present, visit_do_while, visit_return_stmt,
      generic_visit;
    framed_steps.
Qed.

Lemma analyze_framed n : framed (analyze n).
Proof.
  induction n as [ty v ch IH] using ASTNode_tree_ind. simpl.
  apply framed_dispatch.
  by apply (Forall_visits (λ n, framed (analyze n)) framed_slot).
Qed.

Lemma analyze_all_framed l : framed (analyze_all l).
Proof.
  apply framed_for_children.
  induction l as [|[n|] l IH]; simpl; constructor; simpl; auto.
  apply analyze_framed.
Qed.

(** *** Declarations *)

(** A plain declaration either reports the duplicate or inserts the
    name, and leaves everything else alone. *)
Lemma analyze_decl x a :
  analyze (decl x) a =
  Ok (tt, if decide (Some x ∈ symbols a)
          then mkAnalyzer (symbols a) (errors a ++ [already_declared (Some x)])
          else mkAnalyzer ({[Some x]} ∪ symbols a) (errors a)).
Proof.
  unfold decl, leaf. cbn [analyze map option_map].
  cbv beta iota delta [dispatch String.eqb Ascii.eqb Bool.eqb].
  unfold visit_var_decl, get_child, attr_value, get_symbols; simpl.
  unfold bind, ret; simpl. by case_decide.
Qed.

Lemma analyze_decl_init x init a :
  analyze (decl_init x init) a = (run analyze (decl x); analyze init) a.
Proof.
  unfold bind. rewrite analyze_decl.
  unfold decl_init, leaf. cbn [analyze map option_map].
  cbv beta iota delta [dispatch String.eqb Ascii.eqb Bool.eqb].
  unfold visit_var_decl, get_child, attr_value, get_symbols; simpl.
  unfold bind, ret; simpl. by case_decide.
Qed.

Lemma analyze_id_declared x a :
  Some x ∈ symbols a → analyze (leaf "id" x) a = Ok (tt, a).
Proof.
  intros Hx. unfold leaf. cbn [analyze map option_map].
  cbv beta iota delta [dispatch String.eqb Ascii.eqb Bool.eqb].
  unfold visit_id, get_symbols, bind, ret. by rewrite decide_True.
Qed.

Lemma analyze_opaque v a : analyze (Node "stmt" v []) a = Ok (tt, a).
Proof. done. Qed.

Lemma diagnostics_main_program body :
  diagnostics (main_program body) =
  match analyze_all body init with
  | Ok (_, a) => Ok (errors a)
  | Raise e => Raise e
  | OutOfFuel => OutOfFuel
  end.
Proof. unfold diagnostics. by rewrite analyze_main_program. Qed.





End SemanticProps.

(** ** Tokenizer *)

Module LexerProps.
Import Lexer.

Lemma starts_with_app w l : starts_with w l = true ↔ ∃ tail, l = w ++ tail.
Proof.
  revert l. induction w as [|a w IH]; intros l; simpl.
  - split; [by exists l|done].
  - destruct l as [|b l]; simpl.
    + split; [done|]. by intros [tail ?].
    + rewrite andb_true_iff, IH.
      split.
      * intros [Hab [tail ->]]. apply Ascii.eqb_eq in Hab as ->. by exists tail.
      * intros [tail [= -> ->]]. split; [apply Ascii.eqb_refl|by exists tail].
Qed.

Lemma span_app_all p w tail :
  Forall (λ c, p c = true) w → span p (w ++ tail) = length w + span p tail.
Proof. induction 1 as [|c w Hc _ IH]; simpl; [done|]. by rewrite Hc, IH. Qed.

Lemma span_le p l : span p l ≤ length l.
Proof. induction l as [|c l IH]; simpl; [lia|]. destruct (p c); lia. Qed.

Lemma span_zero_head p l :
  span p l = 0 ↔ match head l with Some c => p c = false | None => True end.
Proof.
  destruct l as [|c l]; simpl; [done|].
  destruct (p c); split; (done || lia).
Qed.

Lemma take_span_all p l : Forall (λ c, p c = true) (take (span p l) l).
Proof.
  induction l as [|c l IH]; simpl; [constructor|].
  destruct (p c) eqn:Hc; simpl; [by constructor|constructor].
Qed.

(** A word of identifier characters matches [\bword\b] exactly where it
    is the whole run of identifier characters and no word character
    stands before it. *)
Lemma keyword_matches word before rest :
  let w := list_ascii_of_string word in
  w ≠ [] → Forall (λ c, is_ident_char c = true) w →
  keyword word before rest
  = if bool_decide (take (span is_ident_char rest) rest = w)
       && negb (is_word_opt before)
    then Some (length w) else None.
Proof.
  intros w Hne Hw. unfold keyword. fold w.
  destruct (starts_with w rest) eqn:Hstart.
  - apply starts_with_app in Hstart as [tail ->].
    rewrite drop_app_length, span_app_all by done.
    rewrite take_app_ge, Nat.add_comm, Nat.add_sub by lia.
    assert (Hhead : head (w ++ tail) = head w) by (by destruct w).
    assert (Hwordy : ∀ c, c ∈ w → is_word c = true).
    { intros c Hc. by apply (proj1 (Forall_forall _ _) Hw). }
    assert (Hfirst : is_word_opt (head w) = true).
    { destruct w as [|c w']; [done|]. apply Hwordy. by left. }
    assert (Hlast : is_word_opt (last w) = true).
    { destruct (last w) as [c|] eqn:Hl; [|by apply last_None in Hl].
      apply Hwordy. apply last_Some in Hl as [w' ->].
      apply elem_of_app. right. by left. }
    unfold at_boundary. rewrite Hhead, Hfirst, Hlast.
    rewrite andb_true_r.
    destruct (span is_ident_char tail) as [|k] eqn:Hspan.
    + rewrite take_0, app_nil_r, bool_decide_eq_true_2 by done.
      apply span_zero_head in Hspan.
      assert (is_word_opt (head tail) = false) as ->
        by (by destruct (head tail)).
      simpl. by destruct (is_word_opt before).
    + rewrite bool_decide_eq_false_2.
      2:{ intros Heq. apply (f_equal length) in Heq.
          rewrite length_app, length_take in Heq.
          pose proof (span_le is_ident_char tail). lia. }
      assert (is_word_opt (head tail) = true) as ->.
      { destruct tail as [|c tail]; [done|]. simpl in *.
        by destruct (is_ident_char c) eqn:Hc. }
      simpl. by rewrite andb_false_r.
  - rewrite andb_false_r. simpl.
    rewrite bool_decide_eq_false_2; [done|].
    intros Heq. assert (starts_with w rest = true); [|congruence].
    apply starts_with_app. exists (drop (span is_ident_char rest) rest).
    by rewrite <- Heq, take_drop.
Qed.

Lemma ident_start_char c : is_ident_start c = true → is_ident_char c = true.
Proof.
  unfold is_ident_start, is_ident_char.
  destruct (is_letter c), (is_digit c), (Ascii.eqb c "_"); done.
Qed.

(** Where the scanner stands at the first character of a word, the
    token is the whole word; it is a keyword token when the word is a
    keyword and no word character stands before it, and an identifier
    otherwise. *)
Lemma get_token_word code pos c :
  code !! pos = Some c → is_ident_start c = true →
  get_token code pos
  = Some (if is_word_opt (char_before code pos) then ID
          else word_kind (word_at code pos),
          length (word_at code pos)).
Proof.
  intros Hc Hstart. unfold get_token, word_at. cbv zeta.
  set (before := char_before code pos).
  assert (Hrest : drop pos code = c :: drop (S pos) code) by (by apply drop_S).
  set (rest := drop pos code) in *.
  set (w := take (span is_ident_char rest) rest).
  assert (Hident : identifier before rest = Some (length w)).
  { unfold w. rewrite Hrest. simpl. rewrite Hstart.
    rewrite (ident_start_char _ Hstart). simpl.
    rewrite length_take. pose proof (span_le is_ident_char (drop (S pos) code)).
    f_equal. lia. }
  unfold token_specification. cbn [first_match].
  rewrite !keyword_matches by (done || by repeat constructor).
  fold w. clearbody w. destruct (is_word_opt before); simpl.
  - rewrite !andb_false_r. by rewrite Hident.
  - rewrite !andb_true_r. unfold word_kind, keywords.
    cbn [find snd list_ascii_of_string].
    repeat (case_bool_decide; [by simplify_eq|]).
    by rewrite Hident.
Qed.

Lemma length_list_ascii_of_string s :
  length (list_ascii_of_string s) = String.length s.
Proof. induction s as [|c s IH]; simpl; [done|]. by rewrite IH. Qed.

Lemma word_at_head code pos c w :
  word_at code pos = c :: w → code !! pos = Some c ∧ is_ident_char c = true.
Proof.
  unfold word_at. intros Hw.
  destruct (drop pos code) as [|c' rest] eqn:Hdrop; [by rewrite take_nil in Hw|].
  simpl in Hw. destruct (is_ident_char c') eqn:Hc'; [|done].
  injection Hw as -> _. split; [|done].
  rewrite <- (Nat.add_0_r pos), <- lookup_drop. by rewrite Hdrop.
Qed.

Lemma word_at_matched code pos :
  matched code pos (length (word_at code pos))
  = string_of_list_ascii (word_at code pos).
Proof.
  unfold matched, word_at. f_equal.
  rewrite length_take.
  pose proof (span_le is_ident_char (drop pos code)).
  f_equal. lia.
Qed.

Lemma word_kind_keyword k kw :
  (k, kw) ∈ keywords → word_kind (list_ascii_of_string kw) = k.
Proof.
  unfold keywords. intros Hin.
  repeat (apply elem_of_cons in Hin as [Hin|Hin]; [by simplify_eq|]).
  by apply elem_of_nil in Hin.
Qed.

Lemma word_kind_other w :
  (∀ k kw, (k, kw) ∈ keywords → w ≠ list_ascii_of_string kw) →
  word_kind w = ID.
Proof.
  intros Hw. unfold word_kind.
  destruct (find _ keywords) as [[k kw]|] eqn:Hfind; [|done].
  apply find_some in Hfind as [Hin Heq].
  apply bool_decide_eq_true in Heq. simpl in Heq.
  destruct (Hw k kw); [|done]. by apply list_elem_of_In.
Qed.

Lemma keyword_starts_word k kw :
  (k, kw) ∈ keywords →
  ∃ c w, list_ascii_of_string kw = c :: w ∧ is_ident_start c = true
         ∧ k ≠ SKIP ∧ k ≠ MISMATCH ∧ k ≠ ID.
Proof.
  unfold keywords. intros Hin.
  repeat (apply elem_of_cons in Hin as [Hin|Hin];
          [simplify_eq; by eexists _, _|]).
  by apply elem_of_nil in Hin.
Qed.

(** The scanner, standing at [pos], appends [tok] and moves on by
    [len] characters. *)
Definition emits (code : list ascii) (pos : nat) (tok : token) (len : nat)
  : Prop :=
  ∀ n tokens,
    lexer_loop (S n) code pos tokens
    = lexer_loop n code (pos + len) (tokens ++ [tok]).

Lemma lexer_loop_emits code pos k len :
  get_token code pos = Some (k, len) → k ≠ SKIP → k ≠ MISMATCH →
  emits code pos (mkToken k (Some (matched code pos len))) len.
Proof.
  intros Hget Hskip Hmis n tokens. cbn [lexer_loop]. rewrite Hget.
  by rewrite !decide_False.
Qed.



(** *** The fuel given by [lexer] is enough *)

(** Nothing matches at the end of the text. *)
Lemma get_token_at_end before :
  first_match token_specification before [] = None.
Proof.
  unfold token_specification, first_match, keyword, at_boundary.
  cbn. by destruct (is_word_opt before).
Qed.

Lemma keyword_length word before rest len :
  keyword word before rest = Some len →
  len = length (list_ascii_of_string word).
Proof. unfold keyword. case_match; by intros [= <-]. Qed.

Lemma until_quote_length rest k len :
  until_quote rest k = Some len → k < len.
Proof.
  revert k. induction rest as [|c rest IH]; intros k; [done|].
  cbn [until_quote]. repeat case_match; [intros [= <-]; lia|done|].
  intros Hrun. apply IH in Hrun. lia.
Qed.

(** Every alternative of the regex matches at least one character. *)
Lemma first_match_consumes before rest k len :
  first_match token_specification before rest = Some (k, len) → 0 < len.
Proof.
  unfold token_specification, first_match.
  repeat (destruct (keyword _ before rest) as [?|] eqn:Hkw;
          [apply keyword_length in Hkw; cbn in Hkw; intros [= <- <-]; lia
          |clear Hkw]).
  unfold identifier, number, string_literal, operator, single, whitespace,
    any_char.
  repeat case_match; try done; try (intros [= <- <-]; lia).
  all: intros [= <- <-]; simplify_eq.
  all: try lia.
  all: match goal with H : until_quote _ _ = Some _ |- _ =>
         apply until_quote_length in H; lia end.
Qed.

Lemma get_token_inside code pos k len :
  get_token code pos = Some (k, len) → pos < length code ∧ 0 < len.
Proof.
  unfold get_token. intros Hrun. split; [|by eapply first_match_consumes].
  destruct (decide (pos < length code)); [done|].
  rewrite drop_ge, get_token_at_end in Hrun by lia. done.
Qed.

Lemma lexer_loop_answers n code pos tokens :
  length code - pos ≤ n → lexer_loop n code pos tokens ≠ OutOfFuel.
Proof.
  revert pos tokens. induction n as [|n IH]; intros pos tokens Hn.
  - cbn [lexer_loop]. destruct (get_token code pos) as [[typ len]|] eqn:Hget;
      [|done].
    apply get_token_inside in Hget. lia.
  - cbn [lexer_loop]. destruct (get_token code pos) as [[typ len]|] eqn:Hget;
      [|done].
    apply get_token_inside in Hget.
    repeat case_decide; [apply IH; lia|done|apply IH; lia].
Qed.

(** [lexer] always answers: with the tokens or with its error. *)
Lemma lexer_answers code : lexer code ≠ OutOfFuel.
Proof. unfold lexer. apply lexer_loop_answers. lia. Qed.

End LexerProps.

(** ** Parser *)

Module ParserProps.
Import Parser.

Lemma token_at_app ts extra i :
  i < length ts → token_at (ts ++ extra) i = token_at ts i.
Proof. intros Hi. unfold token_at. by rewrite lookup_app_l. Qed.

Lemma token_at_ge ts i : length ts ≤ i → token_at ts i = EOF_token.
Proof. intros Hi. unfold token_at. by rewrite lookup_ge_None_2. Qed.

Lemma token_at_not_eof ts i : ttype (token_at ts i) ≠ EOF → i < length ts.
Proof.
  intros Hne. destruct (decide (i < length ts)); [done|].
  rewrite token_at_ge in Hne by lia. done.
Qed.

(** *** Tokens after the parsed ones do not matter

    [m] runs on [ts] and [m'] on [ts ++ extra]. *)
Section Extension.

Variables ts extra : list token.

(** Whatever [m] returns before the end of [ts], [m'] returns too. *)
Definition ext_ok {A} (m m' : M nat A) : Prop :=
  ∀ pos a pos', m pos = Ok (a, pos') →
    pos ≤ pos' ∧ (pos' < length ts → m' pos = Ok (a, pos')).

(** Whatever [m] returns, [m'] returns too. *)
Definition ext_strong {A} (m m' : M nat A) : Prop :=
  ∀ pos a pos', m pos = Ok (a, pos') → pos ≤ pos' ∧ m' pos = Ok (a, pos').

(** [m] returns only where a token is left. *)
Definition needs_token {A} (m : M nat A) : Prop :=
  ∀ pos a pos', m pos = Ok (a, pos') → pos < length ts.

Lemma ext_strong_ok {A} (m m' : M nat A) : ext_strong m m' → ext_ok m m'.
Proof. intros H pos a pos' Hm. destruct (H _ _ _ Hm). auto. Qed.

Lemma ext_ok_ret {A} (a : A) : ext_strong (ret a) (ret a).
Proof. intros pos b pos' [= <- <-]. auto. Qed.

Lemma ext_ok_raise {A} e : ext_strong (raise e : M nat A) (raise e).
Proof. by intros pos b pos'. Qed.

Lemma ext_ok_bind {A B} (m m' : M nat A) (k k' : A → M nat B) :
  ext_ok m m' → (∀ a, ext_ok (k a) (k' a)) → ext_ok (bind m k) (bind m' k').
Proof.
  intros Hm Hk pos b pos'' Hrun.
  apply bind_inv_ok in Hrun as (a & pos' & Hrun1 & Hrun2).
  destruct (Hm _ _ _ Hrun1) as [Hle1 H1], (Hk a _ _ _ Hrun2) as [Hle2 H2].
  split; [lia|]. intros Hlt. unfold bind. rewrite H1 by lia. auto.
Qed.

Lemma ext_strong_bind {A B} (m m' : M nat A) (k k' : A → M nat B) :
  ext_strong m m' → (∀ a, ext_strong (k a) (k' a)) →
  ext_strong (bind m k) (bind m' k').
Proof.
  intros Hm Hk pos b pos'' Hrun.
  apply bind_inv_ok in Hrun as (a & pos' & Hrun1 & Hrun2).
  destruct (Hm _ _ _ Hrun1) as [Hle1 H1], (Hk a _ _ _ Hrun2) as [Hle2 H2].
  split; [lia|]. unfold bind. by rewrite H1.
Qed.

(** A method that ends by consuming a token does not depend on what
    follows. *)
Lemma ext_ok_then_strong {A B} (m m' : M nat A) (k k' : A → M nat B) :
  ext_ok m m' → (∀ a, ext_strong (k a) (k' a)) → (∀ a, needs_token (k a)) →
  ext_strong (bind m k) (bind m' k').
Proof.
  intros Hm Hk Hneed pos b pos'' Hrun.
  apply bind_inv_ok in Hrun as (a & pos' & Hrun1 & Hrun2).
  destruct (Hm _ _ _ Hrun1) as [Hle1 H1], (Hk a _ _ _ Hrun2) as [Hle2 H2].
  split; [lia|]. unfold bind. rewrite H1 by (by eapply Hneed). done.
Qed.

Lemma ext_ok_current : ext_ok (current ts) (current (ts ++ extra)).
Proof.
  intros pos a pos' [= <- <-]. split; [done|]. intros Hlt.
  unfold current. by rewrite token_at_app.
Qed.

Lemma ext_ok_lift {A} (r : result A) : ext_strong (lift r) (lift r).
Proof. intros pos a pos'. unfold lift. destruct r; [|done..]. intros [= <- <-]. auto. Qed.

Lemma ext_ok_advance : ext_ok advance advance.
Proof. intros pos [] pos' [= <-]. split; [lia|done]. Qed.

Lemma eat_inv tokens k pos tok pos' :
  eat tokens k pos = Ok (tok, pos') →
  tok = token_at tokens pos ∧ ttype tok = k ∧ pos' = S pos.
Proof.
  unfold eat, bind, current, advance, modify, ret, raise.
  case_decide; [|done]. by intros [= <- <-].
Qed.

Lemma eat_ok tokens k pos :
  ttype (token_at tokens pos) = k →
  eat tokens k pos = Ok (token_at tokens pos, S pos).
Proof.
  intros Hk. unfold eat, bind, current, advance, modify, ret.
  by rewrite decide_True.
Qed.

Lemma ext_strong_eat k : k ≠ EOF → ext_strong (eat ts k) (eat (ts ++ extra) k).
Proof.
  intros Hk pos tok pos' Heat.
  apply eat_inv in Heat as (-> & Hty & ->). split; [lia|].
  assert (pos < length ts) by (apply token_at_not_eof; congruence).
  rewrite <- (token_at_app ts extra) by done.
  apply eat_ok. by rewrite token_at_app.
Qed.

Lemma needs_token_eat {B} k (f : token → M nat B) :
  k ≠ EOF → needs_token (bind (eat ts k) f).
Proof.
  intros Hk pos b pos' Hrun.
  apply bind_inv_ok in Hrun as (tok & pos1 & Heat & _).
  apply eat_inv in Heat as (-> & Hty & ->).
  apply token_at_not_eof. congruence.
Qed.

(** The same, at one position. *)
Definition ext_at {A} (pos : nat) (m m' : M nat A) : Prop :=
  ∀ a pos', m pos = Ok (a, pos') →
    pos ≤ pos' ∧ (pos' < length ts → m' pos = Ok (a, pos')).

Lemma ext_ok_at {A} (m m' : M nat A) pos : ext_ok m m' → ext_at pos m m'.
Proof. intros H a pos'. apply H. Qed.

(** After [self.current()] the token at hand is known. *)
Lemma ext_ok_on_current {A} (k k' : token → M nat A) :
  (∀ pos, ext_at pos (k (token_at ts pos)) (k' (token_at ts pos))) →
  ext_ok (bind (current ts) k) (bind (current (ts ++ extra)) k').
Proof.
  intros Hk pos a pos' Hrun. unfold bind, current in *.
  destruct (Hk pos _ _ Hrun) as [Hle H']. split; [done|].
  intros Hlt. rewrite token_at_app by lia. auto.
Qed.

Lemma ext_ok_while {A} test (step step' : A → M nat A) n n' acc :
  n ≤ n' → (∀ acc, ext_ok (step acc) (step' acc)) →
  ext_ok (while_current ts n test step acc)
         (while_current (ts ++ extra) n' test step' acc).
Proof.
  intros Hn Hstep. revert n' Hn acc.
  induction n as [|n IH]; intros n' Hn acc pos r pos' Hrun.
  - cbn [while_current] in *. unfold bind, current in *.
    destruct (test (token_at ts pos)) eqn:Htest; [done|].
    injection Hrun as <- <-. split; [done|]. intros Hlt.
    destruct n'; cbn [while_current]; unfold bind, current;
      by rewrite token_at_app, Htest.
  - destruct n' as [|n']; [lia|]. cbn [while_current] in *.
    unfold bind at 1, current in Hrun. unfold bind at 1, current.
    destruct (test (token_at ts pos)) eqn:Htest.
    + apply bind_inv_ok in Hrun as (acc1 & pos1 & Hrun1 & Hrun2).
      destruct (Hstep _ _ _ _ Hrun1) as [Hle1 H1].
      destruct (IH n' ltac:(lia) _ _ _ _ Hrun2) as [Hle2 H2].
      split; [lia|]. intros Hlt.
      rewrite token_at_app, Htest by lia.
      unfold bind. rewrite H1 by lia. auto.
    + injection Hrun as <- <-. split; [done|]. intros Hlt.
      by rewrite token_at_app, Htest.
Qed.

Lemma length_le_app : length ts ≤ length (ts ++ extra).
Proof. rewrite length_app. lia. Qed.

Ltac ext_auto :=
  repeat first
    [ assumption
    | apply ext_strong_ok, ext_strong_eat; done
    | apply ext_ok_current
    | apply ext_ok_advance
    | apply ext_ok_bind; [|intros ?]
    | apply ext_strong_ok, ext_ok_ret
    | apply ext_strong_ok, ext_ok_raise
    | apply ext_strong_ok, ext_ok_lift
    | apply ext_ok_while; [apply length_le_app|intros ?]
    | case_decide
    | case_match ].

Section Rules.

Variables expr expr' : M nat ASTNode.
Hypothesis Hexpr : ext_ok expr expr'.

Lemma ext_ok_factor : ext_ok (factor ts expr) (factor (ts ++ extra) expr').
Proof. unfold factor. ext_auto. Qed.

Lemma ext_ok_binary_step kind (operand operand' : M nat ASTNode) node :
  ext_ok operand operand' →
  ext_ok (binary_step ts kind operand node)
         (binary_step (ts ++ extra) kind operand' node).
Proof. intros. unfold binary_step. ext_auto. Qed.

Lemma ext_ok_term : ext_ok (term ts expr) (term (ts ++ extra) expr').
Proof.
  unfold term. ext_auto.
Qed.

Lemma ext_ok_arith_expr :
  ext_ok (arith_expr ts expr) (arith_expr (ts ++ extra) expr').
Proof.
  unfold arith_expr. ext_auto.
Qed.

Lemma ext_ok_expr_body :
  ext_ok (expr_body ts expr) (expr_body (ts ++ extra) expr').
Proof. unfold expr_body. ext_auto. Qed.

Lemma ext_ok_type_spec : ext_ok (type_spec ts) (type_spec (ts ++ extra)).
Proof. unfold type_spec. ext_auto. Qed.

Lemma ext_ok_var_decl : ext_ok (var_decl ts expr) (var_decl (ts ++ extra) expr').
Proof. unfold var_decl. ext_auto. Qed.

Lemma ext_ok_assign_stmt :
  ext_ok (assign_stmt ts expr) (assign_stmt (ts ++ extra) expr').
Proof. unfold assign_stmt. ext_auto. Qed.

Lemma ext_ok_assign_expr :
  ext_ok (assign_expr ts expr) (assign_expr (ts ++ extra) expr').
Proof. unfold assign_expr. ext_auto. Qed.

Lemma ext_ok_return_stmt :
  ext_ok (return_stmt ts expr) (return_stmt (ts ++ extra) expr').
Proof. unfold return_stmt. ext_auto. Qed.

Lemma ext_ok_gather_step acc :
  ext_ok (gather_step ts acc) (gather_step (ts ++ extra) acc).
Proof.
  unfold gather_step. ext_auto.
Qed.

Lemma ext_ok_generic_stmt :
  ext_ok (generic_stmt ts) (generic_stmt (ts ++ extra)).
Proof. unfold generic_stmt. ext_auto. Qed.

(** A generic statement consumes the identifier it starts at. *)
Lemma generic_stmt_advances pos a pos' :
  ttype (token_at ts pos) = ID →
  generic_stmt ts pos = Ok (a, pos') → pos < pos'.
Proof.
  intros Hid Hrun. unfold generic_stmt in Hrun.
  apply bind_inv_ok in Hrun as (texts & pos1 & Hloop & Hrest).
  assert (pos1 ≤ pos').
  { apply bind_inv_ok in Hrest as (cur & ? & [= <- <-] & Hrest).
    apply bind_inv_ok in Hrest as (texts' & pos2 & Hsemi & Hrest).
    apply bind_inv_ok in Hrest as (joined & pos3 & Hjoin & [= <- <-]).
    assert (pos3 = pos2) as ->.
    { unfold lift in Hjoin. by destruct (join_values _ _); simplify_eq. }
    case_decide; [|by injection Hsemi as <- <-].
    apply bind_inv_ok in Hsemi as (semi & pos4 & Heat & [= <- <-]).
    apply eat_inv in Heat as (_ & _ & ->). lia. }
  enough (pos < pos1) by lia. clear Hrest.
  assert (Htest : not_semi_nor_eof (token_at ts pos) = true).
  { unfold not_semi_nor_eof. rewrite Hid. done. }
  destruct (length ts) as [|n]; cbn [while_current] in Hloop;
    unfold bind at 1, current in Hloop; rewrite Htest in Hloop; [done|].
  apply bind_inv_ok in Hloop as (acc1 & pos2 & Hstep & Hloop).
  assert (pos2 = S pos) as -> by (by injection Hstep).
  enough (S pos ≤ pos1) by lia.
  eapply (ext_ok_while _ _ _ _ _ _ (le_n _) ext_ok_gather_step), Hloop.
Qed.

Lemma assign_stmt_advances pos a pos' :
  assign_stmt ts expr pos = Ok (a, pos') → pos < pos'.
Proof.
  intros Hrun. unfold assign_stmt in Hrun.
  apply bind_inv_ok in Hrun as (tok & pos1 & Heat & Hrest).
  apply eat_inv in Heat as (_ & _ & ->).
  enough (S pos ≤ pos') by lia.
  apply bind_inv_ok in Hrest as (op & pos1 & Heat & Hrest).
  apply eat_inv in Heat as (_ & _ & ->).
  apply bind_inv_ok in Hrest as (rhs & pos2 & Hrhs & Hrest).
  apply Hexpr in Hrhs as [Hle _].
  apply bind_inv_ok in Hrest as (semi & pos3 & Heat & [= <- <-]).
  apply eat_inv in Heat as (_ & _ & ->). lia.
Qed.

Section Statements.

Variables stmt stmt' compound_stmt compound_stmt' : M nat ASTNode.
Hypothesis Hstmt : ext_ok stmt stmt'.
Hypothesis Hcompound : ext_ok compound_stmt compound_stmt'.

Lemma ext_ok_body :
  ext_ok (body ts stmt compound_stmt) (body (ts ++ extra) stmt' compound_stmt').
Proof. unfold body. ext_auto. Qed.

Lemma ext_ok_if_stmt :
  ext_ok (if_stmt ts expr stmt compound_stmt)
         (if_stmt (ts ++ extra) expr' stmt' compound_stmt').
Proof. unfold if_stmt, body. ext_auto. Qed.

Lemma ext_ok_while_stmt :
  ext_ok (while_stmt ts expr stmt compound_stmt)
         (while_stmt (ts ++ extra) expr' stmt' compound_stmt').
Proof. unfold while_stmt, body. ext_auto. Qed.

Lemma ext_ok_for_stmt :
  ext_ok (for_stmt ts expr stmt compound_stmt)
         (for_stmt (ts ++ extra) expr' stmt' compound_stmt').
Proof. unfold for_stmt, body. ext_auto. Qed.

Lemma ext_ok_do_while_stmt :
  ext_ok (do_while_stmt ts expr stmt compound_stmt)
         (do_while_stmt (ts ++ extra) expr' stmt' compound_stmt').
Proof. unfold do_while_stmt, body. ext_auto. Qed.

Lemma ext_ok_stmt_body :
  ext_ok (stmt_body ts expr stmt compound_stmt)
         (stmt_body (ts ++ extra) expr' stmt' compound_stmt').
Proof.
  unfold stmt_body. apply ext_ok_on_current. intros pos.
  destruct (decide (ttype (token_at ts pos) = INT)).
  { apply ext_ok_at, ext_ok_var_decl. }
  destruct (decide (ttype (token_at ts pos) = ID)) as [Hid|].
  { (* the identifier case looks at the next token too *)
    intros a pos' Hrun. unfold bind at 1, next_token in Hrun.
    unfold bind at 1, next_token.
    destruct (is_assign_op (token_at ts (pos + 1))) eqn:Hnext.
    - pose proof (assign_stmt_advances _ _ _ Hrun).
      destruct (ext_ok_assign_stmt _ _ _ Hrun) as [Hle H']. split; [done|].
      intros Hlt. rewrite token_at_app, Hnext by lia. auto.
    - pose proof (generic_stmt_advances _ _ _ Hid Hrun).
      destruct (ext_ok_generic_stmt _ _ _ Hrun) as [Hle H']. split; [done|].
      intros Hlt. rewrite token_at_app, Hnext by lia. auto. }
  apply ext_ok_at.
  repeat (case_decide;
    [first [apply ext_ok_if_stmt | apply ext_ok_return_stmt
           | apply ext_ok_while_stmt | apply ext_ok_for_stmt
           | apply ext_ok_do_while_stmt]|]).
  apply ext_strong_ok, ext_ok_raise.
Qed.

End Statements.

Lemma ext_strong_compound_stmt_body (stmt stmt' : M nat ASTNode) :
  ext_ok stmt stmt' →
  ext_strong (compound_stmt_body ts stmt) (compound_stmt_body (ts ++ extra) stmt').
Proof.
  intros Hstmt. unfold compound_stmt_body.
  apply ext_strong_bind; [by apply ext_strong_eat|]. intros _.
  apply ext_ok_then_strong.
  - apply ext_ok_while; [apply length_le_app|]. intros acc. ext_auto.
  - intros stmts. apply ext_strong_bind; [by apply ext_strong_eat|].
    intros _. apply ext_ok_ret.
  - intros stmts. by apply needs_token_eat.
Qed.

End Rules.

Lemma ext_ok_expr fuel fuel' :
  fuel ≤ fuel' → ext_ok (expr ts fuel) (expr (ts ++ extra) fuel').
Proof.
  revert fuel'. induction fuel as [|fuel IH]; intros fuel' Hle; [done|].
  destruct fuel' as [|fuel']; [lia|].
  cbn [expr]. apply ext_ok_expr_body, IH. lia.
Qed.

Lemma ext_ok_stmt fuel fuel' :
  fuel ≤ fuel' → ext_ok (stmt ts fuel) (stmt (ts ++ extra) fuel').
Proof.
  revert fuel'. induction fuel as [|fuel IH]; intros fuel' Hle; [done|].
  destruct fuel' as [|fuel']; [lia|].
  cbn [stmt]. apply ext_ok_stmt_body.
  - apply ext_ok_expr. lia.
  - apply IH. lia.
  - apply ext_strong_ok, ext_strong_compound_stmt_body, IH. lia.
Qed.

Lemma ext_strong_compound_stmt fuel fuel' :
  fuel ≤ fuel' →
  ext_strong (compound_stmt ts fuel) (compound_stmt (ts ++ extra) fuel').
Proof.
  intros Hle. apply ext_strong_compound_stmt_body. by apply ext_ok_stmt.
Qed.

Lemma ext_strong_program fuel fuel' :
  fuel ≤ fuel' → ext_strong (program ts fuel) (program (ts ++ extra) fuel').
Proof.
  intros Hle. unfold program, function, type_spec.
  repeat first
    [ apply ext_ok_ret
    | by apply ext_strong_eat
    | by apply ext_strong_compound_stmt
    | apply ext_strong_bind; [|intros ?] ].
Qed.

End Extension.

Ltac inv_run :=
  repeat match goal with
         | H : bind _ _ _ = Ok _ |- _ =>
             apply bind_inv_ok in H as (? & ? & ? & ?)
         | H : ret _ _ = Ok _ |- _ => injection H as ? ?
         | H : eat _ _ _ = Ok _ |- _ => apply eat_inv in H as (? & ? & ?)
         end.

Lemma program_stops_inside ts fuel ast pos :
  program ts fuel 0 = Ok (ast, pos) → pos ≤ length ts.
Proof.
  intros Hrun.
  unfold program, function, compound_stmt, compound_stmt_body, type_spec in Hrun.
  inv_run. subst.
  match goal with
  | H : ttype (token_at ts ?p) = RBRACE |- _ =>
      assert (p < length ts) by (apply token_at_not_eof; congruence)
  end.
  lia.
Qed.

(** C8. [parse] stops at the closing brace of the function and never
    asks whether the tokens are used up: what it returns on [ts], it
    returns on [ts] followed by any tokens [extra], having stopped at
    the same position inside [ts]. *)
Theorem trailing_tokens_are_ignored ts extra ast pos :
  parse_from ts = Ok (ast, pos) →
  pos ≤ length ts
  ∧ parse_from (ts ++ extra) = Ok (ast, pos)
  ∧ parse (ts ++ extra) = Ok ast.
Proof.
  unfold parse, parse_from. intros Hrun.
  split; [by eapply program_stops_inside|].
  destruct (ext_strong_program ts extra (length ts) (length (ts ++ extra))
              (length_le_app ts extra) _ _ _ Hrun) as [_ ->].
  done.
Qed.

Lemma trailing_tokens_witness :
  let ts :=
    [mkToken INT (Some "int"); mkToken MAIN (Some "main");
     mkToken LPAREN (Some "("); mkToken RPAREN (Some ")");
     mkToken LBRACE (Some "{"); mkToken RBRACE (Some "}")] in
  let extra := [mkToken INT (Some "int"); mkToken ID (Some "f")] in
  parse_from ts = Ok (main_program [], 6)
  ∧ 6 ≤ length ts
  ∧ parse_from (ts ++ extra) = Ok (main_program [], 6)
  ∧ parse (ts ++ extra) = Ok (main_program []).
Proof.
  intros ts extra. split; [reflexivity|].
  apply (trailing_tokens_are_ignored ts extra (main_program []) 6).
  reflexivity.
Defined.

(** *** Statements that start with an identifier *)

Lemma span_while_le p l : span_while p l ≤ length l.
Proof. induction l as [|t l IH]; simpl; [lia|]. case_match; lia. Qed.

Lemma drop_token_at ts pos :
  pos < length ts → drop pos ts = token_at ts pos :: drop (S pos) ts.
Proof.
  intros Hlt. unfold token_at.
  destruct (lookup_lt_is_Some_2 ts pos Hlt) as [t Ht]. rewrite Ht. simpl.
  by apply drop_S.
Qed.

(** The gathering loop takes the tokens up to the next semicolon or end
    marker. *)
Lemma gather_loop ts n acc pos :
  length ts - pos ≤ n →
  let k := span_while not_semi_nor_eof (drop pos ts) in
  while_current ts n not_semi_nor_eof (gather_step ts) acc pos
  = Ok (acc ++ map tvalue (take k (drop pos ts)), pos + k).
Proof.
  revert acc pos. induction n as [|n IH]; intros acc pos Hn k; subst k.
  - rewrite drop_ge by lia. simpl. unfold bind, current.
    rewrite token_at_ge by lia. simpl. unfold ret.
    by rewrite app_nil_r, Nat.add_0_r.
  - destruct (decide (pos < length ts)) as [Hlt|Hge].
    + rewrite (drop_token_at ts pos Hlt). cbn [while_current span_while].
      unfold bind at 1, current.
      destruct (not_semi_nor_eof (token_at ts pos)) eqn:Htest.
      * unfold bind at 1, gather_step, bind, current, advance, modify, ret.
        fold (current ts). rewrite IH by lia. cbn [take map].
        by rewrite <- app_assoc, Nat.add_succ_r.
      * unfold ret. simpl. by rewrite app_nil_r, Nat.add_0_r.
    + rewrite drop_ge by lia. cbn [while_current span_while].
      unfold bind, current. rewrite token_at_ge by lia. simpl. unfold ret.
      by rewrite app_nil_r, Nat.add_0_r.
Qed.

Lemma generic_stmt_eq ts pos :
  generic_stmt ts pos
  = match join_values " " (map tvalue (statement_tokens ts pos)) with
    | Ok text =>
        Ok (Node "stmt" (Some (strip text)) [],
            pos + length (statement_tokens ts pos))
    | Raise e => Raise e
    | OutOfFuel => OutOfFuel
    end.
Proof.
  unfold generic_stmt, statement_tokens. unfold bind at 1.
  rewrite gather_loop by lia. cbn [app].
  set (k := span_while not_semi_nor_eof (drop pos ts)).
  assert (Hk : k ≤ length (drop pos ts)) by apply span_while_le.
  rewrite length_drop in Hk.
  unfold bind at 1, current.
  destruct (decide (ttype (token_at ts (pos + k)) = SEMI)) as [Hsemi|Hsemi].
  - assert (Hlt : pos + k < length ts) by (apply token_at_not_eof; congruence).
    unfold bind at 1. unfold bind at 1. rewrite eat_ok by done.
    unfold ret at 1.
    assert (Htake : take (S k) (drop pos ts)
                    = take k (drop pos ts) ++ [token_at ts (pos + k)]).
    { apply take_S_r. rewrite lookup_drop. unfold token_at.
      by destruct (lookup_lt_is_Some_2 ts (pos + k) Hlt) as [t ->]. }
    rewrite Htake, map_app, length_app, length_take. cbn [map length].
    rewrite length_drop.
    unfold bind, lift, ret.
    destruct (join_values _ _); [|done..].
    do 3 f_equal. lia.
  - unfold bind at 1, ret at 1. rewrite length_take, length_drop.
    unfold bind, lift, ret.
    destruct (join_values _ _); [|done..].
    do 3 f_equal. lia.
Qed.

Lemma join_values_strings sep texts :
  join_values sep (map Some texts) = Ok (String.concat sep texts).
Proof.
  induction texts as [|t [|t' texts] IH]; [done..|].
  change (map Some (t :: t' :: texts)) with (Some t :: map Some (t' :: texts)).
  cbn [join_values]. cbn [map] in IH. cbn [map]. by rewrite IH.
Qed.

Lemma stmt_at_identifier ts pos fuel :
  ttype (token_at ts pos) = ID →
  stmt ts (S fuel) pos
  = if is_assign_op (token_at ts (pos + 1))
    then assign_stmt ts (expr ts (S fuel)) pos
    else generic_stmt ts pos.
Proof.
  intros Hid. cbn [stmt]. unfold stmt_body.
  unfold bind at 1, current. rewrite Hid.
  rewrite decide_False, decide_True by done.
  unfold bind at 1, next_token.
  by destruct (is_assign_op (token_at ts (pos + 1))).
Qed.

(** C5, as stated, fails: the payload of the generic statement built
    from the tokens of [cin >> x;] is the token texts joined by single
    spaces, not their concatenation. *)
Lemma generic_payload_is_not_the_concatenation :
  let ts :=
    [mkToken ID (Some "cin"); mkToken OP (Some ">>");
     mkToken ID (Some "x"); mkToken SEMI (Some ";")] in
  stmt ts 1 0 = Ok (Node "stmt" (Some "cin >> x ;") [], 4)
  ∧ stmt ts 1 0
    ≠ Ok (Node "stmt" (Some (String.concat "" ["cin"; ">>"; "x"; ";"])) [], 4).
Proof. intros ts. split; [reflexivity|]. by vm_compute. Qed.

(** C5, amended. At a statement that starts with an identifier the
    parser looks exactly one token ahead.  If that token is the operator
    [=], the statement is parsed as an assignment.  Otherwise the parser
    builds a generic statement node without children, whose payload is
    the texts of the tokens from the identifier up to and including the
    next semicolon (up to the end of the tokens when there is none),
    joined by single spaces and stripped; the parser then stands behind
    those tokens. *)
Theorem identifier_statement ts pos fuel :
  ttype (token_at ts pos) = ID →
  (is_assign_op (token_at ts (pos + 1)) = true →
     stmt ts (S fuel) pos = assign_stmt ts (expr ts (S fuel)) pos)
  ∧ (is_assign_op (token_at ts (pos + 1)) = false →
     ∀ texts, map tvalue (statement_tokens ts pos) = map Some texts →
       stmt ts (S fuel) pos
       = Ok (Node "stmt" (Some (strip (String.concat " " texts))) [],
             pos + length texts)).
Proof.
  intros Hid. split; intros Hnext.
  - by rewrite stmt_at_identifier, Hnext.
  - intros texts Htexts. rewrite stmt_at_identifier, Hnext by done.
    rewrite generic_stmt_eq, Htexts, join_values_strings.
    by rewrite <- (length_map tvalue), Htexts, length_map.
Qed.

Lemma identifier_statement_witness :
  let opaque_ts :=
    [mkToken ID (Some "cin"); mkToken OP (Some ">>");
     mkToken ID (Some "x"); mkToken SEMI (Some ";");
     mkToken RBRACE (Some "}")] in
  let assign_ts :=
    [mkToken ID (Some "x"); mkToken OP (Some "=");
     mkToken NUM (Some "1"); mkToken SEMI (Some ";")] in
  stmt assign_ts 1 0 = assign_stmt assign_ts (expr assign_ts 1) 0
  ∧ stmt opaque_ts 1 0 = Ok (Node "stmt" (Some "cin >> x ;") [], 4).
Proof.
  intros opaque_ts assign_ts. split.
  - apply (proj1 (identifier_statement assign_ts 0 0 eq_refl)). reflexivity.
  - apply (proj2 (identifier_statement opaque_ts 0 0 eq_refl) eq_refl
             ["cin"; ">>"; "x"; ";"]).
    reflexivity.
Defined.

End ParserProps.

(** *** The fuel given by [parse] is enough *)

Module ParserTotal.
Import Parser ParserProps.

Section Totality.

Variable ts : list token.

(** Started inside the tokens, [m] does not run out of fuel, and it
    returns inside the tokens, not before where it started. *)
Definition safe_at {A} (m : M nat A) (pos : nat) : Prop :=
  pos ≤ length ts →
  m pos ≠ OutOfFuel
  ∧ ∀ a pos', m pos = Ok (a, pos') → pos ≤ pos' ≤ length ts.

(** [m] consumes a token whenever it returns. *)
Definition strict_at {A} (m : M nat A) (pos : nat) : Prop :=
  pos ≤ length ts → ∀ a pos', m pos = Ok (a, pos') → pos < pos'.

Definition eats {A} (m : M nat A) (pos : nat) : Prop :=
  safe_at m pos ∧ strict_at m pos.

Lemma safe_ret {A} (a : A) pos : safe_at (ret a) pos.
Proof. intros Hpos. split; [done|]. by intros b pos' [= <- <-]. Qed.

Lemma safe_raise {A} e pos : safe_at (raise e : M nat A) pos.
Proof. by intros Hpos. Qed.

Lemma join_values_answers sep items : join_values sep items ≠ OutOfFuel.
Proof.
  induction items as [|[v|] items IH]; [done| |done].
  destruct items as [|w items]; [done|].
  change (join_values sep (Some v :: w :: items))
    with (match join_values sep (w :: items) with
          | Ok r => Ok (v +:+ sep +:+ r)
          | Raise e => Raise e
          | OutOfFuel => OutOfFuel
          end).
  by destruct (join_values sep (w :: items)).
Qed.

Lemma safe_lift_join sep items pos :
  safe_at (lift (join_values sep items)) pos.
Proof.
  intros Hpos. unfold lift.
  pose proof (join_values_answers sep items).
  destruct (join_values sep items); [|done..].
  split; [done|]. by intros b pos' [= <- <-].
Qed.

Lemma safe_bind {A B} (m : M nat A) (k : A → M nat B) pos :
  safe_at m pos →
  (∀ a pos', m pos = Ok (a, pos') → pos ≤ pos' ≤ length ts →
             safe_at (k a) pos') →
  safe_at (bind m k) pos.
Proof.
  intros Hm Hk Hpos. destruct (Hm Hpos) as [Hoof Hret]. unfold bind.
  destruct (m pos) as [[a pos1]| |] eqn:Hrun; [|by split|done].
  specialize (Hret _ _ eq_refl).
  destruct (Hk _ _ eq_refl Hret) as [Hoof' Hret']; [lia|].
  split; [done|]. intros b pos' Hrun'. specialize (Hret' _ _ Hrun'). lia.
Qed.

Lemma safe_on_current {A} (k : token → M nat A) pos :
  safe_at (k (token_at ts pos)) pos → safe_at (bind (current ts) k) pos.
Proof. done. Qed.

Lemma safe_on_next_token {A} (k : token → M nat A) pos :
  safe_at (k (token_at ts (pos + 1))) pos →
  safe_at (bind (next_token ts) k) pos.
Proof. done. Qed.

(** After a token has been eaten the parser stands one further, still
    inside the tokens. *)
Lemma safe_on_eat {A} kind (k : token → M nat A) pos :
  kind ≠ EOF →
  (pos < length ts → safe_at (k (token_at ts pos)) (S pos)) →
  eats (bind (eat ts kind) k) pos.
Proof.
  intros Hkind Hk. unfold eats, safe_at, strict_at, bind.
  destruct (eat ts kind pos) as [[tok pos1]| |] eqn:Heat.
  - apply eat_inv in Heat as (-> & Hty & ->).
    assert (Hlt : pos < length ts) by (apply token_at_not_eof; congruence).
    split.
    + intros _. destruct (Hk Hlt) as [Hoof Hret]; [lia|]. split; [done|].
      intros b pos' Hrun. specialize (Hret _ _ Hrun). lia.
    + intros _ b pos' Hrun. destruct (Hk Hlt) as [_ Hret]; [lia|].
      specialize (Hret _ _ Hrun). lia.
  - split; [by intros _|by intros _ b pos'].
  - unfold eat, bind, current, advance, modify, ret, raise in Heat.
    by case_decide.
Qed.

Lemma safe_eat_last kind pos : kind ≠ EOF → safe_at (eat ts kind) pos.
Proof.
  intros Hkind Hpos.
  destruct (eat ts kind pos) as [[tok pos1]| |] eqn:Heat.
  - apply eat_inv in Heat as (-> & Hty & ->).
    assert (Hlt : pos < length ts) by (apply token_at_not_eof; congruence).
    split; [done|]. intros b pos' [= <- <-]. lia.
  - by split.
  - unfold eat, bind, current, advance, modify, ret, raise in Heat.
    by case_decide.
Qed.

Lemma while_current_S {A} n test (step : A → M nat A) acc pos :
  while_current ts (S n) test step acc pos
  = if test (token_at ts pos)
    then match step acc pos with
         | Ok (acc1, pos1) => while_current ts n test step acc1 pos1
         | Raise e => Raise e
         | OutOfFuel => OutOfFuel
         end
    else Ok (acc, pos).
Proof.
  cbn [while_current]. unfold bind, current, ret.
  by destruct (test (token_at ts pos)).
Qed.

Lemma while_current_0 {A} test (step : A → M nat A) acc pos :
  while_current ts 0 test step acc pos
  = if test (token_at ts pos) then OutOfFuel else Ok (acc, pos).
Proof.
  cbn [while_current]. unfold bind, current, ret.
  by destruct (test (token_at ts pos)).
Qed.

(** A loop whose rounds consume a token. *)
Lemma safe_while {A} test (step : A → M nat A) n acc pos :
  test EOF_token = false →
  (∀ acc p, pos ≤ p → test (token_at ts p) = true →
            eats (step acc) p) →
  length ts - pos ≤ n →
  safe_at (while_current ts n test step acc) pos.
Proof.
  intros Heof Hstep. revert acc pos Hstep.
  induction n as [|n IH]; intros acc pos Hstep Hn Hpos.
  - rewrite while_current_0, token_at_ge, Heof by lia.
    split; [done|]. intros a pos' [= <- <-]. lia.
  - rewrite while_current_S.
    destruct (test (token_at ts pos)) eqn:Htest.
    + destruct (Hstep acc pos (le_n _) Htest) as [Hsafe Hstrict].
      destruct (Hsafe Hpos) as [Hoof Hret].
      destruct (step acc pos) as [[acc1 pos1]| |] eqn:Hrun; [|by split|done].
      specialize (Hret _ _ eq_refl). specialize (Hstrict Hpos _ _ Hrun).
      destruct (IH acc1 pos1) as [Hoof' Hret']; [|lia|lia|].
      { intros acc' p Hp. apply Hstep. lia. }
      split; [done|]. intros a pos' Hrun'. specialize (Hret' _ _ Hrun'). lia.
    + split; [done|]. intros a pos' [= <- <-]. lia.
Qed.

Lemma safe_eat_bind {A} kind (k : token → M nat A) pos :
  kind ≠ EOF →
  (pos < length ts → safe_at (k (token_at ts pos)) (S pos)) →
  safe_at (bind (eat ts kind) k) pos.
Proof. intros Hkind Hk. by apply safe_on_eat. Qed.

Lemma eats_bind {A B} (m : M nat A) (k : A → M nat B) pos :
  eats m pos →
  (∀ a pos', m pos = Ok (a, pos') → pos < pos' ≤ length ts →
             safe_at (k a) pos') →
  eats (bind m k) pos.
Proof.
  intros [Hsafe Hstrict] Hk. split.
  - apply safe_bind; [done|]. intros a p1 Hrun Hle Hp1.
    apply Hk; [done| |done].
    assert (pos ≤ length ts) by lia. specialize (Hstrict H _ _ Hrun). lia.
  - intros Hpos b pos' Hrun.
    apply bind_inv_ok in Hrun as (a & p1 & Hrun1 & Hrun2).
    specialize (Hstrict Hpos _ _ Hrun1).
    destruct (Hsafe Hpos) as [_ Hret1]. specialize (Hret1 _ _ Hrun1).
    destruct (Hk _ _ Hrun1 ltac:(lia)) as [_ Hret2]; [lia|].
    specialize (Hret2 _ _ Hrun2). lia.
Qed.

Lemma eats_on_current {A} (k : token → M nat A) pos :
  eats (k (token_at ts pos)) pos → eats (bind (current ts) k) pos.
Proof. done. Qed.

Lemma eats_on_next_token {A} (k : token → M nat A) pos :
  eats (k (token_at ts (pos + 1))) pos → eats (bind (next_token ts) k) pos.
Proof. done. Qed.

Lemma eats_raise {A} e pos : eats (raise e : M nat A) pos.
Proof. split; [apply safe_raise|by intros ? ? ?]. Qed.

Ltac safe_step :=
  lazymatch goal with
  | |- safe_at (ret _) _ => apply safe_ret
  | |- safe_at (raise _) _ => apply safe_raise
  | |- safe_at (lift (join_values _ _)) _ => apply safe_lift_join
  | |- safe_at (bind (current _) _) _ => apply safe_on_current
  | |- safe_at (bind (next_token _) _) _ => apply safe_on_next_token
  | |- safe_at (bind (eat _ _) _) _ => apply safe_eat_bind; [done|intros ?]
  | |- safe_at (eat _ _) _ => apply safe_eat_last; done
  | |- safe_at (if _ then _ else _) _ => case_match
  | |- safe_at (match _ with _ => _ end) _ => case_match
  end.

Ltac safe_auto := repeat safe_step.

(** **** Expressions *)

Section Expressions.

Variable expr : M nat ASTNode.
Variable start : nat.
Hypothesis Hexpr : ∀ p, start < p → safe_at expr p.

Lemma safe_factor p : start ≤ p → safe_at (factor ts expr) p.
Proof.
  intros Hp. unfold factor. safe_auto.
  apply safe_bind; [apply Hexpr; lia|]. intros node p' _ _. safe_auto.
Qed.

Lemma eats_binary_step kind (operand : M nat ASTNode) node p :
  (∀ q, p < q → safe_at operand q) →
  eats (binary_step ts kind operand node) p.
Proof.
  intros Hoperand. unfold binary_step. apply safe_on_eat; [done|].
  intros Hlt. apply safe_bind; [apply Hoperand; lia|].
  intros rhs p' _ _. safe_auto.
Qed.

Lemma safe_term p : start ≤ p → safe_at (term ts expr) p.
Proof.
  intros Hp. unfold term.
  apply safe_bind; [by apply safe_factor|]. intros node p' _ Hle.
  apply safe_while; [done| |lia].
  intros acc q Hq _. apply eats_binary_step.
  intros r Hr. apply safe_factor. lia.
Qed.

Lemma safe_arith_expr p : start ≤ p → safe_at (arith_expr ts expr) p.
Proof.
  intros Hp. unfold arith_expr.
  apply safe_bind; [by apply safe_term|]. intros node p' _ Hle.
  apply safe_while; [done| |lia].
  intros acc q Hq _. apply eats_binary_step.
  intros r Hr. apply safe_term. lia.
Qed.

Lemma safe_expr_body p : start ≤ p → safe_at (expr_body ts expr) p.
Proof.
  intros Hp. unfold expr_body.
  apply safe_bind; [by apply safe_arith_expr|]. intros node p' _ Hle.
  safe_auto.
  apply safe_bind; [apply safe_arith_expr; lia|]. intros rhs p'' _ _.
  safe_auto.
Qed.

End Expressions.

Lemma safe_expr fuel p : length ts < fuel + p → safe_at (expr ts fuel) p.
Proof.
  revert p. induction fuel as [|fuel IH]; intros p Hfuel.
  - intros Hp. lia.
  - apply (safe_expr_body (expr ts fuel) p); [|done].
    intros q Hq. apply IH. lia.
Qed.

(** **** Statements *)

Ltac safe_go tac :=
  repeat first
    [ safe_step
    | progress tac
    | apply safe_bind; [|intros ? ? _ ?] ].

Lemma eats_type_spec p : eats (type_spec ts) p.
Proof. unfold type_spec. apply safe_on_eat; [done|]. intros _. safe_auto. Qed.

Lemma eats_gather_step acc p :
  not_semi_nor_eof (token_at ts p) = true → eats (gather_step ts acc) p.
Proof.
  intros Htest.
  assert (p < length ts).
  { apply token_at_not_eof. unfold not_semi_nor_eof in Htest.
    apply andb_true_iff in Htest as [_ Hne]. by apply bool_decide_eq_true in Hne. }
  split.
  - intros _. split; [done|]. intros a pos' [= <- <-]. lia.
  - intros _ a pos' [= <- <-]. lia.
Qed.

Lemma safe_generic_stmt p : safe_at (generic_stmt ts) p.
Proof.
  unfold generic_stmt. apply safe_bind.
  { apply safe_while; [done| |lia]. intros acc q _. apply eats_gather_step. }
  intros texts p' _ Hle. safe_go idtac.
Qed.

Section Statements.

Variables expr stmt compound_stmt : M nat ASTNode.
Variable start : nat.
Hypothesis Hexpr : ∀ p, start < p → safe_at expr p.
Hypothesis Hstmt : ∀ p, start < p → safe_at stmt p.
Hypothesis Hcompound : ∀ p, start < p → safe_at compound_stmt p.

Ltac calls :=
  first [ apply Hexpr; lia | apply Hstmt; lia | apply Hcompound; lia ].

Lemma eats_var_decl p : start ≤ p → eats (var_decl ts expr) p.
Proof.
  intros Hp. unfold var_decl. apply eats_bind; [apply eats_type_spec|].
  intros ty p' _ Hle. safe_go calls.
Qed.

Lemma eats_assign_stmt p : start ≤ p → eats (assign_stmt ts expr) p.
Proof.
  intros Hp. unfold assign_stmt. apply safe_on_eat; [done|]. intros Hlt.
  safe_go calls.
Qed.

Lemma eats_assign_expr p : start ≤ p → eats (assign_expr ts expr) p.
Proof.
  intros Hp. unfold assign_expr. apply safe_on_eat; [done|]. intros Hlt.
  safe_go calls.
Qed.

Lemma eats_return_stmt p : start ≤ p → eats (return_stmt ts expr) p.
Proof.
  intros Hp. unfold return_stmt. apply safe_on_eat; [done|]. intros Hlt.
  safe_go calls.
Qed.

Lemma safe_body p : start < p → safe_at (body ts stmt compound_stmt) p.
Proof. intros Hp. unfold body. safe_go calls. Qed.

Ltac rules :=
  first [ calls
        | apply safe_body; lia
        | apply eats_var_decl; lia
        | apply eats_assign_stmt; lia
        | apply eats_assign_expr; lia ].

Lemma eats_if_stmt p :
  start ≤ p → eats (if_stmt ts expr stmt compound_stmt) p.
Proof.
  intros Hp. unfold if_stmt. apply safe_on_eat; [done|]. intros Hlt.
  safe_go rules.
Qed.

Lemma eats_while_stmt p :
  start ≤ p → eats (while_stmt ts expr stmt compound_stmt) p.
Proof.
  intros Hp. unfold while_stmt. apply safe_on_eat; [done|]. intros Hlt.
  safe_go rules.
Qed.

Lemma eats_for_stmt p :
  start ≤ p → eats (for_stmt ts expr stmt compound_stmt) p.
Proof.
  intros Hp. unfold for_stmt. apply safe_on_eat; [done|]. intros Hlt.
  safe_go rules.
Qed.

Lemma eats_do_while_stmt p :
  start ≤ p → eats (do_while_stmt ts expr stmt compound_stmt) p.
Proof.
  intros Hp. unfold do_while_stmt. apply safe_on_eat; [done|]. intros Hlt.
  safe_go rules.
Qed.

Lemma eats_stmt_body p :
  start ≤ p → eats (stmt_body ts expr stmt compound_stmt) p.
Proof.
  intros Hp. unfold stmt_body. apply eats_on_current.
  case_decide; [by apply eats_var_decl|].
  case_decide as Hid.
  { apply eats_on_next_token. case_match; [by apply eats_assign_stmt|].
    split; [apply safe_generic_stmt|].
    intros _ a pos'. by apply (generic_stmt_advances ts []). }
  case_decide; [by apply eats_if_stmt|].
  case_decide; [by apply eats_return_stmt|].
  case_decide; [by apply eats_while_stmt|].
  case_decide; [by apply eats_for_stmt|].
  case_decide; [by apply eats_do_while_stmt|].
  apply eats_raise.
Qed.

End Statements.

Lemma safe_compound_stmt_body (stmt : M nat ASTNode) p :
  (∀ q, p < q → eats stmt q) → safe_at (compound_stmt_body ts stmt) p.
Proof.
  intros Hstmt. unfold compound_stmt_body.
  apply safe_eat_bind; [done|]. intros Hlt.
  apply safe_bind.
  { apply safe_while; [done| |lia]. intros acc q Hq _.
    apply eats_bind; [apply Hstmt; lia|]. intros s q' _ _. apply safe_ret. }
  intros stmts p' _ Hle. safe_auto.
Qed.

Lemma eats_stmt fuel p : length ts < fuel + p → eats (stmt ts fuel) p.
Proof.
  revert p. induction fuel as [|fuel IH]; intros p Hfuel.
  - split; intros Hp; lia.
  - apply (eats_stmt_body (expr ts (S fuel)) (stmt ts fuel)
             (compound_stmt_body ts (stmt ts fuel)) p); [| | |done].
    + intros q Hq. apply safe_expr. lia.
    + intros q Hq. apply IH. lia.
    + intros q Hq. apply safe_compound_stmt_body.
      intros r Hr. apply IH. lia.
Qed.

Lemma safe_program p : safe_at (program ts (length ts)) p.
Proof.
  unfold program, function, compound_stmt.
  apply safe_bind; [|intros f p' _ _; apply safe_ret].
  apply safe_bind; [apply eats_type_spec|]. intros ty p1 _ _.
  safe_auto. apply safe_bind; [|intros b p' _ _; apply safe_ret].
  apply safe_compound_stmt_body. intros q Hq. apply eats_stmt. lia.
Qed.

End Totality.

(** [parse] always answers: with a tree or with the parser's error. *)
Lemma parse_from_answers tokens : parse_from tokens ≠ OutOfFuel.
Proof.
  unfold parse_from. apply (safe_program tokens 0). lia.
Qed.

Lemma parse_answers tokens : parse tokens ≠ OutOfFuel.
Proof.
  unfold parse. pose proof (parse_from_answers tokens).
  by destruct (parse_from tokens) as [[ast pos]| |].
Qed.


End ParserTotal.

(** ** Flowchart builder *)

Module FlowchartProps.
Import Flowchart.

(** *** The label helpers always answer *)

Definition answers {A} (r : result A) : Prop := r ≠ OutOfFuel.

Lemma rbind_answers {A B} (r : result A) (k : A → result B) :
  answers r → (∀ a, r = Ok a → answers (k a)) → answers (rbind r k).
Proof. unfold answers. destruct r; simpl; auto. Qed.

Lemma index_answers {A} (l : list A) i : answers (index l i).
Proof. unfold answers, index. by destruct (l !! i). Qed.

Lemma index_Forall {A} (P : A → Prop) (l : list A) i a :
  Forall P l → index l i = Ok a → P a.
Proof.
  unfold index. intros Hl. destruct (l !! i) eqn:Hi; [|done].
  intros [= <-]. by apply (Forall_lookup_1 _ _ _ _ Hl Hi).
Qed.

Lemma value_of_answers n : answers (value_of n).
Proof. by destruct n. Qed.

Lemma join_answers sep parts : answers (join sep parts).
Proof.
  unfold answers. induction parts as [|[p|] parts IH]; [done| |done].
  destruct parts as [|q parts]; [done|].
  change (join sep (Some p :: q :: parts))
    with (try r <- join sep (q :: parts); Ok (p +:+ sep +:+ r)).
  by destruct (join sep (q :: parts)).
Qed.

Ltac answers_steps :=
  repeat first
    [ apply rbind_answers; [|intros ? ?]
    | apply index_answers
    | apply value_of_answers
    | apply join_answers
    | done
    | case_decide
    | case_match ].

Lemma expr_to_str_body_answers ty v rec :
  Forall answers rec → answers (expr_to_str_body ty v rec).
Proof.
  intros Hrec. unfold expr_to_str_body. answers_steps.
  all: eapply (index_Forall answers); eauto.
Qed.

Lemma expr_to_str_node_answers n : answers (expr_to_str_node n).
Proof.
  induction n as [ty v ch IH] using ASTNode_tree_ind. simpl.
  apply expr_to_str_body_answers.
  induction IH as [|[m|] ch Hm _ IH]; simpl; constructor; auto. done.
Qed.

Lemma _expr_to_str_answers c : answers (_expr_to_str c).
Proof. destruct c; [apply expr_to_str_node_answers|done]. Qed.

Lemma expr_child_answers ch i : answers (expr_child ch i).
Proof.
  unfold expr_child. apply rbind_answers; [apply index_answers|].
  intros. apply _expr_to_str_answers.
Qed.

Definition answers_slot {A} (o : option (result A)) : Prop :=
  match o with Some r => answers r | None => True end.

Lemma formatter_body_answers ty v ch rec :
  Forall answers_slot rec → answers (formatter_body ty v ch rec).
Proof.
  intros Hrec. unfold formatter_body.
  repeat (case_match; [answers_steps; try apply expr_child_answers;
                       try apply _expr_to_str_answers|]); try done.
  all: match goal with
       | H : index _ _ = Ok (Some ?r) |- answers ?r =>
           apply (index_Forall answers_slot _ _ _ Hrec H)
       end.
Qed.

Lemma _formatter_answers n : answers (_formatter n).
Proof.
  induction n as [ty v ch IH] using ASTNode_tree_ind. simpl.
  apply formatter_body_answers.
  induction IH as [|[m|] ch Hm _ IH]; simpl; constructor; auto.
Qed.

(** *** Running the generator's primitives *)

Lemma wp_new_node_id (Q : nat → generator → Prop) g :
  Q (S (node_count g))
    (mkGenerator (dot g) (S (node_count g)) (last_node g) (merge_stack g)) →
  wp _new_node_id Q g.
Proof. done. Qed.

Lemma wp_dot_node name label sh attrs (Q : unit → generator → Prop) g :
  Q tt (mkGenerator
          (mkDigraph (g_nodes (dot g) ++ [mkGNode name label sh attrs])
                     (g_edges (dot g)))
          (node_count g) (last_node g) (merge_stack g)) →
  wp (dot_node name label sh attrs) Q g.
Proof. done. Qed.

Lemma wp_dot_edge tail head label (Q : unit → generator → Prop) g :
  (∀ t, tail = Some t →
     Q tt (mkGenerator
             (mkDigraph (g_nodes (dot g))
                        (g_edges (dot g) ++ [mkGEdge t head label]))
             (node_count g) (last_node g) (merge_stack g))) →
  wp (dot_edge tail head label) Q g.
Proof. destruct tail; [|done]. intros H. by apply H. Qed.

Lemma wp_set_last_node l (Q : unit → generator → Prop) g :
  Q tt (mkGenerator (dot g) (node_count g) l (merge_stack g)) →
  wp (set_last_node l) Q g.
Proof. done. Qed.

Lemma wp_push_merge m (Q : unit → generator → Prop) g :
  Q tt (mkGenerator (dot g) (node_count g) (last_node g) (merge_stack g ++ [m])) →
  wp (push_merge m) Q g.
Proof. done. Qed.

Lemma wp_get_child {S} ch i (Q : option ASTNode → S → Prop) s :
  (∀ c, ch !! i = Some c → Q c s) → wp (get_child ch i) Q s.
Proof. unfold get_child. destruct (ch !! i); [|done]. intros H. by apply H. Qed.

Lemma wp_edge_from_last target (Q : unit → generator → Prop) g :
  (∀ p, last_node g = Some p →
     Q tt (mkGenerator
             (mkDigraph (g_nodes (dot g))
                        (g_edges (dot g) ++ [mkGEdge p target None]))
             (node_count g) (last_node g) (merge_stack g))) →
  (last_node g = None → Q tt g) →
  wp (edge_from_last target) Q g.
Proof.
  intros HS HN. unfold wp, edge_from_last, bind, get.
  destruct (last_node g) as [p|] eqn:Hl; simpl; [|by apply HN].
  rewrite Hl. by apply HS.
Qed.

Lemma wp_make_invisible_merge (Q : nat → generator → Prop) g :
  Q (S (node_count g))
    (mkGenerator
       (mkDigraph
          (g_nodes (dot g)
           ++ [mkGNode (S (node_count g)) (Some "") point
                 [("width", "0.01"); ("style", "invis")]])
          (g_edges (dot g)))
       (S (node_count g)) (last_node g) (merge_stack g)) →
  wp _make_invisible_merge Q g.
Proof. done. Qed.

Ltac wp_prim :=
  lazymatch goal with
  | |- wp (bind _ _) _ _ => apply wp_bind
  | |- wp (ret _) _ _ => apply wp_ret
  | |- wp (raise _) _ _ => apply wp_raise
  | |- wp get _ _ => apply wp_get
  | |- wp _new_node_id _ _ => apply wp_new_node_id
  | |- wp _make_invisible_merge _ _ => apply wp_make_invisible_merge
  | |- wp (dot_node _ _ _ _) _ _ => apply wp_dot_node
  | |- wp (set_last_node _) _ _ => apply wp_set_last_node
  | |- wp (push_merge _) _ _ => apply wp_push_merge
  | |- wp (dot_edge _ _ _) _ _ => apply wp_dot_edge; intros ? ?
  | |- wp (get_child _ _) _ _ => apply wp_get_child; intros ? ?
  | |- wp (lift _) _ _ =>
      apply wp_lift;
        [ first [ apply _formatter_answers | apply expr_child_answers
                | apply _expr_to_str_answers | done
                | solve [case_match; first [apply _expr_to_str_answers|done]] ]
        | intros ? ? ]
  end.

Ltac wp_run :=
  repeat (wp_prim;
          cbn [dot node_count last_node merge_stack g_nodes g_edges fst snd]).

Ltac wp_case :=
  match goal with
  | |- wp (match ?x with _ => _ end) _ _ => destruct x
  | |- wp (if ?x then _ else _) _ _ => destruct x
  end.

Ltac wp_go := repeat (wp_run; try wp_case).

(** *** What one walk does to the generator *)

(** The cursor, when set, names a node that exists. *)
Definition last_ok (g : generator) : Prop :=
  ∀ p, last_node g = Some p → p ≤ node_count g.

(** A new edge points at a node allocated by the walk and leaves from a
    node that exists. *)
Definition edge_ok (g g' : generator) (e : gedge) : Prop :=
  node_count g < e_head e ∧ (last_ok g → e_tail e ≤ node_count g').

Record walk_ok (g g' : generator) : Prop := mkWalkOk {
  (* node ids are only ever allocated *)
  wo_count : node_count g ≤ node_count g';
  (* nodes are appended, and none of them is an oval *)
  wo_nodes : ∃ ns, g_nodes (dot g') = g_nodes (dot g) ++ ns
                   ∧ Forall (λ n, g_shape n ≠ oval) ns;
  (* edges are appended; they point at nodes allocated by this walk and
     leave from nodes that exist *)
  wo_edges : ∃ es, g_edges (dot g') = g_edges (dot g) ++ es
                   ∧ Forall (edge_ok g g') es;
  wo_last : last_ok g → last_ok g';
  (* a walk that allocates no node changes nothing *)
  wo_same : node_count g' = node_count g → g' = g;
  (* a walk that allocates a node leaves the cursor set, and has drawn
     the edge from the cursor it started with to its first node *)
  wo_entry : node_count g < node_count g' →
             is_Some (last_node g')
             ∧ ∀ p, last_node g = Some p →
                    mkGEdge p (S (node_count g)) None ∈ g_edges (dot g')
}.

Lemma walk_ok_refl g : walk_ok g g.
Proof.
  split; try done.
  - exists []. by rewrite app_nil_r.
  - exists []. by rewrite app_nil_r.
  - lia.
Qed.

Lemma walk_ok_trans g1 g2 g3 : walk_ok g1 g2 → walk_ok g2 g3 → walk_ok g1 g3.
Proof.
  intros [Hc1 (ns1 & Hn1 & Hs1) (es1 & He1 & Ht1) Hl1 Hsame1 Hent1]
         [Hc2 (ns2 & Hn2 & Hs2) (es2 & He2 & Ht2) Hl2 Hsame2 Hent2].
  split.
  - lia.
  - exists (ns1 ++ ns2). rewrite Hn2, Hn1, app_assoc. split; [done|].
    by apply Forall_app.
  - exists (es1 ++ es2). rewrite He2, He1, app_assoc. split; [done|].
    apply Forall_app. split.
    + eapply Forall_impl; [exact Ht1|]. intros e [? Htl].
      split; [done|]. intros Hok. specialize (Htl Hok). lia.
    + eapply Forall_impl; [exact Ht2|]. intros e [? Htl].
      split; [lia|]. auto.
  - auto.
  - intros Heq. assert (node_count g2 = node_count g1) as H21 by lia.
    rewrite <- (Hsame1 H21). apply Hsame2. lia.
  - intros Hlt. destruct (decide (node_count g2 = node_count g1)) as [H21|H21].
    + rewrite <- (Hsame1 H21). apply Hent2. lia.
    + destruct Hent1 as [Hsome Hedge]; [lia|]. split.
      * destruct (decide (node_count g3 = node_count g2)) as [H32|H32].
        -- by rewrite (Hsame2 H32).
        -- apply Hent2. lia.
      * intros p Hp. rewrite He2. apply elem_of_app. left. by apply Hedge.
Qed.

(** The usual case: the walk allocates a node. *)
Lemma walk_ok_alloc g g' ns es l :
  node_count g < node_count g' →
  g_nodes (dot g') = g_nodes (dot g) ++ ns →
  Forall (λ n, g_shape n ≠ oval) ns →
  g_edges (dot g') = g_edges (dot g) ++ es →
  Forall (edge_ok g g') es →
  last_node g' = Some l → l ≤ node_count g' →
  (∀ p, last_node g = Some p →
        mkGEdge p (S (node_count g)) None ∈ g_edges (dot g')) →
  walk_ok g g'.
Proof.
  intros Hlt Hn Hs He Ht Hl Hle Hentry. split.
  - lia.
  - by exists ns.
  - by exists es.
  - intros _ p. rewrite Hl. by intros [= <-].
  - lia.
  - intros _. split; [by rewrite Hl|done].
Qed.

Lemma last_ok_set d l ms c :
  (∀ p, l = Some p → p ≤ c) → last_ok (mkGenerator d c l ms).
Proof. intros H p Hp. by apply H. Qed.

Ltac gen_simpl :=
  cbn [dot node_count last_node merge_stack g_nodes g_edges fst snd
       g_shape g_id e_head e_tail e_label] in *.

Ltac solve_last_ok :=
  apply last_ok_set; intros ? ?; simplify_eq; gen_simpl; lia.

(* after a recursive call: name what the walk guarantees, and settle the
   premise about the cursor when the state of the call settles it *)
Ltac walk_call Hrec :=
  eapply (wp_call walk_ok); [exact Hrec|];
  let g' := fresh "g" in
  let Hc := fresh "Hc" in let ns := fresh "ns" in let Hn := fresh "Hn" in
  let Hs := fresh "Hs" in let es := fresh "es" in let He := fresh "He" in
  let Ht := fresh "Ht" in let Hl := fresh "Hl" in let Hsame := fresh "Hsame" in
  let Hent := fresh "Hent" in
  intros g' [Hc (ns & Hn & Hs) (es & He & Ht) Hl Hsame Hent]; gen_simpl;
  try (lazymatch type of Hl with
       | ?P → _ =>
           let Hok := fresh "Hok" in
           assert (Hok : P) by solve_last_ok;
           specialize (Hl Hok)
       end).

Ltac use_last_ok :=
  repeat match goal with
         | Hl : last_ok ?g → _, Hok : last_ok ?g |- _ => specialize (Hl Hok)
         end;
  repeat match goal with
         | Hl : last_ok ?g, H : last_node ?g = Some ?t |- _ =>
             lazymatch goal with
             | _ : t ≤ node_count g |- _ => fail
             | _ => pose proof (Hl t H)
             end
         end.

Ltac split_Forall :=
  rewrite ?Forall_app, ?Forall_cons, ?Forall_nil; unfold edge_ok; gen_simpl;
  repeat split.

(* a goal [Forall P es] from the hypothesis about the same [es] *)
Ltac forall_from Ht :=
  eapply Forall_impl; [exact Ht|];
  let Htl := fresh "Htl" in
  unfold edge_ok; intros ? [? Htl]; gen_simpl; split;
  [lia|intros ?; use_last_ok; try specialize (Htl ltac:(assumption)); lia].

Ltac edges_ok :=
  split_Forall;
  try match goal with
      | Ht : Forall _ ?es |- Forall _ ?es => forall_from Ht
      end;
  try lia;
  try (let Hok := fresh "Hok" in intros Hok; use_last_ok; lia).

Ltac rewrite_edges :=
  repeat (match goal with
          | He : g_edges (dot _) = _ |- _ => rewrite He; clear He
          end).

Ltac entry_edge :=
  let p := fresh "p" in let Hp := fresh "Hp" in
  intros p Hp; simplify_eq; rewrite_edges;
  rewrite ?elem_of_app, ?elem_of_cons; auto 10.

Ltac close_walk :=
  eapply walk_ok_alloc; gen_simpl;
  [ lia
  | repeat (match goal with
            | Hn : g_nodes (dot _) = _ |- _ => rewrite Hn; clear Hn
            end);
    rewrite <- ?app_assoc; reflexivity
  | split_Forall; try done
  | rewrite_edges; rewrite <- ?app_assoc; reflexivity
  | edges_ok
  | reflexivity
  | lia
  | try solve [entry_edge] ].

(* the entry edge when the construct starts with a recursive call: the
   call drew it, unless it allocated nothing and changed nothing *)
Ltac entry_after_call Hc He Hsame Hent :=
  let p := fresh "p" in let Hp := fresh "Hp" in
  intros p Hp; clear He;
  lazymatch type of Hc with
  | node_count ?g ≤ node_count ?g0 =>
      destruct (decide (node_count g0 = node_count g)) as [Heq|Hne];
      [ pose proof (Hsame Heq); subst g0; simplify_eq; rewrite_edges;
        rewrite ?elem_of_app, ?elem_of_cons; auto 10
      | destruct Hent as [_ Hent]; [lia|]; specialize (Hent p Hp);
        rewrite_edges; rewrite ?elem_of_app; auto 10 ]
  end.

Lemma process_action_walk_ok node : respects walk_ok (process_action node).
Proof.
  intros g. unfold process_action. wp_run.
  apply wp_edge_from_last; gen_simpl; intros; wp_run.
  - close_walk.
  - eapply (walk_ok_alloc _ _ _ []); gen_simpl; try reflexivity; try lia.
    + by split_Forall.
    + by rewrite app_nil_r.
    + constructor.
    + intros p' Hp'. congruence.
Qed.

Section Constructs.

Variable rec : list (option (M generator unit)).
Hypothesis Hrec : Forall (respects_slot walk_ok) rec.

Lemma process_if_walk_ok node ch : respects walk_ok (process_if node ch rec).
Proof.
  intros g. unfold process_if. wp_run.
  apply wp_edge_from_last; gen_simpl; intros; wp_run;
    walk_call Hrec; clear Hsame Hent; wp_run;
    (case_decide;
     [ wp_run; walk_call Hrec; clear Hsame Hent; wp_run;
       simplify_eq; use_last_ok
     | wp_run; repeat (case_match; wp_run; gen_simpl); done ]).
  - close_walk.
  - close_walk.
Qed.

Lemma process_while_walk_ok node : respects walk_ok (process_while node rec).
Proof.
  intros g. unfold process_while. wp_run.
  apply wp_edge_from_last; gen_simpl; intros; wp_run;
    walk_call Hrec; clear Hsame Hent; wp_run;
    simplify_eq; use_last_ok; close_walk.
Qed.

Lemma process_do_while_walk_ok ch : respects walk_ok (process_do_while ch rec).
Proof.
  intros g. unfold process_do_while. wp_run.
  walk_call Hrec. wp_run. simplify_eq. close_walk.
  entry_after_call Hc He Hsame Hent.
Qed.

Lemma process_for_walk_ok ch : respects walk_ok (process_for ch rec).
Proof.
  intros g. unfold process_for. wp_go.
  - walk_call Hrec. wp_go.
    apply wp_edge_from_last; gen_simpl; intros; wp_go;
      walk_call Hrec; clear Hsame0 Hent0; wp_go;
      simplify_eq; use_last_ok; close_walk;
      entry_after_call Hc He Hsame Hent.
  - apply wp_edge_from_last; gen_simpl; intros; wp_go;
      walk_call Hrec; clear Hsame Hent; wp_go;
      simplify_eq; use_last_ok; close_walk.
Qed.

Lemma process_body_walk_ok node : respects walk_ok (process_body node rec).
Proof.
  unfold process_body. repeat case_match.
  - intros g. by apply (wp_for_children walk_ok);
      [apply walk_ok_refl|apply walk_ok_trans|..].
  - apply process_action_walk_ok.
  - apply process_if_walk_ok.
  - apply process_while_walk_ok.
  - apply process_for_walk_ok.
  - apply process_do_while_walk_ok.
  - intros g. apply wp_ret, walk_ok_refl.
  - intros g. by apply (wp_for_children walk_ok);
      [apply walk_ok_refl|apply walk_ok_trans|..].
Qed.

End Constructs.

Lemma process_node_walk_ok n : respects walk_ok (_process_node n).
Proof.
  induction n as [ty v ch IH] using ASTNode_tree_ind.
  cbn [_process_node]. apply process_body_walk_ok.
  by apply (Forall_visits (λ n, respects walk_ok (_process_node n))).
Qed.

Lemma process_node_ok n g g' :
  _process_node n g = Ok (tt, g') → walk_ok g g'.
Proof. intros H. exact (wp_ok _ _ _ _ _ (process_node_walk_ok n g) H). Qed.

Lemma process_node_answers n g : answers (_process_node n g).
Proof. exact (wp_total _ _ _ (process_node_walk_ok n g)). Qed.

Lemma all_walk_ok ch :
  Forall (respects_slot walk_ok) (map (option_map _process_node) ch).
Proof.
  induction ch as [|[n|] ch IH]; simpl; constructor; simpl; auto.
  apply process_node_walk_ok.
Qed.

(** Walking [int main() { body }] is walking the statements of [body]. *)
Definition walk_all (body : list (option ASTNode)) : M generator unit :=
  for_children (map (option_map _process_node) body).

Lemma process_main_program body g :
  _process_node (main_program body) g = walk_all body g.
Proof.
  unfold walk_all, main_program, leaf. cbn [_process_node map option_map].
  cbv beta iota delta [process_body in_types existsb String.eqb Ascii.eqb
                       Bool.eqb ntype orb].
  cbn [for_children]. unfold bind, ret.
  by destruct (for_children _ g) as [[[] g']| |].
Qed.

(** *** Terminals *)

Definition start_node : gnode := mkGNode 1 (Some "Start") oval [].
Definition end_node (id : nat) : gnode := mkGNode id (Some "End") oval [].

(** What [generate] hands back: the Start oval, nodes that are not
    ovals, the End oval; no edge enters node 1 and none leaves the End
    oval. *)
Definition terminals_ok (d : digraph) : Prop :=
  ∃ ns k,
    g_nodes d = start_node :: ns ++ [end_node k]
    ∧ Forall (λ n, g_shape n ≠ oval) ns
    ∧ Forall (λ e, 1 < e_head e ∧ e_tail e < k) (g_edges d).

Lemma generate_steps_terminals ast :
  wp (generate_steps ast) (λ d _, terminals_ok d) init.
Proof.
  unfold generate_steps. wp_go.
  eapply wp_mono; [apply process_node_walk_ok|].
  intros [] g [Hc (ns & Hn & Hs) (es & He & Ht) Hl _ _]. gen_simpl.
  assert (Hok : last_ok g) by (apply Hl; solve_last_ok).
  assert (Hes : Forall (λ e, 1 < e_head e ∧ e_tail e < S (node_count g)) es).
  { eapply Forall_impl; [exact Ht|]. unfold edge_ok; gen_simpl.
    intros e [? Htl]. split; [done|].
    assert (e_tail e ≤ node_count g) by (apply Htl; solve_last_ok). lia. }
  wp_go. apply wp_edge_from_last; gen_simpl; intros; wp_go.
  - exists ns, (S (node_count g)). rewrite Hn, He. gen_simpl.
    split; [done|split; [done|]].
    apply Forall_app. split; [done|]. apply Forall_singleton; gen_simpl.
    pose proof (Hok _ H). lia.
  - exists ns, (S (node_count g)). rewrite Hn, He. gen_simpl. done.
Qed.

Lemma filter_none {A} (P : A → Prop) `{∀ x, Decision (P x)} (l : list A) :
  Forall (λ x, ¬ P x) l → filter P l = [].
Proof.
  induction 1 as [|x l Hx _ IH]; [done|].
  by rewrite filter_cons, decide_False, IH.
Qed.

(** C7. A graph returned by [generate] has exactly one oval labeled
    "Start", which no edge enters, and exactly one oval labeled "End",
    which no edge leaves. *)
Theorem one_start_and_one_end ast d :
  generate ast = Ok d →
  ∃ s e,
    ovals "Start" d = [s] ∧ in_degree d (g_id s) = 0
    ∧ ovals "End" d = [e] ∧ out_degree d (g_id e) = 0.
Proof.
  unfold generate. intros Hgen.
  destruct (generate_steps ast init) as [[d' g]| |] eqn:Hsteps; [|done..].
  injection Hgen as ->.
  pose proof (wp_ok _ _ _ _ _ (generate_steps_terminals ast) Hsteps)
    as (ns & k & Hn & Hs & He).
  exists start_node, (end_node k).
  unfold ovals, in_degree, out_degree. rewrite Hn.
  assert (Hmid : ∀ label,
    filter (λ n, g_shape n = oval ∧ g_label n = Some label) ns = []).
  { intros label. apply filter_none.
    eapply Forall_impl; [exact Hs|]. simpl. tauto. }
  repeat split.
  - rewrite filter_cons, decide_True by done.
    rewrite filter_app, Hmid. simpl.
    by rewrite filter_cons, decide_False by (intros [_ [=]]).
  - rewrite filter_none; [done|].
    eapply Forall_impl; [exact He|]. simpl. lia.
  - rewrite filter_cons, decide_False by (intros [_ [=]]).
    rewrite filter_app, Hmid. simpl.
    by rewrite filter_cons, decide_True by done.
  - rewrite filter_none; [done|].
    eapply Forall_impl; [exact He|]. simpl. lia.
Qed.

Lemma one_start_and_one_end_witness :
  generate (main_program [Some (decl "x")])
  = Ok (mkDigraph
          [mkGNode 1 (Some "Start") oval [];
           mkGNode 2 (Some "int x") box [];
           mkGNode 3 (Some "End") oval []]
          [mkGEdge 1 2 None; mkGEdge 2 3 None])
  ∧ ∃ s e,
      ovals "Start"
        (mkDigraph
           [mkGNode 1 (Some "Start") oval [];
            mkGNode 2 (Some "int x") box [];
            mkGNode 3 (Some "End") oval []]
           [mkGEdge 1 2 None; mkGEdge 2 3 None]) = [s]
      ∧ in_degree
          (mkDigraph
             [mkGNode 1 (Some "Start") oval [];
              mkGNode 2 (Some "int x") box [];
              mkGNode 3 (Some "End") oval []]
             [mkGEdge 1 2 None; mkGEdge 2 3 None]) (g_id s) = 0
      ∧ ovals "End"
          (mkDigraph
             [mkGNode 1 (Some "Start") oval [];
              mkGNode 2 (Some "int x") box [];
              mkGNode 3 (Some "End") oval []]
             [mkGEdge 1 2 None; mkGEdge 2 3 None]) = [e]
      ∧ out_degree
          (mkDigraph
             [mkGNode 1 (Some "Start") oval [];
              mkGNode 2 (Some "int x") box [];
              mkGNode 3 (Some "End") oval []]
             [mkGEdge 1 2 None; mkGEdge 2 3 None]) (g_id e) = 0.
Proof.
  split; [reflexivity|].
  apply (one_start_and_one_end (main_program [Some (decl "x")])).
  reflexivity.
Defined.

(** *** Decisions *)

Lemma process_node_if v ch :
  _process_node (Node "if_stmt" v ch)
  = process_if (Node "if_stmt" v ch) ch (map (option_map _process_node) ch).
Proof. done. Qed.

Lemma process_node_while v ch :
  _process_node (Node "while" v ch)
  = process_while (Node "while" v ch) (map (option_map _process_node) ch).
Proof. done. Qed.

Lemma process_node_for v ch :
  _process_node (Node "for" v ch)
  = process_for ch (map (option_map _process_node) ch).
Proof. done. Qed.

Lemma process_node_do_while v ch :
  _process_node (Node "do_while" v ch)
  = process_do_while ch (map (option_map _process_node) ch).
Proof. done. Qed.

(** C1. The claim does not hold of the code.  An [if] without [else]
    never yields a graph: wiring the false edge, the walk refers to the
    undefined name [mergerId] and raises.  And the diamond of an [if]
    with [else] has four outgoing edges, not two: the unlabeled edges
    drawn from the cursor to each branch's first node, and the labeled
    pair. *)
Theorem if_diamond_edges_as_built :
  (∀ v cond then_ g,
     faults (_process_node (Node "if_stmt" v [cond; then_]) g))
  ∧ flowchart_of_code "int main() { if (x > 0) y = 1; return 0; }"
    = Raise (NameError "mergerId")
  ∧ (∃ d,
       flowchart_of_code "int main() { if (x > 0) { y = 1; } else { y = 2; } }"
       = Ok d
       ∧ out_edges d 2
         = [mkGEdge 2 3 None; mkGEdge 2 4 None;
            mkGEdge 2 3 (Some "true"); mkGEdge 2 4 (Some "false")]).
Proof.
  split; [|split].
  - intros v cond then_ g. apply wp_faults. rewrite process_node_if.
    pose proof (all_walk_ok [cond; then_]) as Hrec.
    unfold process_if. wp_go.
    apply wp_edge_from_last; gen_simpl; intros; wp_go;
      walk_call Hrec; wp_run;
      (destruct (decide _) as [Hlen|_]; [by simpl in Hlen|]);
      wp_go; gen_simpl; done.
  - by vm_compute.
  - eexists. split; by vm_compute.
Qed.

(** *** Loops with a body that allocates nothing *)

Definition allocates_nothing (body : ASTNode) : Prop :=
  ∀ g g', _process_node body g = Ok (tt, g') → node_count g' = node_count g.

(* the body of a loop is walked with the cursor cleared; when it
   allocates nothing the cursor is still clear afterwards *)
Ltac walk_body Hbody ch :=
  eapply wp_of_result;
  [ apply (wp_total _ _ _ (wp_call walk_ok _ _ (λ _ _, True) _
                             (all_walk_ok ch) (λ _ _, I)))
  | let g' := fresh "g" in let Hrun := fresh "Hrun" in
    intros [] g' Hrun; cbn in Hrun;
    pose proof (wo_same _ _ (process_node_ok _ _ _ Hrun) (Hbody _ _ Hrun));
    subst g' ].

Lemma empty_block_allocates_nothing : allocates_nothing empty_block.
Proof. by intros g g' [= <-]. Qed.

Lemma walk_all_faults pre n post g :
  (∀ g, faults (_process_node n g)) →
  faults (walk_all (pre ++ Some n :: post) g).
Proof.
  intros Hn. apply wp_faults. unfold walk_all. rewrite map_app. revert g.
  induction pre as [|[m|] pre IH]; intros g; simpl.
  - apply wp_bind. destruct (Hn g) as [e He]. unfold wp. by rewrite He.
  - apply wp_bind. eapply wp_mono; [apply process_node_walk_ok|].
    intros _ g' _. apply IH.
  - apply IH.
Qed.

Lemma generate_faults ast :
  (∀ g, faults (_process_node ast g)) → faults (generate ast).
Proof.
  intros Hast. unfold generate, generate_steps.
  match goal with
  | |- faults (match ?m init with _ => _ end) =>
      assert (H : faults (m init)); [|by destruct H as [e ->]; exists e]
  end.
  apply wp_faults. wp_go.
  match goal with |- wp _ _ ?g => destruct (Hast g) as [e He] end.
  unfold wp. by rewrite He.
Qed.

(** C9. A [while] or [for] whose body allocates no graph node makes the
    builder fault: the cursor is cleared before the body walk and is
    still clear when the back edge from the body exit is drawn.  So no
    program with such a loop among the statements of [main] yields a
    graph; [while (x < 1) { }] ends in the [AttributeError] that
    Graphviz raises on the [None] tail. *)
Theorem loop_with_empty_body_faults :
  (∀ body v cond g,
     allocates_nothing body →
     faults (_process_node (Node "while" v [cond; Some body]) g))
  ∧ (∀ body v init cond upd g,
       allocates_nothing body →
       faults (_process_node (Node "for" v [init; cond; upd; Some body]) g))
  ∧ allocates_nothing empty_block
  ∧ (∀ pre post v cond,
       faults (generate (main_program
         (pre ++ Some (Node "while" v [cond; Some empty_block]) :: post))))
  ∧ (∀ pre post v init cond upd,
       faults (generate (main_program
         (pre ++ Some (Node "for" v [init; cond; upd; Some empty_block]) :: post))))
  ∧ flowchart_of_code "int main() { while (x < 1) { } return 0; }"
    = Raise AttributeError
  ∧ flowchart_of_code "int main() { for (i = 0; i < 3; i = i + 1) { } return 0; }"
    = Raise AttributeError.
Proof.
  assert (Hwhile : ∀ body v cond g,
    allocates_nothing body →
    faults (_process_node (Node "while" v [cond; Some body]) g)).
  { intros body v cond g Hbody. apply wp_faults. rewrite process_node_while.
    unfold process_while. wp_go.
    apply wp_edge_from_last; gen_simpl; intros; wp_go;
      walk_body Hbody [cond; Some body]; wp_go; gen_simpl; done. }
  assert (Hfor : ∀ body v init cond upd g,
    allocates_nothing body →
    faults (_process_node (Node "for" v [init; cond; upd; Some body]) g)).
  { intros body v init cond upd g Hbody. apply wp_faults.
    rewrite process_node_for.
    pose proof (all_walk_ok [init; cond; upd; Some body]) as Hrec.
    unfold process_for. wp_go.
    - walk_call Hrec. wp_go.
      apply wp_edge_from_last; gen_simpl; intros; wp_go;
        walk_body Hbody [init; cond; upd; Some body]; wp_go; gen_simpl; done.
    - apply wp_edge_from_last; gen_simpl; intros; wp_go;
        walk_body Hbody [init; cond; upd; Some body]; wp_go; gen_simpl; done. }
  split; [exact Hwhile|]. split; [exact Hfor|].
  split; [exact empty_block_allocates_nothing|].
  split; [|split; [|split]].
  - intros pre post v cond. apply generate_faults. intros g.
    rewrite process_main_program. apply walk_all_faults.
    intros g'. apply Hwhile, empty_block_allocates_nothing.
  - intros pre post v init cond upd. apply generate_faults. intros g.
    rewrite process_main_program. apply walk_all_faults.
    intros g'. apply Hfor, empty_block_allocates_nothing.
  - by vm_compute.
  - by vm_compute.
Qed.

Lemma loop_with_empty_body_witness :
  allocates_nothing empty_block
  ∧ faults (_process_node
              (Node "while" None [Some (leaf "id" "x"); Some empty_block]) init)
  ∧ faults (_process_node
              (Node "for" None [None; None; None; Some empty_block]) init).
Proof.
  split; [exact empty_block_allocates_nothing|split].
  - exact (proj1 loop_with_empty_body_faults empty_block None
             (Some (leaf "id" "x")) init empty_block_allocates_nothing).
  - exact (proj1 (proj2 loop_with_empty_body_faults) empty_block None
             None None None init empty_block_allocates_nothing).
Defined.

(** *** do-while *)

(** No edge of [d] goes from node [tail] to node [head]. *)
Definition no_edge (d : digraph) (tail head : nat) : Prop :=
  ∀ e, e ∈ g_edges d → ¬ (e_tail e = tail ∧ e_head e = head).

(** C2, as stated, fails: in
    [int x; do { x = 1; } while (x < 1); return 0;] the box of [int x]
    (node 2) comes before the do-while, the box of [x = 1] (node 3) is
    the body's entry, and the edge from 2 to 3 is drawn. *)
Lemma do_while_entry_is_edged_from_predecessor :
  ∃ d,
    flowchart_of_code
      "int main() { int x; do { x = 1; } while (x < 1); return 0; }" = Ok d
    ∧ g_nodes d !! 1 = Some (mkGNode 2 (Some "int x") box [])
    ∧ g_nodes d !! 2 = Some (mkGNode 3 (Some "x = 1") box [])
    ∧ ¬ no_edge d 2 3.
Proof.
  eexists. split; [by vm_compute|]. split; [done|]. split; [done|].
  intros Hno. apply (Hno (mkGEdge 2 3 None)); [|done].
  apply elem_of_cons. right. apply elem_of_cons. by left.
Qed.

(** What a do-while adds once its body is walked: the condition
    diamond, edged from the body's exit, its "true" edge to the node
    numbered first after [g], the state the statement was reached in,
    and a join node, target of the "false" edge and new cursor. *)
Definition do_while_added (g g1 : generator) (lbl : option string)
    (body_exit : nat) : generator :=
  let entry := S (node_count g) in
  let diamond_id := S (node_count g1) in
  let join_id := S (S (node_count g1)) in
  mkGenerator
    (mkDigraph
       (g_nodes (dot g1)
        ++ [mkGNode diamond_id
              (Some ("while (" +:+ py_str lbl +:+ ")")) diamond [];
            mkGNode join_id (Some "") point
              [("width", "0.01"); ("style", "invis")]])
       (g_edges (dot g1)
        ++ [mkGEdge body_exit diamond_id None;
            mkGEdge diamond_id entry (Some "true");
            mkGEdge diamond_id join_id (Some "false")]))
    join_id (Some join_id) (merge_stack g1).

(** C2, amended. A do-while walks its body first, from the state [g] it
    was reached in and with the cursor left as it is; when that walk
    raises, so does the statement.  When it returns, in state [g1]:
    - if the body allocated a node, the cursor is set, and a cursor
      that was set on a predecessor [p] has given the edge from [p] to
      the body's entry, the first node allocated during the body walk,
      like for any other statement;
    - if the body allocated no node, the walk changed nothing, and the
      node numbered first after [g] is the diamond itself;
    - the statement then raises when the label of the condition does,
      and when the cursor is unset after the body walk, which happens
      only if it was reached with the cursor cleared and the body
      allocated no node; otherwise it adds exactly the diamond, edged
      from the body's exit, the "true" edge from the diamond to the node
      numbered first after [g] (the body's entry, or the diamond itself
      for a body without nodes), and the join node with the "false"
      edge, which becomes the cursor. *)
Theorem do_while_wiring v body cond g :
  match _process_node body g with
  | Ok (_, g1) =>
      (node_count g < node_count g1 →
         is_Some (last_node g1)
         ∧ ∀ p, last_node g = Some p →
                mkGEdge p (S (node_count g)) None ∈ g_edges (dot g1))
      ∧ (¬ node_count g < node_count g1 →
           g1 = g ∧ S (node_count g) = S (node_count g1))
      ∧ (last_node g1 = None → last_node g = None ∧ g1 = g)
      ∧ _process_node (Node "do_while" v [Some body; cond]) g
        = match _expr_to_str cond, last_node g1 with
          | Ok lbl, Some body_exit =>
              Ok (tt, do_while_added g g1 lbl body_exit)
          | Ok _, None => Raise AttributeError
          | Raise e, _ => Raise e
          | OutOfFuel, _ => OutOfFuel
          end
  | Raise e => _process_node (Node "do_while" v [Some body; cond]) g = Raise e
  | OutOfFuel =>
      _process_node (Node "do_while" v [Some body; cond]) g = OutOfFuel
  end.
Proof.
  rewrite process_node_do_while.
  unfold process_do_while, bind, get, call, expr_child, index.
  cbn [map option_map lookup list_lookup rbind].
  destruct (_process_node body g) as [[[] g1]|e|] eqn:Hbody; [|done..].
  pose proof (process_node_ok _ _ _ Hbody) as Hw.
  pose proof (wo_count _ _ Hw) as Hc.
  assert (Hsame : ¬ node_count g < node_count g1 → g1 = g)
    by (intros Hnlt; apply (wo_same _ _ Hw); lia).
  split; [exact (wo_entry _ _ Hw)|].
  split; [intros Hnlt; split; [by apply Hsame|by rewrite (Hsame Hnlt)]|].
  split.
  { intros Hnone.
    assert (Hnlt : ¬ node_count g < node_count g1).
    { intros Hlt. destruct (wo_entry _ _ Hw Hlt) as [[x Hx] _]. congruence. }
    rewrite <- (Hsame Hnlt) at 1. by split; [|apply Hsame]. }
  cbn [node_count].
  unfold _make_invisible_merge, _new_node_id, lift, dot_node, dot_edge,
    set_last_node, modify, bind, ret, raise, do_while_added.
  destruct (_expr_to_str cond) as [lbl|e|]; [|done..].
  destruct (last_node g1) as [x|]; [|done]. simpl.
  by rewrite Nat.add_1_r, <- !app_assoc.
Qed.

Lemma do_while_wiring_witness :
  let g := mkGenerator (mkDigraph [start_node] []) 1 (Some 1) [] in
  let g1 :=
    mkGenerator
      (mkDigraph [start_node; mkGNode 2 (Some "int x") box []]
                 [mkGEdge 1 2 None])
      2 (Some 2) [] in
  (* a body with a node: [do int x; while (x);] *)
  (_process_node (decl "x") g = Ok (tt, g1)
   ∧ mkGEdge 1 2 None ∈ g_edges (dot g1)
   ∧ _process_node
       (Node "do_while" None [Some (decl "x"); Some (leaf "id" "x")]) g
     = Ok (tt,
           mkGenerator
             (mkDigraph
                [start_node; mkGNode 2 (Some "int x") box [];
                 mkGNode 3 (Some "while (x)") diamond [];
                 mkGNode 4 (Some "") point
                   [("width", "0.01"); ("style", "invis")]]
                [mkGEdge 1 2 None; mkGEdge 2 3 None;
                 mkGEdge 3 2 (Some "true"); mkGEdge 3 4 (Some "false")])
             4 (Some 4) []))
  (* a body without nodes: [do { } while (x);] *)
  ∧ (_process_node empty_block g = Ok (tt, g)
     ∧ _process_node
         (Node "do_while" None [Some empty_block; Some (leaf "id" "x")]) g
       = Ok (tt,
             mkGenerator
               (mkDigraph
                  [start_node;
                   mkGNode 2 (Some "while (x)") diamond [];
                   mkGNode 3 (Some "") point
                     [("width", "0.01"); ("style", "invis")]]
                  [mkGEdge 1 2 None; mkGEdge 2 2 (Some "true");
                   mkGEdge 2 3 (Some "false")])
               3 (Some 3) []))
  (* a body without nodes, reached with the cursor cleared *)
  ∧ _process_node
      (Node "do_while" None [Some empty_block; Some (leaf "id" "x")])
      (mkGenerator (mkDigraph [start_node] []) 1 None [])
    = Raise AttributeError.
Proof.
  intros g g1.
  pose proof (do_while_wiring None (decl "x") (Some (leaf "id" "x")) g)
    as (Hentry & _ & _ & Hrun).
  pose proof (do_while_wiring None empty_block (Some (leaf "id" "x")) g)
    as (_ & _ & _ & Hempty).
  pose proof (do_while_wiring None empty_block (Some (leaf "id" "x"))
                (mkGenerator (mkDigraph [start_node] []) 1 None []))
    as (_ & _ & _ & Hnone).
  split; [|split].
  - split; [reflexivity|]. split; [|exact Hrun].
    apply (proj2 (Hentry ltac:(simpl; lia)) 1 eq_refl).
  - split; [reflexivity|exact Hempty].
  - exact Hnone.
Defined.

End FlowchartProps.

(** ** Opaque statements through the front end *)

Module FrontEndProps.
Import Parser Semantic ParserProps SemanticProps.

Lemma analyze_all_skip pre post n :
  (∀ a, analyze n a = Ok (tt, a)) →
  ∀ a, analyze_all (pre ++ Some n :: post) a = analyze_all (pre ++ post) a.
Proof.
  intros Hn a. rewrite !analyze_all_app. unfold bind.
  destruct (analyze_all pre a) as [[[] a1]| |]; [|done..].
  rewrite analyze_all_cons. unfold bind. by rewrite Hn.
Qed.

(** C10. What the parser builds for a generic statement is a node of
    type [stmt] that carries the raw text and has no children; [analyze]
    sends it to the generic visitor, which has nothing to recurse into
    and changes nothing.  So an opaque statement adds no diagnostic to
    any program, whatever names occur in its text: with [x] never
    declared, [cin >> x;] is analyzed without a diagnostic. *)
Theorem opaque_statements_are_not_checked :
  (∀ ts pos n pos',
     generic_stmt ts pos = Ok (n, pos') → ∃ text, n = opaque text)
  ∧ (∀ ts pos fuel n pos',
       ttype (token_at ts pos) = ID →
       is_assign_op (token_at ts (pos + 1)) = false →
       stmt ts (S fuel) pos = Ok (n, pos') → ∃ text, n = opaque text)
  ∧ (∀ v a, analyze (Node "stmt" v []) a = Ok (tt, a))
  ∧ (∀ pre post text,
       diagnostics (main_program (pre ++ Some (opaque text) :: post))
       = diagnostics (main_program (pre ++ post)))
  ∧ parse_code "int main() { cin >> x; return 0; }" = Ok [].
Proof.
  assert (Hgen : ∀ ts pos n pos',
    generic_stmt ts pos = Ok (n, pos') → ∃ text, n = opaque text).
  { intros ts pos n pos'. rewrite generic_stmt_eq.
    destruct (join_values _ _) as [text| |]; [|done..].
    intros [= <- _]. by eexists. }
  split; [exact Hgen|]. split; [|split; [|split]].
  - intros ts pos fuel n pos' Hid Hnext.
    rewrite stmt_at_identifier, Hnext by done. apply Hgen.
  - done.
  - intros pre post text. rewrite !diagnostics_main_program.
    by rewrite analyze_all_skip.
  - by vm_compute.
Qed.

Lemma opaque_statements_witness :
  let ts :=
    [mkToken ID (Some "cin"); mkToken OP (Some ">>");
     mkToken ID (Some "x"); mkToken SEMI (Some ";")] in
  generic_stmt ts 0 = Ok (opaque "cin >> x ;", 4)
  ∧ stmt ts 1 0 = Ok (opaque "cin >> x ;", 4)
  ∧ (∃ text, opaque "cin >> x ;" = opaque text).
Proof.
  intros ts. split; [reflexivity|]. split; [reflexivity|].
  apply (proj1 opaque_statements_are_not_checked ts 0 (opaque "cin >> x ;") 4).
  reflexivity.
Defined.

End FrontEndProps.

(** ** More on the tokenizer *)

Module LexerMore.
Import Lexer LexerProps.

(** *** What each pattern matches *)

Definition is_blank (c : ascii) : bool := one_of [" "; "009"; "010"]%char c.

Definition operators : list string :=
  ["=="; "!="; "<="; ">="; "<<"; ">>";
   "+"; "-"; "*"; "/"; "%"; "="; "<"; ">"].

(** The texts a token of each type can carry. *)
Definition lexeme (k : token_kind) (w : list ascii) : bool :=
  match k with
  | INT => bool_decide (w = list_ascii_of_string "int")
  | MAIN => bool_decide (w = list_ascii_of_string "main")
  | IF => bool_decide (w = list_ascii_of_string "if")
  | ELSE => bool_decide (w = list_ascii_of_string "else")
  | WHILE => bool_decide (w = list_ascii_of_string "while")
  | FOR => bool_decide (w = list_ascii_of_string "for")
  | DO => bool_decide (w = list_ascii_of_string "do")
  | RETURN => bool_decide (w = list_ascii_of_string "return")
  | ID =>
      match w with
      | c :: w' => is_ident_start c && forallb is_ident_char w'
      | [] => false
      end
  | NUM =>
      match w with
      | _ :: _ => forallb is_digit w
      | [] => false
      end
  | STRING =>
      (* a quote, characters other than quote and newline, a quote *)
      match w with
      | q :: w' =>
          Ascii.eqb q "034"
          && match reverse w' with
             | q' :: body =>
                 Ascii.eqb q' "034"
                 && forallb (λ c, negb (Ascii.eqb c "034")
                                  && negb (Ascii.eqb c "010")) body
             | [] => false
             end
      | [] => false
      end
  | OP => bool_decide (string_of_list_ascii w ∈ operators)
  | LPAREN => bool_decide (w = ["("%char])
  | RPAREN => bool_decide (w = [")"%char])
  | LBRACE => bool_decide (w = ["{"%char])
  | RBRACE => bool_decide (w = ["}"%char])
  | SEMI => bool_decide (w = [";"%char])
  | SKIP =>
      match w with
      | _ :: _ => forallb is_blank w
      | [] => false
      end
  | MISMATCH => bool_decide (length w = 1)
  | EOF => false
  end.

(** A match of [pat] is a text of type [k], taken from the front of
    the rest of the input. *)
Definition sound (k : token_kind) (pat : pattern) : Prop :=
  ∀ before rest len,
    pat before rest = Some len →
    len ≤ length rest ∧ lexeme k (take len rest) = true.

Lemma forallb_take_span p l : forallb p (take (span p l) l) = true.
Proof.
  apply forallb_forall. intros c Hc.
  by apply (proj1 (Forall_forall _ _) (take_span_all p l)), list_elem_of_In.
Qed.

Lemma keyword_sound k word :
  lexeme k (list_ascii_of_string word) = true → sound k (keyword word).
Proof.
  intros Hk before rest len. unfold keyword.
  destruct (_ && starts_with _ rest && _) eqn:Hm; [|done]. intros [= <-].
  apply andb_true_iff in Hm as [[_ Hs]%andb_true_iff _].
  apply starts_with_app in Hs as [tail ->].
  rewrite length_app, take_app_length. split; [lia|done].
Qed.

Lemma identifier_sound : sound ID identifier.
Proof.
  intros before [|c rest] len; [done|]. simpl.
  destruct (is_ident_start c) eqn:Hc; [|done]. intros [= <-].
  pose proof (span_le is_ident_char rest). split; [lia|].
  cbn [take lexeme]. by rewrite Hc, forallb_take_span.
Qed.

Lemma span_sound k p :
  (∀ w, w ≠ [] → forallb p w = true → lexeme k w = true) →
  sound k (λ _ rest, match span p rest with 0 => None | n => Some n end).
Proof.
  intros Hk before rest len.
  destruct (span p rest) as [|n] eqn:Hspan; [done|]. intros [= <-].
  pose proof (span_le p rest). split; [lia|].
  apply Hk; [|by rewrite <- Hspan, forallb_take_span].
  destruct rest; [done|]. done.
Qed.

Lemma number_sound : sound NUM number.
Proof. apply span_sound. by intros [|c w]. Qed.

Lemma whitespace_sound : sound SKIP whitespace.
Proof. apply span_sound. by intros [|c w]. Qed.

(** The closing quote is the first quote, and no newline stands before
    it. *)
Lemma until_quote_spec rest k len :
  until_quote rest k = Some len →
  ∃ body tail,
    rest = body ++ "034"%char :: tail ∧ len = k + length body + 1
    ∧ forallb (λ c, negb (Ascii.eqb c "034") && negb (Ascii.eqb c "010")) body
      = true.
Proof.
  revert k. induction rest as [|c rest IH]; intros k; [done|].
  cbn [until_quote].
  destruct (Ascii.eqb_spec c "034") as [->|Hq].
  { intros [= <-]. exists [], rest. split; [done|]. split; [simpl; lia|done]. }
  destruct (Ascii.eqb_spec c "010") as [->|Hn]; [done|].
  intros (body & tail & -> & -> & Hbody)%IH.
  exists (c :: body), tail. split; [done|]. split; [simpl; lia|].
  simpl. rewrite Hbody.
  by destruct (Ascii.eqb_spec c "034"), (Ascii.eqb_spec c "010").
Qed.

Lemma string_literal_sound : sound STRING string_literal.
Proof.
  intros before [|c rest] len; [done|]. simpl.
  destruct (Ascii.eqb_spec c "034") as [->|]; [|done].
  intros (body & tail & -> & -> & Hbody)%until_quote_spec.
  rewrite length_app. simpl. split; [lia|].
  cbn [Nat.add take lexeme Ascii.eqb Bool.eqb andb].
  replace (body ++ "034"%char :: tail) with ((body ++ ["034"%char]) ++ tail)
    by (by rewrite <- app_assoc).
  rewrite take_app_length' by (rewrite length_app; simpl; lia).
  rewrite reverse_app. simpl.
  rewrite forallb_forall in Hbody. apply forallb_forall.
  intros c Hc%list_elem_of_In. rewrite elem_of_reverse in Hc.
  by apply Hbody, list_elem_of_In.
Qed.

Lemma operator_sound : sound OP operator.
Proof.
  intros before rest len. unfold operator.
  destruct (existsb _ _) eqn:Htwo.
  - intros [= <-]. apply existsb_exists in Htwo as (op & Hin & Hs).
    apply starts_with_app in Hs as [tail ->].
    apply list_elem_of_In in Hin.
    repeat (apply elem_of_cons in Hin as [->|Hin]);
      [..|by apply elem_of_nil in Hin]; (split; [simpl; lia|done]).
  - destruct rest as [|c rest]; [done|].
    destruct (one_of _ c) eqn:Hone; [|done]. intros [= <-].
    split; [simpl; lia|]. unfold one_of in Hone.
    apply existsb_exists in Hone as (x & Hin & ->%Ascii.eqb_eq).
    apply list_elem_of_In in Hin.
    repeat (apply elem_of_cons in Hin as [->|Hin]);
      [..|by apply elem_of_nil in Hin]; done.
Qed.

Lemma single_sound k ch :
  lexeme k [ch] = true → sound k (single ch).
Proof.
  intros Hk before [|c rest] len; [done|]. simpl.
  destruct (Ascii.eqb_spec c ch) as [->|]; [|done]. intros [= <-].
  split; [lia|done].
Qed.

Lemma any_char_sound : sound MISMATCH any_char.
Proof.
  intros before [|c rest] len; [done|]. simpl.
  destruct (Ascii.eqb c "010"); [done|]. intros [= <-]. split; [lia|done].
Qed.

Lemma token_specification_sound :
  Forall (λ kp, sound kp.1 kp.2) token_specification.
Proof.
  unfold token_specification.
  repeat first
    [ apply Forall_nil_2
    | apply Forall_cons_2; cbn [fst snd];
      [ first [ by apply keyword_sound | apply identifier_sound
              | apply number_sound | apply string_literal_sound
              | apply operator_sound | by apply single_sound
              | apply whitespace_sound | apply any_char_sound ] |] ].
Qed.

Lemma first_match_sound spec before rest k len :
  Forall (λ kp, sound kp.1 kp.2) spec →
  first_match spec before rest = Some (k, len) →
  len ≤ length rest ∧ lexeme k (take len rest) = true.
Proof.
  induction 1 as [|[k' pat] spec Hpat _ IH]; [done|]. cbn [first_match].
  destruct (pat before rest) as [len'|] eqn:Hm; [|exact IH].
  intros [= <- <-]. by apply (Hpat before rest).
Qed.

(** The token regex matches wherever a character is left: a newline is
    white space, and any other character is matched at the latest by
    the last alternative. *)
Lemma first_match_none before rest :
  first_match token_specification before rest = None → rest = [].
Proof.
  destruct rest as [|c rest]; [done|]. intros Hnone. exfalso.
  assert (Hany : ∀ spec,
    first_match (spec ++ [(SKIP, whitespace); (MISMATCH, any_char)])
      before (c :: rest) ≠ None).
  { induction spec as [|[k pat] spec IH]; cbn [app first_match].
    - unfold whitespace, any_char. cbn [span].
      destruct (Ascii.eqb_spec c "010") as [->|Hc]; [done|].
      by destruct (one_of _ c).
    - by destruct (pat before (c :: rest)). }
  by apply (Hany (take 17 token_specification)).
Qed.

Lemma get_token_sound code pos k len :
  get_token code pos = Some (k, len) →
  pos + len ≤ length code ∧ lexeme k (take len (drop pos code)) = true.
Proof.
  unfold get_token. intros Hm.
  apply (first_match_sound _ _ _ _ _ token_specification_sound) in Hm
    as [Hlen Hk].
  rewrite length_drop in Hlen. split; [|done].
  destruct len; [by destruct k|lia].
Qed.

(** *** What the token list says about the text *)

(** The text is made of the texts of the tokens, in order, each of the
    form of its type, with nothing but runs of blanks before, between
    and after them. *)
Inductive scanned : list ascii → list token → Prop :=
  | scanned_end : scanned [] []
  | scanned_blanks w rest toks :
      lexeme SKIP w = true → scanned rest toks → scanned (w ++ rest) toks
  | scanned_token k w rest toks :
      k ≠ SKIP → k ≠ MISMATCH → lexeme k w = true → scanned rest toks →
      scanned (w ++ rest) (mkToken k (Some (string_of_list_ascii w)) :: toks).

Lemma drop_split (code : list ascii) pos len :
  drop pos code = take len (drop pos code) ++ drop (pos + len) code.
Proof. by rewrite <- (drop_drop code len pos), take_drop. Qed.

Lemma lexer_loop_scanned n code pos acc toks :
  lexer_loop n code pos acc = Ok toks →
  ∃ new, toks = acc ++ new ∧ scanned (drop pos code) new.
Proof.
  revert pos acc. induction n as [|n IH]; intros pos acc; cbn [lexer_loop];
    destruct (get_token code pos) as [[typ len]|] eqn:Hget; try done.
  - intros [= <-]. apply first_match_none in Hget. rewrite Hget.
    exists []. split; [by rewrite app_nil_r|constructor].
  - apply get_token_sound in Hget as [Hlen Hk].
    rewrite (drop_split code pos len).
    repeat case_decide; subst; [| done |].
    + intros (new & -> & Hnew)%IH. exists new. split; [done|].
      by apply scanned_blanks.
    + intros (new & -> & Hnew)%IH. eexists. rewrite <- app_assoc.
      split; [done|]. simpl. by apply scanned_token.
  - intros [= <-]. apply first_match_none in Hget. rewrite Hget.
    exists []. split; [by rewrite app_nil_r|constructor].
Qed.

Lemma lexer_scanned code toks :
  lexer code = Ok toks → scanned (list_ascii_of_string code) toks.
Proof.
  unfold lexer. intros (new & -> & Hnew)%lexer_loop_scanned. by rewrite drop_0 in Hnew.
Qed.

(** X12. What [lexer] returns accounts for the whole text: the text is
    the texts of the tokens in their order, separated (and possibly
    preceded and followed) by runs of spaces, tabs and newlines only;
    no token is of type [SKIP] or [MISMATCH], and the text of each token
    has the form of its type (a keyword is that word, an [ID] a letter
    or underscore followed by letters, digits and underscores, a [NUM]
    digits, a [STRING] a quote up to the next quote on the line, an
    [OP] one of the fourteen operators, a bracket or semicolon that
    character). *)
Theorem tokens_cover_the_text code toks :
  lexer code = Ok toks → scanned (list_ascii_of_string code) toks.
Proof. apply lexer_scanned. Qed.

Lemma tokens_cover_the_text_witness :
  let code := "x1 =  42;" in
  let toks := [mkToken ID (Some "x1"); mkToken OP (Some "=");
               mkToken NUM (Some "42"); mkToken SEMI (Some ";")] in
  lexer code = Ok toks ∧ scanned (list_ascii_of_string code) toks.
Proof.
  intros code toks.
  assert (Hrun : lexer code = Ok toks) by reflexivity.
  split; [exact Hrun|]. exact (tokens_cover_the_text code toks Hrun).
Defined.

Lemma scanned_valued text toks :
  scanned text toks → Forall (λ t, is_Some (tvalue t)) toks.
Proof. induction 1; [constructor|done|constructor; [by eexists|done]]. Qed.

Lemma lexer_valued code toks :
  lexer code = Ok toks → Forall (λ t, is_Some (tvalue t)) toks.
Proof. intros Hrun. eapply scanned_valued. by apply lexer_scanned. Qed.

(** *** How [lexer] ends *)

Lemma lexer_loop_raises n code pos acc e :
  lexer_loop n code pos acc = Raise e → ∃ msg, e = RuntimeError msg.
Proof.
  revert pos acc. induction n as [|n IH]; intros pos acc; cbn [lexer_loop];
    destruct (get_token code pos) as [[typ len]|]; try done.
  repeat case_decide; [apply IH| |apply IH].
  intros [= <-]. by eexists.
Qed.

Lemma lexer_outcome code :
  (∃ toks, lexer code = Ok toks) ∨ (∃ msg, lexer code = Raise (RuntimeError msg)).
Proof.
  pose proof (lexer_answers code) as Hfuel. unfold lexer in *.
  destruct (lexer_loop _ _ 0 []) as [toks|e|] eqn:Hrun;
    [by left; exists toks| |done].
  apply lexer_loop_raises in Hrun as [msg ->]. right. by exists msg.
Qed.

(** X13. [lexer] comes to an end on every text, since every match of
    the token regex consumes at least one character; it ends by
    returning the tokens or by raising its [RuntimeError] for a
    character no token starts with. *)
Theorem lexer_returns_or_raises code :
  (∃ toks, lexer code = Ok toks) ∨ (∃ msg, lexer code = Raise (RuntimeError msg)).
Proof. apply lexer_outcome. Qed.

End LexerMore.

(** ** More on the semantic analyzer *)

Module SemanticMore.
Import Semantic SemanticProps.

(** The two messages [semantic.py] can append. *)
Definition is_diagnostic (msg : string) : Prop :=
  ∃ x, msg = already_declared x ∨ msg = used_before x.

(** From [a] to [a']: no symbol is lost, and the diagnostics of [a] are
    followed by new ones, each of which is one of the two messages. *)
Definition grows (a a' : analyzer) : Prop :=
  symbols a ⊆ symbols a'
  ∧ ∃ new, errors a' = errors a ++ new ∧ Forall is_diagnostic new.

Lemma grows_refl a : grows a a.
Proof. split; [done|]. exists []. by rewrite app_nil_r. Qed.

Lemma grows_trans a1 a2 a3 : grows a1 a2 → grows a2 a3 → grows a1 a3.
Proof.
  intros [Hs1 (n1 & He1 & Hn1)] [Hs2 (n2 & He2 & Hn2)]. split; [set_solver|].
  exists (n1 ++ n2). rewrite He2, He1, app_assoc. split; [done|].
  by apply Forall_app.
Qed.

Section Respects.

Context {S : Type} (R : S → S → Prop).
Hypothesis R_refl : ∀ s, R s s.
Hypothesis R_trans : ∀ s1 s2 s3, R s1 s2 → R s2 s3 → R s1 s3.

Lemma respects_ret {A} (x : A) : respects R (ret x).
Proof. intros s. apply R_refl. Qed.

Lemma respects_raise {A} e : respects R (raise e : M S A).
Proof. by intros s. Qed.

Lemma respects_bind {A B} (m : M S A) (k : A → M S B) :
  respects R m → (∀ x, respects R (k x)) → respects R (bind m k).
Proof.
  intros Hm Hk s. apply wp_bind. eapply wp_mono; [apply Hm|].
  intros x s1 H1. eapply wp_mono; [apply Hk|].
  intros y s2 H2. by apply (R_trans _ s1).
Qed.

Lemma respects_get_child ch i : respects R (get_child ch i : M S _).
Proof.
  unfold get_child. destruct (ch !! i); [apply respects_ret|apply respects_raise].
Qed.

Lemma respects_attr_value n : respects R (attr_value n : M S _).
Proof.
  unfold attr_value. destruct n; [apply respects_ret|apply respects_raise].
Qed.

Lemma respects_call rec i :
  Forall (respects_slot R) rec → respects R (call rec i).
Proof. intros Hrec s. by apply (wp_call R). Qed.

Lemma respects_for_children rec :
  Forall (respects_slot R) rec → respects R (for_children rec).
Proof. intros Hrec s. by apply (wp_for_children R). Qed.

End Respects.

Lemma grows_get_symbols : respects grows get_symbols.
Proof. intros a. apply grows_refl. Qed.

Lemma grows_add_error x :
  respects grows (add_error (already_declared x))
  ∧ respects grows (add_error (used_before x)).
Proof.
  split; intros a; (split; [done|]); eexists; (split; [done|]);
    apply Forall_singleton; exists x; auto.
Qed.

Lemma grows_add_symbol x : respects grows (add_symbol x).
Proof.
  intros a. split; [simpl; set_solver|]. exists []. simpl.
  by rewrite app_nil_r.
Qed.

Ltac respects_steps R Hrefl Htrans extra :=
  repeat first
    [ apply (respects_bind R Htrans); [|intros ?]
    | case_decide
    | case_match
    | apply (respects_ret R Hrefl)
    | apply (respects_raise R)
    | apply (respects_get_child R Hrefl)
    | apply (respects_attr_value R Hrefl)
    | apply (respects_call R); assumption
    | apply (respects_for_children R Hrefl Htrans); assumption
    | extra ].

Ltac unfold_visits :=
  unfold visit_var_decl, visit_assign, visit_id, visit_if_stmt, visit_while,
    visit_for, call_if_present, visit_do_while, visit_return_stmt,
    generic_visit.

Lemma grows_dispatch ty v ch rec :
  Forall (respects_slot grows) rec → respects grows (dispatch ty v ch rec).
Proof.
  intros Hrec. unfold dispatch.
  repeat case_match; unfold_visits;
    respects_steps grows grows_refl grows_trans
      ltac:(first [ apply grows_get_symbols | apply grows_add_symbol
                  | apply grows_add_error ]).
Qed.

Lemma analyze_grows n : respects grows (analyze n).
Proof.
  induction n as [ty v ch IH] using ASTNode_tree_ind. simpl.
  apply grows_dispatch.
  by apply (Forall_visits (λ n, respects grows (analyze n))).
Qed.

(** X1. [analyze] never removes a name from [symbols], and it only
    appends to [errors]: the diagnostics recorded before the call are
    kept, in order, in front of the new ones. *)
Theorem analysis_only_adds n a a' :
  analyze n a = Ok (tt, a') →
  symbols a ⊆ symbols a' ∧ errors a `prefix_of` errors a'.
Proof.
  intros Hrun.
  destruct (wp_ok _ _ _ _ _ (analyze_grows n a) Hrun) as [Hs (new & He & _)].
  split; [done|]. by exists new.
Qed.

Lemma analysis_only_adds_witness :
  let a := mkAnalyzer {[Some "y"]} ["earlier"] in
  let n := Node "compound_stmt" None [Some (decl "x"); Some (decl "y")] in
  let a' := mkAnalyzer ({[Some "x"]} ∪ {[Some "y"]})
              ["earlier"; already_declared (Some "y")] in
  analyze n a = Ok (tt, a')
  ∧ symbols a ⊆ symbols a' ∧ errors a `prefix_of` errors a'.
Proof.
  intros a n a'.
  assert (Hrun : analyze n a = Ok (tt, a')).
  { change (analyze n a) with (analyze_all [Some (decl "x"); Some (decl "y")] a).
    rewrite analyze_all_cons. unfold bind. rewrite analyze_decl.
    rewrite decide_False by (subst a; simpl; set_solver).
    rewrite analyze_all_cons. unfold bind. rewrite analyze_decl.
    rewrite decide_True by (subst a; simpl; set_solver). done. }
  split; [exact Hrun|]. exact (analysis_only_adds n a a' Hrun).
Defined.

(** X2. Every diagnostic that [analyze] appends is one of the two
    messages of [semantic.py]: "Variable ... already declared" or
    "Variable ... used before declaration". *)
Theorem diagnostics_are_of_two_kinds n a a' :
  analyze n a = Ok (tt, a') →
  ∃ new, errors a' = errors a ++ new ∧ Forall is_diagnostic new.
Proof.
  intros Hrun. by destruct (wp_ok _ _ _ _ _ (analyze_grows n a) Hrun).
Qed.

Lemma diagnostics_are_of_two_kinds_witness :
  let n := Node "assign" None [Some (leaf "id" "x"); Some (leaf "id" "y")] in
  let a' := mkAnalyzer ∅ [used_before (Some "x"); used_before (Some "y")] in
  analyze n init = Ok (tt, a')
  ∧ ∃ new, errors a' = errors init ++ new ∧ Forall is_diagnostic new.
Proof.
  intros n a'.
  assert (Hrun : analyze n init = Ok (tt, a')) by reflexivity.
  split; [exact Hrun|]. exact (diagnostics_are_of_two_kinds n init a' Hrun).
Defined.

(** *** Only declarations change the symbols *)

(** No node of the tree is a [var_decl]. *)
Fixpoint declaration_free (n : ASTNode) : bool :=
  match n with
  | Node ty _ ch =>
      negb (String.eqb ty "var_decl")
      && forallb (λ c, match c with
                       | Some m => declaration_free m
                       | None => true
                       end) ch
  end.

Definition same_symbols (a a' : analyzer) : Prop := symbols a' = symbols a.

Lemma same_symbols_refl a : same_symbols a a.
Proof. done. Qed.

Lemma same_symbols_trans a1 a2 a3 :
  same_symbols a1 a2 → same_symbols a2 a3 → same_symbols a1 a3.
Proof. unfold same_symbols. congruence. Qed.

Lemma analyze_same_symbols n :
  declaration_free n = true → respects same_symbols (analyze n).
Proof.
  induction n as [ty v ch IH] using ASTNode_tree_ind. cbn [declaration_free].
  intros [Hty Hch]%andb_true_iff. apply negb_true_iff in Hty.
  assert (Hrec : Forall (respects_slot same_symbols)
                   (map (option_map analyze) ch)).
  { clear Hty. induction IH as [|[m|] ch Hm _ IHch]; simpl in *;
      [done| |].
    - apply andb_true_iff in Hch as [Hm' Hch]. constructor; simpl; auto.
    - constructor; simpl; auto. }
  cbn [analyze]. unfold dispatch. rewrite Hty.
  repeat case_match; unfold_visits;
    respects_steps same_symbols same_symbols_refl same_symbols_trans
      ltac:(by intros ?).
Qed.

(** X3. Only declarations change the symbol set: analyzing a tree
    without any [var_decl] node, from any state, leaves [symbols] as it
    was. *)
Theorem only_declarations_change_symbols n a a' :
  declaration_free n = true →
  analyze n a = Ok (tt, a') →
  symbols a' = symbols a.
Proof.
  intros Hfree Hrun.
  exact (wp_ok _ _ _ _ _ (analyze_same_symbols n Hfree a) Hrun).
Qed.

Lemma only_declarations_change_symbols_witness :
  let n := Node "return_stmt" None [Some (leaf "id" "i")] in
  let a := mkAnalyzer {[Some "i"]} ["earlier"] in
  declaration_free n = true
  ∧ analyze n a = Ok (tt, a)
  ∧ symbols a = symbols a.
Proof.
  intros n a.
  assert (Hrun : analyze n a = Ok (tt, a)).
  { change (analyze n a) with (analyze (leaf "id" "i") a).
    apply analyze_id_declared. subst a. simpl. set_solver. }
  split; [reflexivity|]. split; [exact Hrun|].
  exact (only_declarations_change_symbols n a a eq_refl Hrun).
Defined.

End SemanticMore.

(** ** The trees the parser builds *)

Module ParserShapes.
Import Parser ParserProps.

(** A node of type [ty] without children. *)
Definition is_leaf (ty : string) (n : ASTNode) : bool :=
  match n with
  | Node t _ [] => String.eqb t ty
  | _ => false
  end.

(** An expression: a [num] or [id] leaf, or a [comparison],
    [arith_expr] or [term] node over two expressions. *)
Fixpoint wf_expr (n : ASTNode) : bool :=
  match n with
  | Node ty _ ch =>
      match ch with
      | [] => in_types ty ["num"; "id"]
      | [Some l; Some r] =>
          in_types ty ["comparison"; "arith_expr"; "term"]
          && wf_expr l && wf_expr r
      | _ => false
      end
  end.

Definition opt_all (p : ASTNode → bool) (c : option ASTNode) : bool :=
  match c with Some n => p n | None => true end.

(** A statement; with [block] also a [compound_stmt] of statements, as
    the body of an [if] or of a loop may be.  Each kind of node has the
    child slots its rule of the grammar fills; only the three clauses of
    a [for] may be [None]. *)
Fixpoint wf_node (block : bool) (n : ASTNode) : bool :=
  match n with
  | Node ty v ch =>
      if String.eqb ty "compound_stmt" then
        block
        && forallb (λ c, match c with
                         | Some s => wf_node false s
                         | None => false
                         end) ch
      else if String.eqb ty "var_decl" then
        match ch with
        | [Some t; Some i] => is_leaf "type" t && is_leaf "id" i
        | [Some t; Some i; Some e] =>
            is_leaf "type" t && is_leaf "id" i && wf_expr e
        | _ => false
        end
      else if String.eqb ty "assign" then
        match ch with
        | [Some i; Some e] => is_leaf "id" i && wf_expr e
        | _ => false
        end
      else if String.eqb ty "return_stmt" then
        match ch with
        | [Some e] => wf_expr e
        | _ => false
        end
      else if String.eqb ty "stmt" then
        match ch with
        | [] => bool_decide (is_Some v)
        | _ => false
        end
      else if String.eqb ty "if_stmt" then
        match ch with
        | [Some c; Some t] => wf_expr c && wf_node true t
        | [Some c; Some t; Some e] =>
            wf_expr c && wf_node true t && wf_node true e
        | _ => false
        end
      else if String.eqb ty "while" then
        match ch with
        | [Some c; Some b] => wf_expr c && wf_node true b
        | _ => false
        end
      else if String.eqb ty "for" then
        match ch with
        | [i; c; u; Some b] =>
            match i with
            | Some s =>
                in_types (ntype s) ["var_decl"; "assign"] && wf_node false s
            | None => true
            end
            && opt_all wf_expr c
            && match u with
               | Some s => String.eqb (ntype s) "assign" && wf_node false s
               | None => true
               end
            && wf_node true b
        | _ => false
        end
      else if String.eqb ty "do_while" then
        match ch with
        | [Some b; Some c] => wf_node true b && wf_expr c
        | _ => false
        end
      else false
  end.

Definition wf_stmt : ASTNode → bool := wf_node false.
Definition wf_body : ASTNode → bool := wf_node true.

(** [program] over [function] over the type, the name [main] and the
    block of statements. *)
Definition wf_program (n : ASTNode) : bool :=
  match n with
  | Node ty _ [Some (Node fty _ [Some t; Some m; Some b])] =>
      String.eqb ty "program" && String.eqb fty "function"
      && is_leaf "type" t && is_leaf "main" m
      && String.eqb (ntype b) "compound_stmt" && wf_body b
  | _ => false
  end.

Lemma in_types_elem ty l : in_types ty l = true → ty ∈ l.
Proof.
  unfold in_types. intros (x & Hin & Heq)%existsb_exists.
  apply String.eqb_eq in Heq as ->. by apply list_elem_of_In.
Qed.

Lemma is_leaf_inv ty n : is_leaf ty n = true → ∃ v, n = Node ty v [].
Proof.
  destruct n as [t v [|? ?]]; [|done]. simpl.
  intros ->%String.eqb_eq. by exists v.
Qed.

(** In [wf_node] the type of the node selects the rule. *)
Ltac by_type ty :=
  repeat match goal with
         | |- context [String.eqb ty ?s] =>
             destruct (String.eqb_spec ty s) as [->|?]
         end.

(** *** What a parser method returns *)

Section Yields.

Variable ts : list token.

(** Whatever [m] returns satisfies [P]. *)
Definition yields {A} (m : M nat A) (P : A → Prop) : Prop :=
  ∀ pos a pos', m pos = Ok (a, pos') → P a.

Lemma yields_ret {A} (a : A) (P : A → Prop) : P a → yields (ret a) P.
Proof. by intros Ha pos b pos' [= <- _]. Qed.

Lemma yields_raise {A} e (P : A → Prop) : yields (raise e) P.
Proof. by intros pos a pos'. Qed.

Lemma yields_bind {A B} (m : M nat A) (k : A → M nat B) Q (P : B → Prop) :
  yields m Q → (∀ a, Q a → yields (k a) P) → yields (bind m k) P.
Proof.
  intros Hm Hk pos b pos' Hrun.
  apply bind_inv_ok in Hrun as (a & pos1 & Hrun1 & Hrun2).
  eapply Hk; [|exact Hrun2]. by eapply Hm.
Qed.

Lemma yields_then {A B} (m : M nat A) (k : A → M nat B) (P : B → Prop) :
  (∀ a, yields (k a) P) → yields (bind m k) P.
Proof.
  intros Hk. apply (yields_bind _ _ (λ _, True)); [done|]. intros a _. apply Hk.
Qed.

Lemma yields_while {A} n test (step : A → M nat A) acc (P : A → Prop) :
  P acc → (∀ acc, P acc → yields (step acc) P) →
  yields (while_current ts n test step acc) P.
Proof.
  intros Hacc Hstep. revert acc Hacc.
  induction n as [|n IH]; intros acc Hacc; cbn [while_current];
    apply yields_then; intros cur; destruct (test cur);
    try by apply yields_ret.
  - by intros pos a pos'.
  - eapply yields_bind; [by apply Hstep|]. intros acc' Hacc'. by apply IH.
Qed.

End Yields.

Ltac yields_steps tac :=
  repeat first
    [ apply yields_ret
    | apply yields_raise
    | case_decide
    | case_match
    | eapply yields_bind;
        [solve [eassumption | tac]|intros ? ?; cbv beta in *]
    | apply yields_then; intros ? ].

Ltac wf_done :=
  unfold wf_stmt, wf_body in *;
  cbn; repeat match goal with H : _ = true |- _ => rewrite H; clear H end;
  done.

Section Rules.

Variable ts : list token.

Definition expr_ok (n : ASTNode) : Prop := wf_expr n = true.
Definition stmt_ok (n : ASTNode) : Prop := wf_stmt n = true.
Definition body_ok (n : ASTNode) : Prop := wf_body n = true.

Section Expressions.

Variable expr : M nat ASTNode.
Hypothesis Hexpr : yields expr expr_ok.

Lemma yields_factor : yields (factor ts expr) expr_ok.
Proof. unfold factor. yields_steps fail; by unfold expr_ok in *. Qed.

Lemma yields_binary_step kind operand node :
  in_types kind ["comparison"; "arith_expr"; "term"] = true →
  yields operand expr_ok → expr_ok node →
  yields (binary_step ts kind operand node) expr_ok.
Proof.
  intros Hkind Hoperand Hnode. unfold binary_step. yields_steps fail.
  unfold expr_ok in *. cbn [wf_expr]. by rewrite Hkind, Hnode, H.
Qed.

Lemma yields_term : yields (term ts expr) expr_ok.
Proof.
  unfold term. eapply yields_bind; [apply yields_factor|]. intros node Hnode.
  apply yields_while; [done|]. intros acc Hacc.
  apply yields_binary_step; [done|apply yields_factor|done].
Qed.

Lemma yields_arith_expr : yields (arith_expr ts expr) expr_ok.
Proof.
  unfold arith_expr. eapply yields_bind; [apply yields_term|].
  intros node Hnode. apply yields_while; [done|]. intros acc Hacc.
  apply yields_binary_step; [done|apply yields_term|done].
Qed.

Lemma yields_expr_body : yields (expr_body ts expr) expr_ok.
Proof.
  unfold expr_body. eapply yields_bind; [apply yields_arith_expr|].
  intros node Hnode. apply yields_then. intros cur.
  case_match; [|by apply yields_ret].
  change (yields (binary_step ts "comparison" (arith_expr ts expr) node) expr_ok).
  apply yields_binary_step; [done|apply yields_arith_expr|done].
Qed.

End Expressions.

Lemma yields_expr fuel : yields (expr ts fuel) expr_ok.
Proof.
  induction fuel as [|fuel IH]; [by intros pos a pos'|].
  by apply (yields_expr_body (expr ts fuel)).
Qed.

Lemma yields_type_spec : yields (type_spec ts) (λ n, is_leaf "type" n = true).
Proof. unfold type_spec. by yields_steps fail. Qed.

Section Statements.

Variables expr stmt compound_stmt : M nat ASTNode.
Hypothesis Hexpr : yields expr expr_ok.
Hypothesis Hstmt : yields stmt stmt_ok.
Hypothesis Hcompound :
  yields compound_stmt (λ n, ntype n = "compound_stmt" ∧ body_ok n).

Lemma yields_var_decl :
  yields (var_decl ts expr) (λ n, ntype n = "var_decl" ∧ stmt_ok n).
Proof.
  unfold var_decl. yields_steps ltac:(apply yields_type_spec);
    (split; [done|]); unfold stmt_ok, expr_ok in *; wf_done.
Qed.

Lemma yields_assign_stmt :
  yields (assign_stmt ts expr) (λ n, ntype n = "assign" ∧ stmt_ok n).
Proof.
  unfold assign_stmt. yields_steps fail;
    (split; [done|]); unfold stmt_ok, expr_ok in *; wf_done.
Qed.

Lemma yields_assign_expr :
  yields (assign_expr ts expr) (λ n, ntype n = "assign" ∧ stmt_ok n).
Proof.
  unfold assign_expr. yields_steps fail;
    (split; [done|]); unfold stmt_ok, expr_ok in *; wf_done.
Qed.

Lemma yields_return_stmt : yields (return_stmt ts expr) stmt_ok.
Proof.
  unfold return_stmt. yields_steps fail; unfold stmt_ok, expr_ok in *; wf_done.
Qed.

Lemma yields_generic_stmt : yields (generic_stmt ts) stmt_ok.
Proof.
  intros pos n pos'. rewrite generic_stmt_eq.
  destruct (join_values _ _); [|done..]. by intros [= <- _].
Qed.

Lemma stmt_ok_body n : stmt_ok n → body_ok n.
Proof.
  unfold stmt_ok, body_ok, wf_stmt, wf_body. destruct n as [ty v ch].
  cbn [wf_node]. destruct (String.eqb ty "compound_stmt"); [|done].
  by intros [? _]%andb_true_iff.
Qed.

Lemma yields_body : yields (body ts stmt compound_stmt) body_ok.
Proof.
  unfold body. apply yields_then. intros cur. case_decide.
  - intros pos n pos' Hrun. by destruct (Hcompound _ _ _ Hrun).
  - intros pos n pos' Hrun. apply stmt_ok_body. by eapply Hstmt.
Qed.

Ltac rules :=
  first [ apply yields_body | apply yields_var_decl | apply yields_assign_stmt
        | apply yields_assign_expr ].

Lemma yields_if_stmt : yields (if_stmt ts expr stmt compound_stmt) stmt_ok.
Proof.
  unfold if_stmt. yields_steps rules;
    unfold stmt_ok, body_ok, expr_ok in *; wf_done.
Qed.

Lemma yields_while_stmt : yields (while_stmt ts expr stmt compound_stmt) stmt_ok.
Proof.
  unfold while_stmt. yields_steps rules;
    unfold stmt_ok, body_ok, expr_ok in *; wf_done.
Qed.

Lemma yields_do_while_stmt :
  yields (do_while_stmt ts expr stmt compound_stmt) stmt_ok.
Proof.
  unfold do_while_stmt. yields_steps rules;
    unfold stmt_ok, body_ok, expr_ok in *; wf_done.
Qed.

Lemma yields_for_stmt : yields (for_stmt ts expr stmt compound_stmt) stmt_ok.
Proof.
  unfold for_stmt. do 3 (apply yields_then; intros ?).
  apply (yields_bind _ _
           (λ i, match i with
                 | Some s => in_types (ntype s) ["var_decl"; "assign"] = true
                             ∧ stmt_ok s
                 | None => True
                 end)).
  { yields_steps rules; try done;
      match goal with H : _ ∧ _ |- _ => destruct H as [-> ?] end; done. }
  intros init Hinit. apply yields_then; intros ?.
  apply (yields_bind _ _ (λ c, opt_all wf_expr c = true)).
  { by yields_steps rules. }
  intros cond Hcond. apply yields_then; intros ?.
  apply (yields_bind _ _
           (λ u, match u with
                 | Some s => ntype s = "assign" ∧ stmt_ok s
                 | None => True
                 end)).
  { by yields_steps rules. }
  intros upd Hupd. yields_steps rules; subst;
    unfold stmt_ok, body_ok, wf_stmt, wf_body in *;
    cbn [wf_node String.eqb Ascii.eqb Bool.eqb];
    repeat match goal with H : _ ∧ _ |- _ => destruct H as [? ?] end;
    repeat match goal with H : _ = _ |- _ => rewrite H end; done.
Qed.

Lemma yields_stmt_body :
  yields (stmt_body ts expr stmt compound_stmt) stmt_ok.
Proof.
  unfold stmt_body. apply yields_then; intros tok.
  repeat case_decide;
    first [ apply yields_if_stmt | apply yields_return_stmt
          | apply yields_while_stmt | apply yields_for_stmt
          | apply yields_do_while_stmt | apply yields_raise | idtac ].
  - intros pos n pos' Hrun. by destruct (yields_var_decl _ _ _ Hrun).
  - apply yields_then; intros next. case_match; [|apply yields_generic_stmt].
    intros pos n pos' Hrun. by destruct (yields_assign_stmt _ _ _ Hrun).
Qed.

End Statements.

Lemma yields_compound_stmt_body stmt :
  yields stmt stmt_ok →
  yields (compound_stmt_body ts stmt)
    (λ n, ntype n = "compound_stmt" ∧ body_ok n).
Proof.
  intros Hstmt. unfold compound_stmt_body. apply yields_then; intros ?.
  apply (yields_bind _ _
           (λ l, forallb (λ c, match c with
                               | Some s => wf_node false s
                               | None => false
                               end) l = true)).
  { apply yields_while; [done|]. intros acc Hacc.
    eapply yields_bind; [exact Hstmt|]. intros s Hs. apply yields_ret.
    unfold stmt_ok, wf_stmt in Hs. rewrite forallb_app, Hacc. cbn.
    by rewrite Hs. }
  intros stmts Hstmts. apply yields_then; intros ?. apply yields_ret.
  split; [done|]. unfold body_ok, wf_body. cbn. exact Hstmts.
Qed.

Lemma yields_stmt fuel : yields (stmt ts fuel) stmt_ok.
Proof.
  induction fuel as [|fuel IH]; [by intros pos a pos'|].
  apply (yields_stmt_body (expr ts (S fuel)) (stmt ts fuel)
           (compound_stmt_body ts (stmt ts fuel))).
  - apply yields_expr.
  - exact IH.
  - by apply yields_compound_stmt_body.
Qed.

Lemma yields_program fuel :
  yields (program ts fuel) (λ n, wf_program n = true).
Proof.
  unfold program, function, compound_stmt.
  eapply yields_bind; [|intros f Hf; apply yields_ret; exact Hf].
  eapply yields_bind; [apply yields_type_spec|]. intros ty Hty.
  do 3 (apply yields_then; intros ?).
  eapply yields_bind; [apply yields_compound_stmt_body, yields_stmt|].
  intros b [Hb1 Hb2]. apply yields_ret.
  cbn. rewrite Hty, Hb1, Hb2. done.
Qed.

End Rules.

Lemma parse_wf tokens ast : parse tokens = Ok ast → wf_program ast = true.
Proof.
  unfold parse, parse_from.
  destruct (program tokens (length tokens) 0) as [[n pos]| |] eqn:Hrun;
    [|done..].
  intros [= <-]. exact (yields_program tokens _ _ _ _ Hrun).
Qed.

(** X4. Every tree [parse] returns is a [program] over a [function]
    over the type, the name [main] and a block; in the block every
    statement node has the child slots of its rule ([var_decl] two or
    three, [assign] two, [return_stmt] one, [stmt] none, [if_stmt] two
    or three, [while] and [do_while] two, [for] four, of which only the
    three clauses may be [None]), and every expression is a [num] or
    [id] leaf or a binary node over expressions. *)
Theorem parsed_trees_are_well_formed tokens ast :
  parse tokens = Ok ast → wf_program ast = true.
Proof. apply parse_wf. Qed.

Lemma parsed_trees_are_well_formed_witness :
  let tokens :=
    [mkToken INT (Some "int"); mkToken MAIN (Some "main");
     mkToken LPAREN (Some "("); mkToken RPAREN (Some ")");
     mkToken LBRACE (Some "{");
     mkToken FOR (Some "for"); mkToken LPAREN (Some "(");
     mkToken SEMI (Some ";"); mkToken SEMI (Some ";");
     mkToken RPAREN (Some ")");
     mkToken ID (Some "x"); mkToken OP (Some "=");
     mkToken NUM (Some "1"); mkToken SEMI (Some ";");
     mkToken RBRACE (Some "}")] in
  let ast :=
    main_program
      [Some (Node "for" None
               [None; None; None;
                Some (Node "assign" None
                        [Some (leaf "id" "x"); Some (leaf "num" "1")])])] in
  parse tokens = Ok ast ∧ wf_program ast = true.
Proof.
  intros tokens ast.
  assert (Hrun : parse tokens = Ok ast) by reflexivity.
  split; [exact Hrun|]. exact (parsed_trees_are_well_formed tokens ast Hrun).
Defined.

End ParserShapes.

(** ** More on the parser *)

Module ParserMore.
Import Parser ParserProps ParserShapes.

(** *** The type of the node each statement rule returns *)

Section NodeTypes.

Variable ts : list token.
Variables expr stmt compound_stmt : M nat ASTNode.

Definition of_type (ty : string) (n : ASTNode) : Prop := ntype n = ty.

Lemma var_decl_type : yields (var_decl ts expr) (of_type "var_decl").
Proof. unfold var_decl. by yields_steps fail. Qed.

Lemma assign_stmt_type : yields (assign_stmt ts expr) (of_type "assign").
Proof. unfold assign_stmt. by yields_steps fail. Qed.

Lemma return_stmt_type : yields (return_stmt ts expr) (of_type "return_stmt").
Proof. unfold return_stmt. by yields_steps fail. Qed.

Lemma generic_stmt_type : yields (generic_stmt ts) (of_type "stmt").
Proof. unfold generic_stmt. by yields_steps fail. Qed.

Lemma while_stmt_type :
  yields (while_stmt ts expr stmt compound_stmt) (of_type "while").
Proof. unfold while_stmt. by yields_steps fail. Qed.

Lemma for_stmt_type :
  yields (for_stmt ts expr stmt compound_stmt) (of_type "for").
Proof. unfold for_stmt. by yields_steps fail. Qed.

Lemma do_while_stmt_type :
  yields (do_while_stmt ts expr stmt compound_stmt) (of_type "do_while").
Proof. unfold do_while_stmt. by yields_steps fail. Qed.

(** An [if] without an [else] branch is returned in front of a token
    that is not [else]. *)
Lemma if_stmt_without_else pos v c t pos' :
  if_stmt ts expr stmt compound_stmt pos = Ok (Node "if_stmt" v [c; t], pos') →
  ttype (token_at ts pos') ≠ ELSE.
Proof.
  unfold if_stmt. intros Hrun.
  do 5 (apply bind_inv_ok in Hrun as (? & ? & _ & Hrun)).
  apply bind_inv_ok in Hrun as (cur & p & [= <- <-] & Hrun).
  case_decide as Helse; [|unfold ret in Hrun; by simplify_eq].
  apply bind_inv_ok in Hrun as (? & ? & _ & Hrun).
  apply bind_inv_ok in Hrun as (? & ? & _ & Hrun). done.
Qed.

End NodeTypes.

(** X6. An [else] belongs to the nearest [if]: whenever [stmt] returns
    an [if_stmt] node without else branch, the token the parser stands
    at is not [else] (had it been, the rule would have taken it as the
    else branch of this [if]). *)
Theorem else_belongs_to_the_nearest_if ts fuel pos v c t pos' :
  stmt ts fuel pos = Ok (Node "if_stmt" v [c; t], pos') →
  ttype (token_at ts pos') ≠ ELSE.
Proof.
  destruct fuel as [|fuel]; [done|]. cbn [stmt]. unfold stmt_body.
  intros Hrun. apply bind_inv_ok in Hrun as (tok & p & [= <- <-] & Hrun).
  repeat case_decide.
  - by apply var_decl_type in Hrun.
  - apply bind_inv_ok in Hrun as (next & p & [= <- <-] & Hrun).
    case_match; [by apply assign_stmt_type in Hrun|].
    by apply generic_stmt_type in Hrun.
  - by eapply if_stmt_without_else.
  - by apply return_stmt_type in Hrun.
  - by apply while_stmt_type in Hrun.
  - by apply for_stmt_type in Hrun.
  - by apply do_while_stmt_type in Hrun.
  - done.
Qed.

Lemma else_belongs_to_the_nearest_if_witness :
  let ts :=
    [mkToken IF (Some "if"); mkToken LPAREN (Some "("); mkToken ID (Some "a");
     mkToken RPAREN (Some ")");
     mkToken IF (Some "if"); mkToken LPAREN (Some "("); mkToken ID (Some "b");
     mkToken RPAREN (Some ")");
     mkToken ID (Some "x"); mkToken OP (Some "="); mkToken NUM (Some "1");
     mkToken SEMI (Some ";");
     mkToken ELSE (Some "else");
     mkToken ID (Some "y"); mkToken OP (Some "="); mkToken NUM (Some "2");
     mkToken SEMI (Some ";"); mkToken RBRACE (Some "}")] in
  let set x n :=
    Node "assign" None [Some (leaf "id" x); Some (leaf "num" n)] in
  let inner :=
    Node "if_stmt" None
      [Some (leaf "id" "b"); Some (set "x" "1"); Some (set "y" "2")] in
  stmt ts 3 0 = Ok (Node "if_stmt" None [Some (leaf "id" "a"); Some inner], 17)
  ∧ ttype (token_at ts 17) ≠ ELSE.
Proof.
  intros ts set inner.
  assert (Hrun : stmt ts 3 0
                 = Ok (Node "if_stmt" None [Some (leaf "id" "a"); Some inner], 17))
    by reflexivity.
  split; [exact Hrun|].
  exact (else_belongs_to_the_nearest_if ts 3 0 _ _ _ 17 Hrun).
Defined.

(** *** Where a program starts and stops *)

Lemma while_current_monotone {A} ts n test (step : A → M nat A) acc pos r pos' :
  (∀ acc p acc' p', step acc p = Ok (acc', p') → p ≤ p') →
  while_current ts n test step acc pos = Ok (r, pos') → pos ≤ pos'.
Proof.
  intros Hstep. revert acc pos.
  induction n as [|n IH]; intros acc pos.
  - rewrite ParserTotal.while_current_0. case_match; [done|].
    intros [= _ <-]. lia.
  - rewrite ParserTotal.while_current_S. case_match; [|intros [= _ <-]; lia].
    destruct (step acc pos) as [[acc1 pos1]| |] eqn:Hrun; [|done..].
    intros Hloop. apply IH in Hloop. apply Hstep in Hrun. lia.
Qed.

Lemma stmt_monotone ts fuel pos n pos' :
  stmt ts fuel pos = Ok (n, pos') → pos ≤ pos'.
Proof.
  intros Hrun. by destruct (ext_ok_stmt ts [] fuel fuel (le_n _) _ _ _ Hrun).
Qed.

(** X7. [parse] demands the header [int main ( ) {]: a token list it
    accepts starts with tokens of these five types, and the parser
    stops right behind a closing brace, at least six tokens in and not
    beyond the end. *)
Theorem a_program_is_int_main_and_a_block tokens ast pos :
  parse_from tokens = Ok (ast, pos) →
  map ttype (take 5 tokens) = [INT; MAIN; LPAREN; RPAREN; LBRACE]
  ∧ 6 ≤ pos ≤ length tokens
  ∧ ttype (token_at tokens (pos - 1)) = RBRACE.
Proof.
  unfold parse_from. intros Hrun.
  pose proof (program_stops_inside _ _ _ _ Hrun) as Hle.
  unfold program, function, compound_stmt, compound_stmt_body, type_spec in Hrun.
  inv_run. subst.
  match goal with
  | H : while_current _ _ _ _ _ _ = Ok (_, ?p) |- _ =>
      assert (5 ≤ p) as Hp;
      [ eapply while_current_monotone; [|exact H];
        intros acc p1 acc' p2 Hstep;
        apply bind_inv_ok in Hstep as (s & p3 & Hstmt & [= _ <-]);
        by eapply stmt_monotone
      | clear H ]
  end.
  split; [|split; [lia|]].
  - destruct tokens as [|t0 [|t1 [|t2 [|t3 [|t4 rest]]]]];
      cbn in *; try by simplify_eq.
    rewrite take_0. simpl. congruence.
  - by rewrite Nat.sub_succ, Nat.sub_0_r.
Qed.

Lemma a_program_is_int_main_and_a_block_witness :
  let tokens :=
    [mkToken INT (Some "int"); mkToken MAIN (Some "main");
     mkToken LPAREN (Some "("); mkToken RPAREN (Some ")");
     mkToken LBRACE (Some "{"); mkToken RBRACE (Some "}");
     mkToken ID (Some "trailing")] in
  parse_from tokens = Ok (main_program [], 6)
  ∧ map ttype (take 5 tokens) = [INT; MAIN; LPAREN; RPAREN; LBRACE]
  ∧ 6 ≤ 6 ≤ length tokens
  ∧ ttype (token_at tokens (6 - 1)) = RBRACE.
Proof.
  intros tokens.
  assert (Hrun : parse_from tokens = Ok (main_program [], 6)) by reflexivity.
  split; [exact Hrun|].
  exact (a_program_is_int_main_and_a_block tokens _ 6 Hrun).
Defined.

(** X8. A token list that does not start with an [INT] token is
    rejected by the first [eat]: [parse] raises the [RuntimeError] that
    names the type and the text of the token found (for the empty list,
    the end marker [EOF] with value [None]). *)
Theorem parse_rejects_a_wrong_first_token tokens :
  ttype (token_at tokens 0) ≠ INT →
  parse tokens
  = Raise (RuntimeError
             ("Expected token type INT but got "
              +:+ kind_name (ttype (token_at tokens 0))
              +:+ " (" +:+ py_str (tvalue (token_at tokens 0)) +:+ ")")).
Proof.
  intros Hne. unfold parse, parse_from, program, function, type_spec.
  unfold bind at 1. unfold bind at 1. unfold bind at 1.
  unfold eat, bind, current. by rewrite decide_False.
Qed.

Lemma parse_rejects_a_wrong_first_token_witness :
  ttype (token_at [] 0) ≠ INT
  ∧ parse [] = Raise (RuntimeError "Expected token type INT but got EOF (None)").
Proof.
  split; [done|]. exact (parse_rejects_a_wrong_first_token [] ltac:(done)).
Defined.

(** *** Precedence and associativity *)

(** The token a run of tokens starts with; the end marker when it is
    empty. *)
Definition head_tok (l : list token) : token := default EOF_token (head l).

Lemma drop_head ts pos l : drop pos ts = l → token_at ts pos = head_tok l.
Proof.
  intros <-. unfold token_at, head_tok.
  by rewrite head_lookup, lookup_drop, Nat.add_0_r.
Qed.

Lemma drop_head_cons ts pos t l : drop pos ts = t :: l → token_at ts pos = t.
Proof. intros Hdrop. by rewrite (drop_head _ _ _ Hdrop). Qed.

Lemma drop_cons_lt ts pos (t : token) l : drop pos ts = t :: l → pos < length ts.
Proof.
  intros Hdrop. destruct (decide (pos < length ts)); [done|].
  by rewrite drop_ge in Hdrop by lia.
Qed.

Lemma drop_tail ts pos (t : token) l : drop pos ts = t :: l → drop (S pos) ts = l.
Proof.
  intros Hdrop.
  destruct (lookup_lt_is_Some_2 ts pos (drop_cons_lt _ _ _ _ Hdrop)) as [t' Ht'].
  rewrite (drop_S _ _ _ Ht') in Hdrop. by injection Hdrop.
Qed.

Lemma drop_app_tail ts pos (l1 l2 : list token) :
  drop pos ts = l1 ++ l2 → drop (pos + length l1) ts = l2.
Proof.
  intros Hdrop. rewrite <- drop_drop, Hdrop.
  by rewrite drop_app_length.
Qed.

(** A run of operands of one level, separated by the operators of that
    level. *)
Section Chain.

Variable ts : list token.
Context {X : Type}.
Variable toks : X → list token.
Variable tree : X → ASTNode.
Variable valid : X → Prop.
Variable test : token → bool.
Variable kind : string.
Variable operand : M nat ASTNode.
Variable stops : token → Prop.

Hypothesis operand_run : ∀ pos x tail,
  valid x → drop pos ts = toks x ++ tail → stops (head_tok tail) →
  operand pos = Ok (tree x, pos + length (toks x)).
Hypothesis test_stops : ∀ tok, test tok = true → stops tok.
Hypothesis test_op : ∀ tok, test tok = true → ttype tok = OP.

Definition chain_tokens (items : list (token * X)) : list token :=
  flat_map (λ i, i.1 :: toks i.2) items.

(** Each operator takes what has been built so far as its left child. *)
Definition chain_tree (acc : ASTNode) (items : list (token * X)) : ASTNode :=
  fold_left (λ acc i, Node kind (tvalue i.1) [Some acc; Some (tree i.2)])
            items acc.

Lemma chain_loop items n acc pos tail :
  Forall (λ i, test i.1 = true ∧ valid i.2) items →
  drop pos ts = chain_tokens items ++ tail →
  test (head_tok tail) = false → stops (head_tok tail) →
  length ts - pos ≤ n →
  while_current ts n test (binary_step ts kind operand) acc pos
  = Ok (chain_tree acc items, pos + length (chain_tokens items)).
Proof.
  intros Hitems. revert n acc pos.
  induction Hitems as [|[o x] items [Ho Hx] Hrest IH];
    intros n acc pos Hdrop Htail Hstop Hn; cbn [chain_tokens flat_map] in *.
  - assert (Hcur : test (token_at ts pos) = false)
      by (by rewrite (drop_head _ _ _ Hdrop)).
    destruct n; rewrite ?ParserTotal.while_current_0,
      ?ParserTotal.while_current_S, Hcur; simpl; by rewrite Nat.add_0_r.
  - simpl in Ho, Hx, Hdrop.
    pose proof (drop_cons_lt _ _ _ _ Hdrop) as Hlt.
    pose proof (drop_head _ _ _ Hdrop) as Hcur. cbn in Hcur.
    apply drop_tail in Hdrop. rewrite <- app_assoc in Hdrop.
    destruct n as [|n]; [lia|].
    rewrite ParserTotal.while_current_S, Hcur, Ho.
    unfold binary_step at 1. unfold bind at 1.
    rewrite eat_ok by (rewrite Hcur; by apply test_op).
    unfold bind at 1. rewrite (operand_run (S pos) x _ Hx Hdrop).
    2:{ destruct items as [|[o' x'] items']; [done|].
        apply test_stops. by inversion Hrest as [|? ? [? ?] ?]. }
    unfold ret. rewrite Hcur.
    apply drop_app_tail in Hdrop.
    rewrite (IH n _ _ Hdrop Htail Hstop).
    + cbn [chain_tree fold_left fst snd length]. rewrite length_app.
      do 2 f_equal. unfold chain_tokens. cbn [length]. lia.
    + lia.
Qed.

End Chain.

(** A number or an identifier, and the leaf [factor] builds for it. *)
Definition is_atom (tok : token) : bool :=
  bool_decide (ttype tok = NUM) || bool_decide (ttype tok = ID).

Definition atom (tok : token) : ASTNode :=
  if decide (ttype tok = NUM) then Node "num" (tvalue tok) []
  else Node "id" (tvalue tok) [].

Definition mul_ops : list string := ["*"; "/"; "%"].
Definition add_ops : list string := ["+"; "-"].
Definition cmp_ops : list string := ["<"; ">"; "=="; "!="; "<="; ">="].

(** A product [a0 o1 a1 ... on an] of atoms, and a sum of products. *)
Definition product : Type := token * list (token * token).
Definition sum : Type := product * list (token * product).

Definition product_tokens (p : product) : list token :=
  p.1 :: chain_tokens (λ a, [a]) p.2.
Definition product_tree (p : product) : ASTNode :=
  chain_tree atom "term" (atom p.1) p.2.
Definition product_ok (p : product) : Prop :=
  is_atom p.1 = true
  ∧ Forall (λ i, is_op mul_ops i.1 = true ∧ is_atom i.2 = true) p.2.

Definition sum_tokens (s : sum) : list token :=
  product_tokens s.1 ++ chain_tokens product_tokens s.2.
Definition sum_tree (s : sum) : ASTNode :=
  chain_tree product_tree "arith_expr" (product_tree s.1) s.2.
Definition sum_ok (s : sum) : Prop :=
  product_ok s.1
  ∧ Forall (λ i, is_op add_ops i.1 = true ∧ product_ok i.2) s.2.

Lemma is_op_type ops tok : is_op ops tok = true → ttype tok = OP.
Proof.
  unfold is_op. intros [Hty _]%andb_true_iff.
  by apply bool_decide_eq_true in Hty.
Qed.

Lemma is_op_value ops tok :
  is_op ops tok = true → ∃ v, tvalue tok = Some v ∧ v ∈ ops.
Proof.
  unfold is_op. intros [_ Hv]%andb_true_iff.
  destruct (tvalue tok) as [v|]; [|done]. exists v. split; [done|].
  apply existsb_exists in Hv as (x & Hin & ->%String.eqb_eq).
  by apply list_elem_of_In.
Qed.

(** The operators of two levels are different strings. *)
Lemma is_op_other ops ops' tok :
  (∀ v, v ∈ ops → v ∉ ops') → is_op ops tok = true → is_op ops' tok = false.
Proof.
  intros Hdisj (v & Hv & Hin)%is_op_value. unfold is_op. rewrite Hv.
  apply andb_false_iff. right. apply not_true_iff_false.
  intros (x & Hin' & ->%String.eqb_eq)%existsb_exists.
  apply (Hdisj _ Hin). by apply list_elem_of_In.
Qed.

Ltac other_level :=
  intros ? Hin; unfold mul_ops, add_ops, cmp_ops in *;
  repeat (apply elem_of_cons in Hin as [->|Hin]);
  [..|by apply elem_of_nil in Hin];
  intros Hin'; repeat (apply elem_of_cons in Hin' as [?|Hin']); try done;
  by apply elem_of_nil in Hin'.

Lemma add_not_mul tok : is_op add_ops tok = true → is_op mul_ops tok = false.
Proof. apply is_op_other. other_level. Qed.

Lemma cmp_not_mul tok : is_op cmp_ops tok = true → is_op mul_ops tok = false.
Proof. apply is_op_other. other_level. Qed.

Lemma cmp_not_add tok : is_op cmp_ops tok = true → is_op add_ops tok = false.
Proof. apply is_op_other. other_level. Qed.

Section Levels.

Variable ts : list token.
Variable expr : M nat ASTNode.

Lemma factor_atom pos a tail :
  is_atom a = true → drop pos ts = [a] ++ tail → True →
  factor ts expr pos = Ok (atom a, pos + length [a]).
Proof.
  intros Ha Hdrop _. pose proof (drop_head _ _ _ Hdrop) as Hcur. cbn in Hcur.
  unfold factor, atom, bind at 1, current. rewrite Hcur.
  rewrite Nat.add_1_r.
  apply orb_true_iff in Ha as [Ha|Ha]; apply bool_decide_eq_true in Ha.
  - rewrite !decide_True by done. unfold bind.
    by rewrite eat_ok by (by rewrite Hcur).
  - rewrite decide_False, !decide_True by congruence.
    unfold bind. rewrite eat_ok by (by rewrite Hcur).
    by rewrite decide_False by congruence.
Qed.

Lemma term_product pos p tail :
  product_ok p → drop pos ts = product_tokens p ++ tail →
  is_op mul_ops (head_tok tail) = false →
  term ts expr pos = Ok (product_tree p, pos + length (product_tokens p)).
Proof.
  intros [Ha Hitems] Hdrop Hstop. destruct p as [a items]. simpl in *.
  unfold term, bind. unfold product_tokens in *. cbn [fst snd app] in *.
  rewrite (factor_atom pos a _ Ha Hdrop I).
  apply drop_tail in Hdrop. rewrite Nat.add_1_r.
  rewrite (chain_loop ts (λ a, [a]) atom (λ a, is_atom a = true)
             (is_op mul_ops) "term" (factor ts expr) (λ _, True)
             factor_atom ltac:(done) (is_op_type _) items _ _ _ tail);
    [|done|done|done|done|lia].
  unfold product_tree. cbn [length fst snd]. do 2 f_equal. lia.
Qed.

Lemma arith_expr_sum pos s tail :
  sum_ok s → drop pos ts = sum_tokens s ++ tail →
  is_op mul_ops (head_tok tail) = false →
  is_op add_ops (head_tok tail) = false →
  arith_expr ts expr pos = Ok (sum_tree s, pos + length (sum_tokens s)).
Proof.
  intros [Hp Hitems] Hdrop Hmul Hadd. destruct s as [p items].
  unfold sum_tokens in *. cbn [fst snd] in *. rewrite <- app_assoc in Hdrop.
  unfold arith_expr, bind.
  rewrite (term_product pos p _ Hp Hdrop).
  2:{ destruct items as [|[o q] items']; [done|].
      inversion Hitems as [|? ? [Ho _] _]. simpl in Ho.
      by apply add_not_mul. }
  apply drop_app_tail in Hdrop.
  rewrite (chain_loop ts product_tokens product_tree product_ok
             (is_op add_ops) "arith_expr" (term ts expr)
             (λ tok, is_op mul_ops tok = false)
             term_product
             add_not_mul
             (is_op_type _) items _ _ _ tail);
    [|done|done|done|done|lia].
  unfold sum_tree. rewrite length_app. cbn [fst snd]. do 2 f_equal. lia.
Qed.

End Levels.

(** X9. Precedence and associativity.  On a sum of products of numbers
    and identifiers, followed by a token that is no operator of these
    two levels, [arith_expr] consumes exactly these tokens; every
    product becomes a [term] tree and the sum an [arith_expr] tree over
    the products, and on both levels each operator takes everything
    built so far as its left child: [* / %] bind tighter than [+ -],
    and both associate to the left. *)
Theorem products_before_sums_left_to_right ts e pos s tail :
  sum_ok s →
  drop pos ts = sum_tokens s ++ tail →
  is_op mul_ops (head_tok tail) = false →
  is_op add_ops (head_tok tail) = false →
  arith_expr ts e pos = Ok (sum_tree s, pos + length (sum_tokens s)).
Proof. apply arith_expr_sum. Qed.

Lemma products_before_sums_left_to_right_witness :
  let a := mkToken ID (Some "a") in
  let b := mkToken ID (Some "b") in
  let c := mkToken ID (Some "c") in
  let d := mkToken NUM (Some "4") in
  let plus := mkToken OP (Some "+") in
  let times := mkToken OP (Some "*") in
  let minus := mkToken OP (Some "-") in
  let semi := mkToken SEMI (Some ";") in
  let ts := [a; plus; b; times; c; minus; d; semi] in
  let s : sum := ((a, []), [(plus, (b, [(times, c)])); (minus, (d, []))]) in
  (sum_ok s ∧ drop 0 ts = sum_tokens s ++ [semi])
  ∧ sum_tree s
    = Node "arith_expr" (Some "-")
        [Some (Node "arith_expr" (Some "+")
                 [Some (leaf "id" "a");
                  Some (Node "term" (Some "*")
                          [Some (leaf "id" "b"); Some (leaf "id" "c")])]);
         Some (leaf "num" "4")]
  ∧ arith_expr ts (expr ts 0) 0 = Ok (sum_tree s, 0 + length (sum_tokens s)).
Proof.
  intros a b c d plus times minus semi ts s.
  assert (Hok : sum_ok s).
  { repeat first [split | apply Forall_cons | apply Forall_nil]; reflexivity. }
  split; [split; [exact Hok|reflexivity]|]. split; [reflexivity|].
  exact (products_before_sums_left_to_right ts (expr ts 0) 0 s [semi]
           Hok eq_refl eq_refl eq_refl).
Defined.

Lemma expr_comparison ts fuel pos s1 c1 s2 tail :
  sum_ok s1 → sum_ok s2 →
  is_op cmp_ops c1 = true →
  is_op mul_ops (head_tok tail) = false →
  is_op add_ops (head_tok tail) = false →
  drop pos ts = sum_tokens s1 ++ c1 :: sum_tokens s2 ++ tail →
  expr ts (S fuel) pos
  = Ok (Node "comparison" (tvalue c1)
          [Some (sum_tree s1); Some (sum_tree s2)],
        pos + length (sum_tokens s1) + 1 + length (sum_tokens s2)).
Proof.
  intros Hs1 Hs2 Hc1 Hmul Hadd Hdrop. cbn [expr]. unfold expr_body.
  unfold bind at 1.
  rewrite (arith_expr_sum ts _ pos s1 _ Hs1 Hdrop)
    by (by apply cmp_not_mul || by apply cmp_not_add).
  apply drop_app_tail in Hdrop.
  pose proof (drop_head_cons _ _ _ _ Hdrop) as Hcur.
  apply drop_tail in Hdrop.
  unfold bind at 1, current. rewrite Hcur. fold cmp_ops. rewrite Hc1.
  unfold bind at 1. rewrite eat_ok by (rewrite Hcur; by eapply is_op_type).
  unfold bind at 1.
  rewrite (arith_expr_sum ts _ _ s2 _ Hs2 Hdrop Hmul Hadd).
  unfold ret. rewrite Hcur. do 2 f_equal. lia.
Qed.

(** X10. Comparisons do not chain.  On [s1 c1 s2 c2 ...], two sums
    separated by a comparison operator and followed by another one,
    [expr] returns the comparison of the two sums and stops in front of
    the second operator; a [return] statement over these tokens then
    fails where it wants the semicolon, with the [RuntimeError] that
    names the second operator. *)
Theorem comparisons_do_not_chain ts fuel pos ret_tok s1 c1 s2 c2 tail :
  ttype ret_tok = RETURN →
  sum_ok s1 → sum_ok s2 →
  is_op cmp_ops c1 = true → is_op cmp_ops c2 = true →
  drop pos ts = ret_tok :: sum_tokens s1 ++ c1 :: sum_tokens s2 ++ c2 :: tail →
  let stop := S pos + length (sum_tokens s1) + 1 + length (sum_tokens s2) in
  expr ts (S fuel) (S pos)
  = Ok (Node "comparison" (tvalue c1)
          [Some (sum_tree s1); Some (sum_tree s2)], stop)
  ∧ token_at ts stop = c2
  ∧ return_stmt ts (expr ts (S fuel)) pos
    = Raise (RuntimeError ("Expected token type SEMI but got OP ("
                           +:+ py_str (tvalue c2) +:+ ")")).
Proof.
  intros Hret Hs1 Hs2 Hc1 Hc2 Hdrop stop.
  pose proof (drop_head_cons _ _ _ _ Hdrop) as Hcur.
  apply drop_tail in Hdrop.
  assert (Hexpr : expr ts (S fuel) (S pos)
                  = Ok (Node "comparison" (tvalue c1)
                          [Some (sum_tree s1); Some (sum_tree s2)], stop)).
  { apply (expr_comparison ts fuel (S pos) s1 c1 s2 (c2 :: tail));
      [done|done|done| | |done].
    - by apply cmp_not_mul.
    - by apply cmp_not_add. }
  assert (Hstop : token_at ts stop = c2).
  { subst stop. apply drop_app_tail in Hdrop. apply drop_tail in Hdrop.
    apply drop_app_tail in Hdrop. apply drop_head_cons in Hdrop.
    rewrite <- Hdrop. f_equal. lia. }
  split; [exact Hexpr|]. split; [exact Hstop|].
  unfold return_stmt. unfold bind at 1. rewrite eat_ok by (by rewrite Hcur).
  unfold bind at 1. rewrite Hexpr.
  unfold bind, eat, bind, current. rewrite Hstop.
  rewrite decide_False by (rewrite (is_op_type _ _ Hc2); done).
  by rewrite (is_op_type _ _ Hc2).
Qed.

Lemma comparisons_do_not_chain_witness :
  let ret_tok := mkToken RETURN (Some "return") in
  let a := mkToken ID (Some "a") in
  let b := mkToken ID (Some "b") in
  let c := mkToken ID (Some "c") in
  let lt := mkToken OP (Some "<") in
  let semi := mkToken SEMI (Some ";") in
  let ts := [ret_tok; a; lt; b; lt; c; semi] in
  let s1 : sum := ((a, []), []) in
  let s2 : sum := ((b, []), []) in
  expr ts 1 1
  = Ok (Node "comparison" (Some "<") [Some (leaf "id" "a"); Some (leaf "id" "b")],
        4)
  ∧ token_at ts 4 = lt
  ∧ return_stmt ts (expr ts 1) 0
    = Raise (RuntimeError "Expected token type SEMI but got OP (<)").
Proof.
  intros ret_tok a b c lt semi ts s1 s2.
  assert (Hok1 : sum_ok s1) by (repeat constructor).
  assert (Hok2 : sum_ok s2) by (repeat constructor).
  exact (comparisons_do_not_chain ts 0 0 ret_tok s1 lt s2 lt [c; semi]
           eq_refl Hok1 Hok2 eq_refl eq_refl eq_refl).
Defined.

(** *** The errors of the parser *)

(** The exceptions [parser.py] raises itself. *)
Definition deliberate (e : exn) : Prop := ∃ msg, e = RuntimeError msg.

Section Errors.

Variable ts : list token.

(** Every token has a text, as the tokens of [lexer] have. *)
Hypothesis valued : Forall (λ t, is_Some (tvalue t)) ts.

Definition fails_well {A} (m : M nat A) : Prop :=
  ∀ pos e, m pos = Raise e → deliberate e.

Lemma fails_well_ret {A} (a : A) : fails_well (ret a).
Proof. by intros pos e. Qed.

Lemma fails_well_raise {A} msg : fails_well (raise (RuntimeError msg) : M nat A).
Proof. intros pos e [= <-]. by exists msg. Qed.

Lemma fails_well_bind {A B} (m : M nat A) (k : A → M nat B) :
  fails_well m → (∀ a, fails_well (k a)) → fails_well (bind m k).
Proof.
  intros Hm Hk pos e. unfold bind.
  destruct (m pos) as [[a pos1]| |] eqn:Hrun; [apply Hk| |done].
  intros [= <-]. by eapply Hm.
Qed.

Lemma fails_well_current : fails_well (current ts).
Proof. by intros pos e. Qed.

Lemma fails_well_next_token : fails_well (next_token ts).
Proof. by intros pos e. Qed.

Lemma fails_well_eat kind : fails_well (eat ts kind).
Proof.
  unfold eat. apply fails_well_bind; [apply fails_well_current|].
  intros cur. case_decide; [by intros pos e|apply fails_well_raise].
Qed.

Lemma fails_well_while {A} n test (step : A → M nat A) acc :
  (∀ acc, fails_well (step acc)) →
  fails_well (while_current ts n test step acc).
Proof.
  intros Hstep. revert acc. induction n as [|n IH]; intros acc;
    cbn [while_current]; apply fails_well_bind;
    try apply fails_well_current; intros cur; destruct (test cur);
    try apply fails_well_ret.
  - by intros pos e.
  - by apply fails_well_bind.
Qed.

Lemma statement_tokens_valued pos :
  ∃ texts, map tvalue (statement_tokens ts pos) = map Some texts.
Proof.
  unfold statement_tokens.
  assert (H : Forall (λ t, is_Some (tvalue t))
                (take (if decide
                            (ttype (token_at ts
                               (pos + span_while not_semi_nor_eof (drop pos ts)))
                             = SEMI)
                       then S (span_while not_semi_nor_eof (drop pos ts))
                       else span_while not_semi_nor_eof (drop pos ts))
                   (drop pos ts)))
    by (by apply Forall_take, Forall_drop).
  induction H as [|t l [v Hv] _ (texts & IH)]; [by exists []|].
  exists (v :: texts). simpl. by rewrite Hv, IH.
Qed.

Lemma fails_well_generic_stmt : fails_well (generic_stmt ts).
Proof.
  intros pos e. rewrite generic_stmt_eq.
  destruct (statement_tokens_valued pos) as (texts & ->).
  by rewrite join_values_strings.
Qed.

Ltac fails_steps tac :=
  repeat first
    [ apply fails_well_ret
    | apply fails_well_raise
    | apply fails_well_current
    | apply fails_well_next_token
    | apply fails_well_eat
    | apply fails_well_generic_stmt
    | assumption
    | tac
    | case_decide
    | case_match
    | apply fails_well_while; intros ?
    | apply fails_well_bind; [|intros ?] ].

Section Rules.

Variables expr stmt compound_stmt : M nat ASTNode.
Hypothesis Hexpr : fails_well expr.
Hypothesis Hstmt : fails_well stmt.
Hypothesis Hcompound : fails_well compound_stmt.

Lemma fails_well_expr_body : fails_well (expr_body ts expr).
Proof.
  unfold expr_body, arith_expr, term, binary_step, factor. fails_steps fail.
Qed.

Lemma fails_well_stmt_body :
  fails_well (stmt_body ts expr stmt compound_stmt).
Proof.
  unfold stmt_body, var_decl, assign_stmt, if_stmt, return_stmt, while_stmt,
    for_stmt, do_while_stmt, assign_expr, var_decl, assign_stmt, body,
    type_spec.
  fails_steps fail.
Qed.

End Rules.

Lemma fails_well_expr fuel : fails_well (expr ts fuel).
Proof.
  induction fuel as [|fuel IH]; [by intros pos e|].
  by apply (fails_well_expr_body (expr ts fuel)).
Qed.

Lemma fails_well_compound_stmt_body stmt :
  fails_well stmt → fails_well (compound_stmt_body ts stmt).
Proof. intros Hstmt. unfold compound_stmt_body. fails_steps fail. Qed.

Lemma fails_well_stmt fuel : fails_well (stmt ts fuel).
Proof.
  induction fuel as [|fuel IH]; [by intros pos e|].
  apply (fails_well_stmt_body (expr ts (S fuel)) (stmt ts fuel)
           (compound_stmt_body ts (stmt ts fuel))).
  - apply fails_well_expr.
  - exact IH.
  - by apply fails_well_compound_stmt_body.
Qed.

Lemma fails_well_program fuel : fails_well (program ts fuel).
Proof.
  unfold program, function, compound_stmt, type_spec.
  fails_steps ltac:(apply fails_well_compound_stmt_body, fails_well_stmt).
Qed.

End Errors.

Lemma parse_outcome tokens :
  Forall (λ t, is_Some (tvalue t)) tokens →
  (∃ ast, parse tokens = Ok ast)
  ∨ (∃ msg, parse tokens = Raise (RuntimeError msg)).
Proof.
  intros Hvalued. pose proof (ParserTotal.parse_from_answers tokens) as Hfuel.
  unfold parse. unfold parse_from in *.
  destruct (program tokens (length tokens) 0) as [[ast pos]|e|] eqn:Hrun;
    [by left; exists ast| |done].
  destruct (fails_well_program tokens Hvalued _ _ _ Hrun) as [msg ->].
  right. by exists msg.
Qed.

(** X11. On tokens that all carry a text, as the tokens of [lexer] do,
    [parse] comes to an end (every round of every loop consumes a
    token, and no rule calls itself without having consumed one), and
    it ends in one of two ways: it returns a tree, or it raises one of
    the [RuntimeError]s the parser raises itself; no token list makes
    it fail with another exception.  (The recursion limit of the Python
    interpreter is not modelled.) *)
Theorem parse_returns_or_raises_its_own_error tokens :
  Forall (λ t, is_Some (tvalue t)) tokens →
  (∃ ast, parse tokens = Ok ast)
  ∨ (∃ msg, parse tokens = Raise (RuntimeError msg)).
Proof. apply parse_outcome. Qed.

Lemma parse_returns_or_raises_its_own_error_witness :
  let tokens := [mkToken INT (Some "int"); mkToken ID (Some "f")] in
  Forall (λ t, is_Some (tvalue t)) tokens
  ∧ ((∃ ast, parse tokens = Ok ast)
     ∨ (∃ msg, parse tokens = Raise (RuntimeError msg))).
Proof.
  intros tokens.
  assert (Hvalued : Forall (λ t, is_Some (tvalue t)) tokens)
    by (repeat constructor; by eexists).
  split; [exact Hvalued|].
  exact (parse_returns_or_raises_its_own_error tokens Hvalued).
Defined.

End ParserMore.

(** ** The analyzer on the trees the parser builds *)

Module Pipeline.
Import Parser Semantic ParserProps SemanticProps ParserShapes.
Import LexerMore ParserMore.

(** [m] returns, from every state. *)
Definition runs {A} (m : M analyzer A) : Prop :=
  ∀ a, ∃ x a', m a = Ok (x, a').

Lemma runs_ret {A} (x : A) : runs (ret x).
Proof. intros a. by eexists _, _. Qed.

Lemma runs_bind {A B} (m : M analyzer A) (k : A → M analyzer B) :
  runs m → (∀ x, runs (k x)) → runs (bind m k).
Proof.
  intros Hm Hk a. destruct (Hm a) as (x & a1 & Hrun). unfold bind.
  rewrite Hrun. apply Hk.
Qed.

Lemma runs_bind_ret {A B} (x : A) (k : A → M analyzer B) :
  runs (k x) → runs (bind (ret x) k).
Proof. intros Hk a. apply Hk. Qed.

Lemma runs_modify f : runs (modify f).
Proof. intros a. by eexists _, _. Qed.

Lemma runs_get_symbols : runs get_symbols.
Proof. intros a. by eexists _, _. Qed.

Ltac runs_steps :=
  repeat first
    [ apply runs_ret
    | apply runs_get_symbols
    | apply runs_modify
    | assumption
    | apply runs_bind_ret
    | case_decide; try lia
    | apply runs_bind; [|intros ?] ].

Ltac run_dispatch :=
  cbn [analyze map option_map];
  cbv beta iota delta [dispatch String.eqb Ascii.eqb Bool.eqb];
  unfold visit_var_decl, visit_assign, visit_id, visit_if_stmt, visit_while,
    visit_for, call_if_present, visit_do_while, visit_return_stmt,
    generic_visit, get_child, attr_value, call, add_error, add_symbol;
  cbn [lookup list_lookup for_children length].

Lemma analyze_expr_runs n : wf_expr n = true → runs (analyze n).
Proof.
  induction n as [ty v ch IH] using ASTNode_tree_ind. cbn [wf_expr].
  destruct ch as [|[l|] ch]; [|destruct ch as [|[r|] ch]; [done| |done]|done].
  2: destruct ch; [|done].
  - intros Hty%in_types_elem.
    repeat (apply elem_of_cons in Hty as [->|Hty]); [| |by apply elem_of_nil in Hty];
      run_dispatch; runs_steps.
  - intros [[Hty%in_types_elem Hl]%andb_true_iff Hr]%andb_true_iff.
    apply Forall_cons in IH as [IHl [IHr _]%Forall_cons]. simpl in IHl, IHr.
    specialize (IHl Hl). specialize (IHr Hr).
    repeat (apply elem_of_cons in Hty as [->|Hty]); [| | |by apply elem_of_nil in Hty];
      run_dispatch; runs_steps.
Qed.

Lemma analyze_node_runs n block : wf_node block n = true → runs (analyze n).
Proof.
  revert block. induction n as [ty v ch IH] using ASTNode_tree_ind.
  intros block. cbn [wf_node].
  destruct (String.eqb_spec ty "compound_stmt") as [->|_].
  { intros [_ Hch]%andb_true_iff. run_dispatch.
    induction IH as [|[s|] ch Hs _ IHch]; simpl in *; [apply runs_ret| |done].
    apply andb_true_iff in Hch as [Hs' Hch].
    apply runs_bind; [by eapply Hs|]. intros _. by apply IHch. }
  by_type ty; intros Hwf; repeat case_match; try done; subst;
    repeat match goal with
           | H : _ && _ = true |- _ => apply andb_true_iff in H as [? ?]
           | H : Forall _ (_ :: _) |- _ => apply Forall_cons in H as [? H]
           end;
    repeat match goal with o : option ASTNode |- _ => destruct o end;
    cbn [child_all opt_all] in *; run_dispatch; runs_steps.
  all: try match goal with |- runs (_ ?n) => change (runs (analyze n)) end.
  all: try (apply analyze_expr_runs; assumption).
  all: try match goal with
           | H : ∀ b, wf_node b ?n = true → _ |- runs (analyze ?n) =>
               eapply H; eassumption
           end.
Qed.

Lemma analyze_program_runs ast : wf_program ast = true → runs (analyze ast).
Proof.
  destruct ast as [ty v [|[[fty fv [|[t|] [|[m|] [|[b|] [|? ?]]]]]|] [|? ?]]];
    try done.
  cbn [wf_program].
  intros [[[[[->%String.eqb_eq ->%String.eqb_eq]%andb_true_iff
             (tv & ->)%is_leaf_inv]%andb_true_iff
            (mv & ->)%is_leaf_inv]%andb_true_iff _]%andb_true_iff Hb]%andb_true_iff.
  pose proof (analyze_node_runs b true Hb) as Hruns.
  run_dispatch. run_dispatch. runs_steps.
Qed.

(** X5. On a tree the parser returned, [analyze] on a fresh analyzer
    meets none of the failures of its own code: no child it reads is
    missing ([IndexError]) and none is [None] where it reads an
    attribute ([AttributeError]); it runs to the end and leaves a list
    of diagnostics.  (The recursion limit of the Python interpreter is
    not modelled: a tree nested deeper than the limit allows makes the
    interpreter raise [RecursionError].) *)
Theorem analysis_of_a_parsed_tree_returns tokens ast :
  parse tokens = Ok ast → ∃ errs, diagnostics ast = Ok errs.
Proof.
  intros Hparse. apply parse_wf in Hparse.
  destruct (analyze_program_runs ast Hparse init) as ([] & a' & Hrun).
  exists (errors a'). unfold diagnostics. by rewrite Hrun.
Qed.

Lemma analysis_of_a_parsed_tree_returns_witness :
  let tokens :=
    [mkToken INT (Some "int"); mkToken MAIN (Some "main");
     mkToken LPAREN (Some "("); mkToken RPAREN (Some ")");
     mkToken LBRACE (Some "{");
     mkToken FOR (Some "for"); mkToken LPAREN (Some "(");
     mkToken SEMI (Some ";"); mkToken SEMI (Some ";");
     mkToken RPAREN (Some ")");
     mkToken ID (Some "x"); mkToken OP (Some "=");
     mkToken NUM (Some "1"); mkToken SEMI (Some ";");
     mkToken RBRACE (Some "}")] in
  let ast :=
    main_program
      [Some (Node "for" None
               [None; None; None;
                Some (Node "assign" None
                        [Some (leaf "id" "x"); Some (leaf "num" "1")])])] in
  parse tokens = Ok ast ∧ ∃ errs, diagnostics ast = Ok errs.
Proof.
  intros tokens ast.
  assert (Hrun : parse tokens = Ok ast) by reflexivity.
  split; [exact Hrun|]. exact (analysis_of_a_parsed_tree_returns tokens ast Hrun).
Defined.

(** X14. The GUI's "Parse & Analyze" chain ends, on every text, in one
    of two ways: with the list of diagnostics, or with a [RuntimeError]
    raised by the tokenizer or by the parser.  The stages fit: the
    tokens always carry a text, so the parser never fails on a [None];
    the tree always has the children the analyzer reads, so the analyzer
    never fails at all.  (The recursion limit of the Python interpreter
    is not modelled.) *)
Theorem parse_code_reports_or_raises code :
  (∃ errs, parse_code code = Ok errs)
  ∨ (∃ msg, parse_code code = Raise (RuntimeError msg)).
Proof.
  unfold parse_code, front_end.
  destruct (lexer_outcome code) as [[toks Hlex]|[msg Hlex]]; rewrite Hlex;
    [|right; by exists msg].
  destruct (parse_outcome toks (lexer_valued _ _ Hlex))
    as [[ast Hparse]|[msg Hparse]]; rewrite Hparse; [|right; by exists msg].
  left. apply parse_wf in Hparse.
  destruct (analyze_program_runs ast Hparse init) as ([] & a' & Hrun).
  exists (errors a'). unfold diagnostics. by rewrite Hrun.
Qed.

End Pipeline.

(** ** The printed tree *)

Module ReprProps.

(** The loop of [__repr__], from what has been printed so far. *)
Definition print_children (level : nat) (ch : list (option ASTNode))
    (ret : string) : string :=
  fold_left (λ ret c, match c with
                      | Some m => ret +:+ __repr__ (S level) m
                      | None => ret
                      end) ch ret.

Lemma repr_node level ty v ch :
  __repr__ level (Node ty v ch) = print_children level ch (repr_line level ty v).
Proof. done. Qed.

Lemma print_children_present level ch ret :
  print_children level ch ret
  = print_children level (map Some (omap id ch)) ret.
Proof.
  revert ret. induction ch as [|[m|] ch IH]; intros ret; simpl; [done|..];
    apply IH.
Qed.

(** X15. The printed tree does not show empty child slots: two nodes
    with the same type and payload whose children that are present are
    the same, in the same order, print alike, wherever their [None]
    slots are.  So the dump of a [for] node does not tell an
    initialisation from an update when the other clauses are absent. *)
Theorem repr_hides_empty_slots level ty v ch ch' :
  omap id ch = omap id ch' →
  __repr__ level (Node ty v ch) = __repr__ level (Node ty v ch').
Proof.
  intros Hsame. rewrite !repr_node.
  by rewrite (print_children_present _ ch), (print_children_present _ ch'), Hsame.
Qed.

Lemma repr_hides_empty_slots_witness :
  let step := Node "assign" None [Some (leaf "id" "i"); Some (leaf "num" "1")] in
  let body := Node "stmt" (Some "f ( ) ;") [] in
  let init_only := [Some step; None; None; Some body] in
  let update_only := [None; None; Some step; Some body] in
  omap id init_only = omap id update_only
  ∧ init_only ≠ update_only
  ∧ __repr__ 0 (Node "for" None init_only)
    = __repr__ 0 (Node "for" None update_only).
Proof.
  intros step body init_only update_only.
  split; [reflexivity|]. split; [done|].
  exact (repr_hides_empty_slots 0 "for" None init_only update_only eq_refl).
Defined.

(** *** One line per node *)

Definition is_newline (c : ascii) : bool := Ascii.eqb c "010".

Fixpoint newlines (s : string) : nat :=
  match s with
  | EmptyString => 0
  | String c s' => (if is_newline c then 1 else 0) + newlines s'
  end.

(** The nodes [__repr__] visits. *)
Fixpoint size (n : ASTNode) : nat :=
  match n with
  | Node _ _ ch =>
      S (fold_right (λ c k, match c with
                            | Some m => size m + k
                            | None => k
                            end) 0 ch)
  end.

(** No type and no payload of the tree contains a newline. *)
Fixpoint one_line_texts (n : ASTNode) : bool :=
  match n with
  | Node ty v ch =>
      (newlines ty =? 0) && (newlines (py_str v) =? 0)
      && forallb (λ c, match c with
                       | Some m => one_line_texts m
                       | None => true
                       end) ch
  end.

Lemma newlines_app s1 s2 : newlines (s1 +:+ s2) = newlines s1 + newlines s2.
Proof. induction s1 as [|c s1 IH]; simpl; [done|]. rewrite IH. lia. Qed.

Lemma newlines_spaces n : newlines (spaces n) = 0.
Proof. induction n as [|n IH]; [done|]. exact IH. Qed.

Lemma newlines_repr_line level ty v :
  newlines ty = 0 → newlines (py_str v) = 0 →
  newlines (repr_line level ty v) = 1.
Proof.
  intros Hty Hv. unfold repr_line.
  rewrite !newlines_app, newlines_spaces, Hty.
  destruct (truthy v); [|done]. by rewrite newlines_app, Hv.
Qed.

Lemma newlines_repr n level :
  one_line_texts n = true → newlines (__repr__ level n) = size n.
Proof.
  revert level. induction n as [ty v ch IH] using ASTNode_tree_ind.
  intros level. cbn [one_line_texts].
  intros [[Hty%Nat.eqb_eq Hv%Nat.eqb_eq]%andb_true_iff Hch]%andb_true_iff.
  rewrite repr_node. cbn [size].
  change (S ?k) with (1 + k).
  rewrite <- (newlines_repr_line level ty v Hty Hv).
  generalize (repr_line level ty v). intros ret.
  revert ret. induction IH as [|[m|] ch Hm _ IHch]; intros ret;
    simpl in *; [lia| |by apply IHch].
  apply andb_true_iff in Hch as [Hm' Hch].
  unfold print_children in *. rewrite (IHch Hch), newlines_app, (Hm _ Hm'). lia.
Qed.

(** X16. [__repr__] prints one line per node: when no type and no
    payload in the tree contains a newline, the text has exactly as many
    newline characters as the tree has nodes (reached through the
    children that are present), at every indentation level. *)
Theorem repr_prints_one_line_per_node n level :
  one_line_texts n = true → newlines (__repr__ level n) = size n.
Proof. apply newlines_repr. Qed.

Lemma repr_prints_one_line_per_node_witness :
  let n := main_program [Some (decl "x"); None; Some (opaque "cin >> x ;")] in
  one_line_texts n = true ∧ newlines (__repr__ 0 n) = 9 ∧ size n = 9.
Proof.
  intros n. split; [reflexivity|]. split; [|reflexivity].
  exact (repr_prints_one_line_per_node n 0 eq_refl).
Defined.

End ReprProps.

(** ** More on the flowchart builder *)

Module FlowchartMore.
Import Flowchart FlowchartProps.

(** *** Straight-line programs *)

(** The statements drawn as a box. *)
Definition is_action (n : ASTNode) : bool :=
  in_types (ntype n) ["var_decl"; "assign"; "return_stmt"; "stmt"].

Lemma process_node_action n g :
  is_action n = true → _process_node n g = process_action n g.
Proof.
  destruct n as [ty v ch]. unfold is_action. cbn [ntype _process_node].
  unfold process_body. cbn [ntype]. intros Hty.
  assert (Hin : ty ∈ ["var_decl"; "assign"; "return_stmt"; "stmt"]).
  { unfold in_types in Hty. apply existsb_exists in Hty as (x & Hin & ->%String.eqb_eq).
    by apply list_elem_of_In. }
  repeat (apply elem_of_cons in Hin as [->|Hin]); [done..|].
  by apply elem_of_nil in Hin.
Qed.

(** One box, hung below the node the cursor names. *)
Lemma process_action_run n label g p :
  _formatter n = Ok label → last_node g = Some p →
  process_action n g
  = Ok (tt, mkGenerator
              (mkDigraph
                 (g_nodes (dot g) ++ [mkGNode (S (node_count g)) label box []])
                 (g_edges (dot g) ++ [mkGEdge p (S (node_count g)) None]))
              (S (node_count g)) (Some (S (node_count g))) (merge_stack g)).
Proof.
  intros Hlabel Hlast.
  unfold process_action, bind, _new_node_id, lift, dot_node, edge_from_last,
    bind, get, modify, set_last_node, modify.
  rewrite Hlabel. simpl. rewrite Hlast. done.
Qed.

Definition chain_boxes (first : nat) (labels : list (option string))
  : list gnode :=
  imap (λ i label, mkGNode (first + i) label box []) labels.

(** [n] edges, each from a node to the next one, the first from node
    [first]. *)
Definition chain_edges (first n : nat) : list gedge :=
  map (λ i, mkGEdge i (S i) None) (seq first n).

Lemma walk_chain stmts labels g :
  Forall2 (λ s label, is_action s = true ∧ _formatter s = Ok label)
          stmts labels →
  last_node g = Some (node_count g) →
  walk_all (map Some stmts) g
  = Ok (tt, mkGenerator
              (mkDigraph
                 (g_nodes (dot g) ++ chain_boxes (S (node_count g)) labels)
                 (g_edges (dot g) ++ chain_edges (node_count g) (length labels)))
              (node_count g + length labels)
              (Some (node_count g + length labels)) (merge_stack g)).
Proof.
  intros Hall. revert g.
  induction Hall as [|s label stmts labels [Hs Hlabel] _ IH]; intros g Hlast.
  - destruct g as [[ns es] c l ms]. simpl in *. subst l.
    unfold chain_boxes, chain_edges. simpl.
    by rewrite !app_nil_r, Nat.add_0_r.
  - unfold walk_all in *. cbn [map option_map for_children]. unfold bind.
    rewrite (process_node_action _ _ Hs).
    rewrite (process_action_run s label g _ Hlabel Hlast).
    rewrite IH by done. gen_simpl.
    unfold chain_boxes, chain_edges. cbn [imap length seq map].
    rewrite <- !app_assoc. cbn [app].
    rewrite Nat.add_0_r, !Nat.add_succ_r.
    do 4 f_equal. f_equal. f_equal.
    apply imap_ext. intros i x _. simpl. f_equal. lia.
Qed.

Lemma generate_chain stmts labels :
  Forall2 (λ s label, is_action s = true ∧ _formatter s = Ok label)
          stmts labels →
  generate (main_program (map Some stmts))
  = Ok (mkDigraph
          (start_node :: chain_boxes 2 labels
           ++ [end_node (2 + length labels)])
          (chain_edges 1 (S (length labels)))).
Proof.
  intros Hall. unfold generate, generate_steps.
  unfold bind at 1. unfold _new_node_id at 1. cbn [init node_count dot last_node merge_stack].
  unfold bind at 1. unfold dot_node at 1, modify at 1. gen_simpl.
  unfold bind at 1. unfold set_last_node at 1, modify at 1. gen_simpl.
  unfold bind at 1. rewrite process_main_program.
  rewrite (walk_chain stmts labels _ Hall) by done. gen_simpl.
  unfold bind, _new_node_id, dot_node, edge_from_last, bind, get, modify, ret.
  gen_simpl. unfold start_node, end_node, chain_edges.
  unfold dot_edge, modify. gen_simpl. by rewrite seq_S, map_app.
Qed.

(** X17. A program whose statements are all drawn as boxes
    (declarations, assignments, returns, opaque statements) becomes a
    chain: the Start oval, one box per statement in program order with
    the label [_formatter] gives it, the End oval, numbered in this
    order, and exactly the edges from each node to the next. *)
Theorem straight_line_program_is_a_chain stmts labels :
  Forall2 (λ s label, is_action s = true ∧ _formatter s = Ok label)
          stmts labels →
  generate (main_program (map Some stmts))
  = Ok (mkDigraph
          (start_node :: chain_boxes 2 labels
           ++ [end_node (2 + length labels)])
          (chain_edges 1 (S (length labels)))).
Proof. apply generate_chain. Qed.

Lemma straight_line_program_is_a_chain_witness :
  let stmts :=
    [decl "x"; opaque "cin >> x ;";
     Node "return_stmt" None [Some (leaf "id" "x")]] in
  let labels := [Some "int x"; Some "cin >> x ;"; Some "return x"] in
  Forall2 (λ s label, is_action s = true ∧ _formatter s = Ok label)
          stmts labels
  ∧ generate (main_program (map Some stmts))
    = Ok (mkDigraph
            [mkGNode 1 (Some "Start") oval [];
             mkGNode 2 (Some "int x") box [];
             mkGNode 3 (Some "cin >> x ;") box [];
             mkGNode 4 (Some "return x") box [];
             mkGNode 5 (Some "End") oval []]
            [mkGEdge 1 2 None; mkGEdge 2 3 None; mkGEdge 3 4 None;
             mkGEdge 4 5 None]).
Proof.
  intros stmts labels.
  assert (Hall : Forall2 (λ s label, is_action s = true ∧ _formatter s = Ok label)
                   stmts labels)
    by (repeat constructor).
  split; [exact Hall|].
  exact (straight_line_program_is_a_chain stmts labels Hall).
Defined.

(** *** Node names and edge ends *)

(** The nodes are named [node1], ..., [nodeN] in the order of their
    creation, [N] being the counter; every edge joins two of them; the
    cursor, when set, names one of them. *)
Record tidy (g : generator) : Prop := mkTidy {
  tidy_ids : map g_id (g_nodes (dot g)) = seq 1 (node_count g);
  tidy_edges :
    Forall (λ e, 1 ≤ e_tail e ≤ node_count g ∧ 1 ≤ e_head e ≤ node_count g)
           (g_edges (dot g));
  tidy_last : ∀ p, last_node g = Some p → 1 ≤ p ≤ node_count g
}.

Definition keeps_tidy (g g' : generator) : Prop :=
  walk_ok g g' ∧ (tidy g → tidy g').

Lemma keeps_tidy_refl g : keeps_tidy g g.
Proof. split; [apply walk_ok_refl|done]. Qed.

Lemma keeps_tidy_trans g1 g2 g3 :
  keeps_tidy g1 g2 → keeps_tidy g2 g3 → keeps_tidy g1 g3.
Proof.
  intros [Hw1 Ht1] [Hw2 Ht2]. split; [by eapply walk_ok_trans|auto].
Qed.

Lemma wp_keeps_tidy {A} (m : M generator A) g :
  wp m (λ _ g', walk_ok g g') g →
  (tidy g → wp m (λ _ g', tidy g') g) →
  wp m (λ _ g', keeps_tidy g g') g.
Proof.
  unfold wp, keeps_tidy. destruct (m g) as [[a g']| |]; [|done..].
  intros Hw Ht. split; [done|]. exact Ht.
Qed.

Lemma keeps_tidy_walk_ok rec :
  Forall (respects_slot keeps_tidy) rec → Forall (respects_slot walk_ok) rec.
Proof.
  intros Hrec. eapply Forall_impl; [exact Hrec|].
  intros [m|]; [|done]. simpl. intros Hm g.
  eapply wp_mono; [apply Hm|]. by intros _ g' [? _].
Qed.

Lemma edges_weaken (c c' : nat) (es : list gedge) :
  c ≤ c' →
  Forall (λ e, 1 ≤ e_tail e ≤ c ∧ 1 ≤ e_head e ≤ c) es →
  Forall (λ e, 1 ≤ e_tail e ≤ c' ∧ 1 ≤ e_head e ≤ c') es.
Proof. intros Hc Hes. eapply Forall_impl; [exact Hes|]. intros e. simpl. lia. Qed.

(* the state is given explicitly, built from a tidy state *)
Ltac tidy_done :=
  simplify_eq;
  repeat match goal with
         | H : tidy _ |- _ =>
             let Hids := fresh "Hids" in let Hes := fresh "Hes" in
             let Hlast := fresh "Hlast" in
             destruct H as [Hids Hes Hlast]; gen_simpl
         end;
  split; gen_simpl;
  [ rewrite ?map_app; cbn [map g_id];
    repeat match goal with H : map g_id _ = _ |- _ => rewrite H; clear H end;
    rewrite <- ?app_assoc; cbn [app]; rewrite ?seq_S; cbn [Nat.add];
    rewrite <- ?app_assoc; reflexivity
  | rewrite ?Forall_app, ?Forall_cons, ?Forall_nil; gen_simpl;
    repeat split;
    try (eapply edges_weaken; [|eassumption]; lia);
    repeat match goal with
           | Hl : ∀ p, ?l = Some p → _, Hp : ?l = Some ?q |- _ =>
               pose proof (Hl q Hp); clear Hp
           end;
    lia
  | intros ? ?; simplify_eq;
    repeat match goal with
           | Hl : ∀ p, ?l = Some p → _, Hp : ?l = Some ?q |- _ =>
               pose proof (Hl q Hp); clear Hp
           end;
    lia ].

Lemma process_action_tidy node g :
  tidy g → wp (process_action node) (λ _ g', tidy g') g.
Proof.
  intros Htidy. unfold process_action. wp_run.
  apply wp_edge_from_last; gen_simpl; intros; wp_run; tidy_done.
Qed.

Section Constructs.

Variable rec : list (option (M generator unit)).
Hypothesis Hrec : Forall (respects_slot keeps_tidy) rec.

(* a recursive call from a state that is tidy *)
Ltac tidy_call :=
  eapply (wp_call keeps_tidy); [exact Hrec|];
  let g' := fresh "g" in
  let Hw := fresh "Hw" in let Ht := fresh "Ht" in
  intros g' [Hw Ht];
  let H := fresh "Htidy" in
  assert (H : tidy g') by (apply Ht; tidy_done);
  clear Ht; pose proof (wo_count _ _ Hw); clear Hw; gen_simpl.

Lemma process_while_tidy node g :
  tidy g → wp (process_while node rec) (λ _ g', tidy g') g.
Proof.
  intros Htidy. unfold process_while. wp_run.
  apply wp_edge_from_last; gen_simpl; intros; wp_run;
    tidy_call; wp_run; tidy_done.
Qed.

Lemma process_do_while_tidy ch g :
  tidy g → wp (process_do_while ch rec) (λ _ g', tidy g') g.
Proof.
  intros Htidy. unfold process_do_while. wp_run. tidy_call. wp_run. tidy_done.
Qed.

Lemma process_if_tidy node ch g :
  tidy g → wp (process_if node ch rec) (λ _ g', tidy g') g.
Proof.
  intros Htidy. unfold process_if. wp_run.
  apply wp_edge_from_last; gen_simpl; intros; wp_run;
    tidy_call; wp_run;
    (case_decide;
     [ wp_run; tidy_call; wp_run; tidy_done
     | wp_run; repeat (case_match; wp_run; gen_simpl); done ]).
Qed.

Lemma process_for_tidy ch g :
  tidy g → wp (process_for ch rec) (λ _ g', tidy g') g.
Proof.
  intros Htidy. unfold process_for. wp_go.
  - tidy_call. wp_go.
    apply wp_edge_from_last; gen_simpl; intros; wp_go;
      tidy_call; wp_go; tidy_done.
  - apply wp_edge_from_last; gen_simpl; intros; wp_go;
      tidy_call; wp_go; tidy_done.
Qed.

Lemma process_body_tidy node : respects keeps_tidy (process_body node rec).
Proof.
  pose proof (keeps_tidy_walk_ok _ Hrec) as Hrec'.
  unfold process_body. repeat case_match; intros g.
  - by apply (wp_for_children keeps_tidy);
      [apply keeps_tidy_refl|apply keeps_tidy_trans|..].
  - apply wp_keeps_tidy;
      [apply process_action_walk_ok|apply process_action_tidy].
  - apply wp_keeps_tidy; [by apply process_if_walk_ok|apply process_if_tidy].
  - apply wp_keeps_tidy;
      [by apply process_while_walk_ok|apply process_while_tidy].
  - apply wp_keeps_tidy; [by apply process_for_walk_ok|apply process_for_tidy].
  - apply wp_keeps_tidy;
      [by apply process_do_while_walk_ok|apply process_do_while_tidy].
  - apply wp_ret, keeps_tidy_refl.
  - by apply (wp_for_children keeps_tidy);
      [apply keeps_tidy_refl|apply keeps_tidy_trans|..].
Qed.

End Constructs.

Lemma process_node_tidy n : respects keeps_tidy (_process_node n).
Proof.
  induction n as [ty v ch IH] using ASTNode_tree_ind.
  cbn [_process_node]. apply process_body_tidy.
  by apply (Forall_visits (λ n, respects keeps_tidy (_process_node n))).
Qed.

Lemma generate_steps_tidy ast :
  wp (generate_steps ast) (λ d g, tidy g ∧ d = dot g) init.
Proof.
  unfold generate_steps. wp_go.
  eapply wp_mono; [apply process_node_tidy|].
  intros [] g [Hw Ht]. gen_simpl.
  assert (Htidy : tidy g).
  { apply Ht. split; gen_simpl; [done|constructor|].
    intros p [= <-]. lia. }
  clear Ht Hw. wp_go.
  apply wp_edge_from_last; gen_simpl; intros; wp_go; (split; [tidy_done|done]).
Qed.

(** What [tidy] says of the graph alone. *)
Definition well_formed (d : digraph) : Prop :=
  map g_id (g_nodes d) = seq 1 (length (g_nodes d))
  ∧ Forall (λ e, 1 ≤ e_tail e ≤ length (g_nodes d)
                 ∧ 1 ≤ e_head e ≤ length (g_nodes d)) (g_edges d).

(** X18. In every graph [generate] returns, the nodes are named
    [node1], [node2], ... in the order of their creation, so no name is
    used twice, and both ends of every edge are nodes of the graph:
    no edge mentions a name that was never declared (which Graphviz
    would silently turn into a new, unlabeled node). *)
Theorem generated_graph_is_well_formed ast d :
  generate ast = Ok d → well_formed d.
Proof.
  unfold generate. intros Hgen.
  destruct (generate_steps ast init) as [[d' g]| |] eqn:Hsteps; [|done..].
  injection Hgen as ->.
  destruct (wp_ok _ _ _ _ _ (generate_steps_tidy ast) Hsteps)
    as [[Hids Hes _] ->].
  assert (Hlen : length (g_nodes (dot g)) = node_count g).
  { by rewrite <- (length_map g_id), Hids, length_seq. }
  unfold well_formed. by rewrite Hlen.
Qed.

Lemma generated_graph_is_well_formed_witness :
  let ast :=
    main_program
      [Some (Node "do_while" None
               [Some empty_block; Some (leaf "id" "c")])] in
  let d :=
    mkDigraph
      [mkGNode 1 (Some "Start") oval [];
       mkGNode 2 (Some "while (c)") diamond [];
       mkGNode 3 (Some "") point [("width", "0.01"); ("style", "invis")];
       mkGNode 4 (Some "End") oval []]
      [mkGEdge 1 2 None; mkGEdge 2 2 (Some "true");
       mkGEdge 2 3 (Some "false"); mkGEdge 3 4 None] in
  generate ast = Ok d ∧ well_formed d.
Proof.
  intros ast d.
  assert (Hgen : generate ast = Ok d) by reflexivity.
  split; [exact Hgen|]. exact (generated_graph_is_well_formed ast d Hgen).
Defined.

End FlowchartMore.

(** ** Programs the builder can draw *)

Module Chartable.
Import Flowchart FlowchartProps ParserShapes FlowchartMore.

(** [{ }]: a block without statements. *)
Definition is_empty_block (n : ASTNode) : bool :=
  String.eqb (ntype n) "compound_stmt"
  && match children n with [] => true | _ :: _ => false end.

(** Every [if] has its [else], and no loop has [{ }] for its body. *)
Fixpoint chartable (n : ASTNode) : bool :=
  match n with
  | Node ty _ ch =>
      (if String.eqb ty "if_stmt" then length ch =? 3
       else if String.eqb ty "while" then
         match ch with
         | [_; Some b] => negb (is_empty_block b)
         | _ => true
         end
       else if String.eqb ty "for" then
         match ch with
         | [_; _; _; Some b] => negb (is_empty_block b)
         | _ => true
         end
       else if String.eqb ty "do_while" then
         match ch with
         | [Some b; _] => negb (is_empty_block b)
         | _ => true
         end
       else true)
      && forallb (λ c, match c with
                       | Some m => chartable m
                       | None => true
                       end) ch
  end.

Definition is_action_type (ty : string) : bool :=
  in_types ty ["var_decl"; "assign"; "return_stmt"; "stmt"].

Lemma is_action_type_action n : is_action_type (ntype n) = is_action n.
Proof. done. Qed.

(** *** Labels *)

Lemma expr_to_str_returns e :
  wf_expr e = true → ∃ s, expr_to_str_node e = Ok s.
Proof.
  induction e as [ty v ch IH] using ASTNode_tree_ind. cbn [wf_expr].
  destruct ch as [|[l|] ch]; [|destruct ch as [|[r|] ch]; [done| |done]|done].
  2: destruct ch; [|done].
  - intros Hty%in_types_elem.
    repeat (apply elem_of_cons in Hty as [->|Hty]);
      [by eexists..|by apply elem_of_nil in Hty].
  - intros [[Hty%in_types_elem Hl]%andb_true_iff Hr]%andb_true_iff.
    apply Forall_cons in IH as [IHl [IHr _]%Forall_cons]. simpl in IHl, IHr.
    destruct (IHl Hl) as [sl Hsl], (IHr Hr) as [sr Hsr].
    cbn [expr_to_str_node map]. rewrite Hsl, Hsr.
    repeat (apply elem_of_cons in Hty as [->|Hty]);
      [by eexists..|by apply elem_of_nil in Hty].
Qed.

Lemma expr_child_returns ch i e :
  ch !! i = Some (Some e) → wf_expr e = true → ∃ s, expr_child ch i = Ok s.
Proof.
  intros Hi He. unfold expr_child, index, rbind. rewrite Hi. simpl.
  by apply expr_to_str_returns.
Qed.

(** *** Runs that return *)

(** [m] returns from [s], and what it returns satisfies [Q]. *)
Definition twp {S A} (m : M S A) (Q : A → S → Prop) (s : S) : Prop :=
  match m s with
  | Ok (a, s') => Q a s'
  | _ => False
  end.

Lemma twp_ret {S A} (a : A) (Q : A → S → Prop) s : Q a s → twp (ret a) Q s.
Proof. done. Qed.

Lemma twp_bind {S A B} (m : M S A) (k : A → M S B) (Q : B → S → Prop) s :
  twp m (λ a s', twp (k a) Q s') s → twp (bind m k) Q s.
Proof. unfold twp, bind. by destruct (m s) as [[a s']| |]. Qed.

Lemma twp_get {S} (Q : S → S → Prop) s : Q s s → twp get Q s.
Proof. done. Qed.

Lemma twp_lift {S A} (a : A) (Q : A → S → Prop) s :
  Q a s → twp (lift (Ok a)) Q s.
Proof. done. Qed.

Lemma twp_run {S A} (m : M S A) (Q : A → S → Prop) s a s' :
  m s = Ok (a, s') → Q a s' → twp m Q s.
Proof. unfold twp. by intros ->. Qed.

Lemma twp_eq {S A} (m m' : M S A) (Q : A → S → Prop) s :
  m s = m' s → twp m' Q s → twp m Q s.
Proof. unfold twp. by intros ->. Qed.

Lemma twp_new_node_id (Q : nat → generator → Prop) g :
  Q (S (node_count g))
    (mkGenerator (dot g) (S (node_count g)) (last_node g) (merge_stack g)) →
  twp _new_node_id Q g.
Proof. done. Qed.

Lemma twp_dot_node name label sh attrs (Q : unit → generator → Prop) g :
  Q tt (mkGenerator
          (mkDigraph (g_nodes (dot g) ++ [mkGNode name label sh attrs])
                     (g_edges (dot g)))
          (node_count g) (last_node g) (merge_stack g)) →
  twp (dot_node name label sh attrs) Q g.
Proof. done. Qed.

Lemma twp_dot_edge t head label (Q : unit → generator → Prop) g :
  Q tt (mkGenerator
          (mkDigraph (g_nodes (dot g))
                     (g_edges (dot g) ++ [mkGEdge t head label]))
          (node_count g) (last_node g) (merge_stack g)) →
  twp (dot_edge (Some t) head label) Q g.
Proof. done. Qed.

Lemma twp_set_last_node l (Q : unit → generator → Prop) g :
  Q tt (mkGenerator (dot g) (node_count g) l (merge_stack g)) →
  twp (set_last_node l) Q g.
Proof. done. Qed.

Lemma twp_push_merge m (Q : unit → generator → Prop) g :
  Q tt (mkGenerator (dot g) (node_count g) (last_node g) (merge_stack g ++ [m])) →
  twp (push_merge m) Q g.
Proof. done. Qed.

Lemma twp_edge_from_last target (Q : unit → generator → Prop) g :
  (∀ p, last_node g = Some p →
     Q tt (mkGenerator
             (mkDigraph (g_nodes (dot g))
                        (g_edges (dot g) ++ [mkGEdge p target None]))
             (node_count g) (last_node g) (merge_stack g))) →
  (last_node g = None → Q tt g) →
  twp (edge_from_last target) Q g.
Proof.
  intros HS HN. unfold twp, edge_from_last, bind, get.
  destruct (last_node g) as [p|] eqn:Hl; simpl; [|by apply HN].
  rewrite Hl. by apply HS.
Qed.

Lemma twp_make_invisible_merge (Q : nat → generator → Prop) g :
  Q (S (node_count g))
    (mkGenerator
       (mkDigraph
          (g_nodes (dot g)
           ++ [mkGNode (S (node_count g)) (Some "") point
                 [("width", "0.01"); ("style", "invis")]])
          (g_edges (dot g)))
       (S (node_count g)) (last_node g) (merge_stack g)) →
  twp _make_invisible_merge Q g.
Proof. done. Qed.

Ltac twp_prim :=
  lazymatch goal with
  | |- twp (bind _ _) _ _ => apply twp_bind
  | |- twp (ret _) _ _ => apply twp_ret
  | |- twp get _ _ => apply twp_get
  | |- twp (lift (Ok _)) _ _ => apply twp_lift
  | |- twp _new_node_id _ _ => apply twp_new_node_id
  | |- twp _make_invisible_merge _ _ => apply twp_make_invisible_merge
  | |- twp (dot_node _ _ _ _) _ _ => apply twp_dot_node
  | |- twp (set_last_node _) _ _ => apply twp_set_last_node
  | |- twp (push_merge _) _ _ => apply twp_push_merge
  | |- twp (dot_edge (Some _) _ _) _ _ => apply twp_dot_edge
  | |- twp (edge_from_last _) _ _ =>
      apply twp_edge_from_last; [intros ? ?|intros ?]
  end.

Ltac twp_go :=
  repeat (twp_prim;
          cbn [dot node_count last_node merge_stack g_nodes g_edges fst snd]).

(** *** The walk over a tree the parser built *)

(** The cursor after a walk: set whenever the walk allocated a node, and
    otherwise what it was. *)
Lemma cursor_after_walk g g' :
  walk_ok g g' →
  (node_count g < node_count g' ∨ is_Some (last_node g)) →
  is_Some (last_node g').
Proof.
  intros Hw [Hlt|Hsome]; [by apply (wo_entry _ _ Hw)|].
  destruct (decide (node_count g' = node_count g)) as [Heq|Hne].
  - by rewrite (wo_same _ _ Hw Heq).
  - apply (wo_entry _ _ Hw). pose proof (wo_count _ _ Hw). lia.
Qed.

(** The walk of [n] returns; it has allocated a node unless [n] is
    [{ }]. *)
Definition walks (n : ASTNode) : Prop :=
  ∀ g, ∃ g', _process_node n g = Ok (tt, g')
             ∧ (is_empty_block n = false → node_count g < node_count g').

(* a recursive call whose walk is known to return *)
Ltac walk_child Hn :=
  lazymatch goal with
  | |- twp (_process_node ?n) _ ?g =>
      let g' := fresh "g" in
      let Hrun := fresh "Hrun" in let Halloc := fresh "Halloc" in
      let Hw := fresh "Hw" in
      destruct (Hn g) as (g' & Hrun & Halloc);
      pose proof (process_node_ok _ _ _ Hrun) as Hw;
      apply (twp_run _ _ _ _ _ Hrun); clear Hrun;
      cbn [dot node_count last_node merge_stack g_nodes g_edges fst snd] in *
  end.

Lemma twp_walks n g :
  twp (_process_node n) (λ _ g', is_empty_block n = false →
                                  node_count g < node_count g') g →
  ∃ g', _process_node n g = Ok (tt, g')
        ∧ (is_empty_block n = false → node_count g < node_count g').
Proof.
  unfold twp. destruct (_process_node n g) as [[[] g']| |]; [|done..].
  intros H. by exists g'.
Qed.

Lemma formatter_condition ty v c rest :
  ty = "if_stmt" ∨ ty = "while" → wf_expr c = true →
  ∃ label, _formatter (Node ty v (Some c :: rest)) = Ok label.
Proof.
  intros Hty Hc. destruct (expr_to_str_returns c Hc) as [s Hs].
  cbn [_formatter]. unfold formatter_body, expr_child, index, rbind.
  cbn [lookup list_lookup _expr_to_str]. rewrite Hs.
  destruct Hty as [-> | ->]; by eexists.
Qed.

Ltac split_wf :=
  repeat match goal with
         | H : _ && _ = true |- _ => apply andb_true_iff in H as [? ?]
         | H : is_leaf _ _ = true |- _ => apply is_leaf_inv in H as [? ->]
         end.

(** The label of a statement drawn as a box. *)
Lemma formatter_action n :
  wf_node false n = true → is_action_type (ntype n) = true →
  ∃ label, _formatter n = Ok label.
Proof.
  destruct n as [ty v ch]. cbn [ntype]. intros Hwf Hty%in_types_elem.
  repeat (apply elem_of_cons in Hty as [->|Hty]);
    [..|by apply elem_of_nil in Hty];
    cbn [wf_node] in Hwf;
    cbv beta iota delta [String.eqb Ascii.eqb Bool.eqb] in Hwf;
    repeat case_match; try done; subst; split_wf;
    repeat match goal with
           | H : wf_expr ?e = true |- _ =>
               let s := fresh "s" in let Hs := fresh "Hs" in
               destruct (expr_to_str_returns e H) as [s Hs]; clear H
           end;
    cbn [_formatter map option_map];
    cbv beta iota delta [formatter_body String.eqb Ascii.eqb Bool.eqb];
    unfold expr_child, index, value_of, rbind;
    cbn [lookup list_lookup _expr_to_str nvalue length];
    rewrite ?Hs; repeat case_decide; try done; by eexists.
Qed.

Ltac unfold_calls :=
  unfold get_child, call;
  cbn [map option_map lookup list_lookup length].

Ltac cursor_set :=
  match goal with
  | Hw : walk_ok ?g ?g' |- _ =>
      let t := fresh "t" in let Ht := fresh "Ht" in
      lazymatch goal with
      | |- context [last_node g'] =>
          assert (is_Some (last_node g')) as [t Ht];
          [ apply (cursor_after_walk _ _ Hw);
            cbn [dot node_count last_node merge_stack];
            first [ left; auto; lia | right; by eexists ]
          | rewrite Ht ]
      end
  end.

Lemma action_walks n :
  wf_node false n = true → is_action_type (ntype n) = true → walks n.
Proof.
  intros Hwf Hty g. destruct (formatter_action n Hwf Hty) as [label Hlabel].
  apply twp_walks. eapply twp_eq; [by apply process_node_action|].
  unfold process_action. twp_go. rewrite Hlabel. twp_go; intros _; lia.
Qed.

Lemma while_walks v c b :
  wf_expr c = true → walks b → is_empty_block b = false →
  walks (Node "while" v [Some c; Some b]).
Proof.
  intros Hc Hb Hne g. apply twp_walks. rewrite process_node_while.
  destruct (formatter_condition "while" v c [Some b]) as [label Hlabel];
    [by right|done|].
  unfold process_while. unfold_calls. twp_go. rewrite Hlabel.
  twp_go; walk_child Hb; twp_go; cursor_set; twp_go; intros _;
    pose proof (wo_count _ _ Hw); gen_simpl; lia.
Qed.

Lemma do_while_walks v b c :
  walks b → is_empty_block b = false → wf_expr c = true →
  walks (Node "do_while" v [Some b; Some c]).
Proof.
  intros Hb Hne Hc g. apply twp_walks. rewrite process_node_do_while.
  destruct (expr_child_returns [Some b; Some c] 1 c eq_refl Hc) as [s Hs].
  unfold process_do_while. unfold_calls. twp_go. walk_child Hb. twp_go.
  rewrite Hs. twp_go. cursor_set. twp_go. intros _.
  pose proof (wo_count _ _ Hw). lia.
Qed.

Lemma if_else_walks v c t e :
  wf_expr c = true → walks t → walks e →
  walks (Node "if_stmt" v [Some c; Some t; Some e]).
Proof.
  intros Hc Ht He g. apply twp_walks. rewrite process_node_if.
  destruct (formatter_condition "if_stmt" v c [Some t; Some e])
    as [label Hlabel]; [by left|done|].
  unfold process_if. unfold_calls. twp_go. rewrite Hlabel.
  twp_go; walk_child Ht; twp_go;
    (rewrite decide_True by done); twp_go; walk_child He; twp_go;
    do 2 (cursor_set; twp_go); intros _;
    pose proof (wo_count _ _ Hw); pose proof (wo_count _ _ Hw0);
    gen_simpl; lia.
Qed.

Lemma for_walks v i c u b :
  match i with Some s => walks s | None => True end →
  opt_all wf_expr c = true →
  match u with
  | Some s => wf_node false s = true ∧ is_action_type (ntype s) = true
  | None => True
  end →
  walks b → is_empty_block b = false →
  walks (Node "for" v [i; c; u; Some b]).
Proof.
  intros Hi Hc Hu Hb Hne g. apply twp_walks. rewrite process_node_for.
  assert (Hcond : ∃ s, match c with
                       | Some _ => _expr_to_str c
                       | None => Ok (Some "")
                       end = Ok s).
  { destruct c as [e|]; [|by eexists]. by apply expr_to_str_returns. }
  destruct Hcond as [s Hs].
  assert (Hupd : match u with
                 | Some upd => ∃ label, _formatter upd = Ok label
                 | None => True
                 end).
  { destruct u as [upd|]; [|done]. destruct Hu. by apply formatter_action. }
  unfold process_for.
  destruct i as [init|]; unfold_calls; twp_go.
  - walk_child Hi. twp_go. rewrite Hs.
    twp_go; walk_child Hb; twp_go; cursor_set;
      (destruct u as [upd|]; [destruct Hupd as [label ->]|]);
      twp_go; intros _;
      pose proof (wo_count _ _ Hw); pose proof (wo_count _ _ Hw0);
      gen_simpl; lia.
  - twp_go. rewrite Hs.
    twp_go; walk_child Hb; twp_go; cursor_set;
      (destruct u as [upd|]; [destruct Hupd as [label ->]|]);
      twp_go; intros _; pose proof (wo_count _ _ Hw); gen_simpl; lia.
Qed.

(** The statements of a block, one after the other. *)
Lemma block_walks v ch :
  Forall (λ c, match c with
               | Some s => walks s ∧ is_empty_block s = false
               | None => False
               end) ch →
  walks (Node "compound_stmt" v ch).
Proof.
  intros Hch g.
  assert (Hrun : ∃ g', walk_all ch g = Ok (tt, g')
                       ∧ node_count g ≤ node_count g'
                       ∧ (ch ≠ [] → node_count g < node_count g')).
  { revert g. induction Hch as [|c ch Hc _ IH]; intros g.
    - exists g. by split; [|split; [lia|]].
    - destruct c as [s|]; [|done]. destruct Hc as [Hs Hne].
      destruct (Hs g) as (g1 & Hrun1 & Halloc). specialize (Halloc Hne).
      destruct (IH g1) as (g2 & Hrun2 & Hle & _).
      exists g2. unfold walk_all in *. cbn [map option_map for_children].
      unfold bind. rewrite Hrun1, Hrun2. split; [done|]. split; lia. }
  destruct Hrun as (g' & Hrun & _ & Halloc). exists g'. split.
  - unfold walk_all in Hrun. cbn [_process_node].
    cbv beta iota delta [process_body in_types existsb String.eqb Ascii.eqb
                         Bool.eqb ntype orb].
    exact Hrun.
  - unfold is_empty_block. cbn [ntype children String.eqb Ascii.eqb Bool.eqb andb].
    destruct ch; [done|]. intros _. by apply Halloc.
Qed.

Lemma statement_is_no_block n : wf_node false n = true → is_empty_block n = false.
Proof.
  destruct n as [ty v ch]. cbn [wf_node]. unfold is_empty_block.
  cbn [ntype]. by destruct (String.eqb ty "compound_stmt").
Qed.

Lemma process_node_walks n block :
  wf_node block n = true → chartable n = true → walks n.
Proof.
  revert block. induction n as [ty v ch IH] using ASTNode_tree_ind.
  intros block. cbn [wf_node chartable].
  destruct (String.eqb_spec ty "compound_stmt") as [->|_].
  { intros [_ Hch]%andb_true_iff Hchart. simpl in Hchart.
    apply block_walks.
    induction IH as [|[s|] ch Hs _ IHch]; simpl in *; [constructor| |done].
    apply andb_true_iff in Hch as [Hs' Hch].
    apply andb_true_iff in Hchart as [Hs'' Hchart].
    constructor; [|by apply IHch].
    split; [by eapply Hs|by apply statement_is_no_block]. }
  by_type ty; intros Hwf Hchart;
    cbv beta iota delta [String.eqb Ascii.eqb Bool.eqb] in Hchart;
    try (apply action_walks; [exact Hwf|done]);
    [| | | |done];
    repeat case_match; try done; subst;
    cbn [forallb length Nat.eqb] in Hchart; split_wf;
    repeat match goal with
           | H : Forall _ (_ :: _) |- _ => apply Forall_cons in H as [? H]
           end;
    cbn [child_all] in *.
  all: repeat match goal with
              | H : negb _ = true |- _ => apply negb_true_iff in H
              | H : String.eqb _ _ = true |- _ => apply String.eqb_eq in H
              end.
  all: first [ apply if_else_walks | apply while_walks | apply for_walks
             | apply do_while_walks ];
    eauto.
  all: split; [assumption|].
  all: match goal with H : ntype _ = _ |- _ => by rewrite H end.
Qed.

Lemma program_walks ast :
  wf_program ast = true → chartable ast = true →
  ∀ g, ∃ g', _process_node ast g = Ok (tt, g').
Proof.
  destruct ast as [ty v [|[[fty fv [|[t|] [|[m|] [|[b|] [|? ?]]]]]|] [|? ?]]];
    try done.
  cbn [wf_program].
  intros [[[[[->%String.eqb_eq ->%String.eqb_eq]%andb_true_iff
             (tv & ->)%is_leaf_inv]%andb_true_iff
            (mv & ->)%is_leaf_inv]%andb_true_iff _]%andb_true_iff Hb]%andb_true_iff.
  intros Hchart. simpl in Hchart. rewrite !andb_true_r in Hchart.
  pose proof (process_node_walks b true Hb Hchart) as Hwalks.
  intros g. destruct (Hwalks g) as (g' & Hrun & _). exists g'.
  cbn [_process_node map option_map].
  cbv beta iota delta [process_body in_types existsb String.eqb Ascii.eqb
                       Bool.eqb ntype orb].
  cbn [for_children]. unfold bind at 1.
  cbn [_process_node map option_map].
  cbv beta iota delta [process_body in_types existsb String.eqb Ascii.eqb
                       Bool.eqb ntype orb].
  cbn [for_children]. unfold bind, ret. by rewrite Hrun.
Qed.

Lemma well_formed_chartable_is_drawn ast :
  wf_program ast = true → chartable ast = true → ∃ d, generate ast = Ok d.
Proof.
  intros Hwf Hchart. pose proof (program_walks ast Hwf Hchart) as Hwalks.
  unfold generate, generate_steps.
  match goal with
  | |- ∃ d, match ?m init with _ => _ end = _ =>
      assert (H : twp m (λ _ _, True) init);
      [|unfold twp in H; destruct (m init) as [[d g]| |]; [by exists d|done..]]
  end.
  twp_go. destruct (Hwalks (mkGenerator
                              (mkDigraph [mkGNode 1 (Some "Start") oval []] [])
                              1 (Some 1) [])) as (g' & Hrun).
  apply (twp_run _ _ _ _ _ Hrun). twp_go; done.
Qed.

(** X19. On a tree [parse] returned in which every [if] has an [else]
    branch and no loop has the empty block [{ }] for its body, the
    builder meets none of the failures of its own code and returns a
    graph: the walk never reaches the undefined name of the else-less
    [if], never draws an edge from an unset cursor, and finds every
    child and label it asks for.  (The recursion limit of the Python
    interpreter is not modelled: a tree nested deeper than the limit
    allows makes the interpreter raise [RecursionError].) *)
Theorem chartable_programs_are_drawn tokens ast :
  Parser.parse tokens = Ok ast → chartable ast = true →
  ∃ d, generate ast = Ok d.
Proof.
  intros Hparse. apply well_formed_chartable_is_drawn. by eapply parse_wf.
Qed.

Lemma chartable_programs_are_drawn_witness :
  let code :=
    "int main() { int i = 0; while (i < 3) { if (i == 1) x = 1; else { } i = i + 1; } for (;;) i = 0; do { i = 1; } while (i < 2); return 0; }" in
  let tokens := match Lexer.lexer code with Ok t => t | _ => [] end in
  let ast := match Parser.parse tokens with Ok a => a | _ => empty_block end in
  Lexer.lexer code = Ok tokens
  ∧ Parser.parse tokens = Ok ast ∧ chartable ast = true
  ∧ ∃ d, generate ast = Ok d.
Proof.
  intros code tokens ast.
  assert (Hlex : Lexer.lexer code = Ok tokens) by (by vm_compute).
  assert (Hparse : Parser.parse tokens = Ok ast) by (by vm_compute).
  assert (Hchart : chartable ast = true) by (by vm_compute).
  split; [exact Hlex|]. split; [exact Hparse|]. split; [exact Hchart|].
  exact (chartable_programs_are_drawn tokens ast Hparse Hchart).
Defined.

End Chartable.

(** ** Labels of parsed expressions *)

Module Labels.
Import Parser ParserProps ParserShapes ParserMore Flowchart LexerMore.

Definition is_paren (t : token) : bool :=
  bool_decide (ttype t = LPAREN) || bool_decide (ttype t = RPAREN).

(** The texts of the tokens that are not parentheses. *)
Fixpoint texts (l : list token) : list string :=
  match l with
  | [] => []
  | t :: l' =>
      if is_paren t then texts l'
      else match tvalue t with
           | Some v => v :: texts l'
           | None => texts l'
           end
  end.

Lemma texts_app l1 l2 : texts (l1 ++ l2) = texts l1 ++ texts l2.
Proof.
  induction l1 as [|t l1 IH]; [done|]. simpl.
  destruct (is_paren t); [done|]. destruct (tvalue t); [|done].
  by rewrite IH.
Qed.

Lemma append_assoc_str (a b c : string) : (a +:+ b) +:+ c = a +:+ b +:+ c.
Proof. induction a as [|x a IH]; [done|]. change (String x ((a +:+ b) +:+ c) = String x (a +:+ b +:+ c)). by f_equal. Qed.

Lemma concat_sep_app sep (l1 l2 : list string) :
  l1 ≠ [] → l2 ≠ [] →
  String.concat sep (l1 ++ l2)
  = String.concat sep l1 +:+ sep +:+ String.concat sep l2.
Proof.
  intros H1 H2. induction l1 as [|a l1 IH]; [done|].
  destruct l1 as [|b l1].
  - destruct l2 as [|c l2]; [done|]. done.
  - cbn [app String.concat] in *. rewrite IH by done.
    by rewrite !append_assoc_str.
Qed.

Section Printing.

Variable ts : list token.
Hypothesis valued : Forall (λ t, is_Some (tvalue t)) ts.

(** The tokens from [pos] up to [pos']. *)
Definition range (pos pos' : nat) : list token :=
  take (pos' - pos) (drop pos ts).

Lemma range_split pos mid pos' :
  pos ≤ mid ≤ pos' → range pos pos' = range pos mid ++ range mid pos'.
Proof.
  intros [H1 H2]. unfold range.
  replace (pos' - pos) with ((mid - pos) + (pos' - mid)) by lia.
  rewrite <- take_take_drop. do 2 f_equal.
  rewrite drop_drop. f_equal. lia.
Qed.

Lemma range_one pos :
  pos < length ts → range pos (S pos) = [token_at ts pos].
Proof.
  intros Hlt. unfold range. rewrite (drop_token_at ts pos Hlt).
  replace (S pos - pos) with 1 by lia. done.
Qed.

Lemma token_valued pos :
  pos < length ts → ∃ v, tvalue (token_at ts pos) = Some v.
Proof.
  intros Hlt. unfold token_at.
  destruct (lookup_lt_is_Some_2 ts pos Hlt) as [t Ht]. rewrite Ht. simpl.
  exact (proj1 (Forall_lookup _ _) valued _ _ Ht).
Qed.

(** [e], parsed from the tokens from [pos] up to [pos'], prints as
    their texts joined by single spaces. *)
Definition printed (pos : nat) (e : ASTNode) (pos' : nat) : Prop :=
  pos ≤ pos' ∧ texts (range pos pos') ≠ []
  ∧ expr_to_str_node e = Ok (Some (String.concat " " (texts (range pos pos')))).

Definition prints (m : M nat ASTNode) : Prop :=
  ∀ pos e pos', m pos = Ok (e, pos') → printed pos e pos'.

(** What [eat] tells about the token it consumed. *)
Lemma eat_token kind pos tok pos' :
  kind ≠ EOF → eat ts kind pos = Ok (tok, pos') →
  pos' = S pos ∧ tok = token_at ts pos ∧ ttype tok = kind
  ∧ range pos (S pos) = [tok] ∧ ∃ v, tvalue tok = Some v.
Proof.
  intros Hkind (-> & Hty & ->)%eat_inv.
  assert (Hlt : pos < length ts) by (apply token_at_not_eof; congruence).
  split; [done|]. split; [done|]. split; [done|].
  split; [by apply range_one|by apply token_valued].
Qed.

Lemma printed_atom ty pos tok :
  ty = "num" ∨ ty = "id" →
  ttype tok = NUM ∨ ttype tok = ID →
  eat ts (ttype tok) pos = Ok (tok, S pos) →
  printed pos (Node ty (tvalue tok) []) (S pos).
Proof.
  intros Hty Hkind Heat.
  apply eat_token in Heat as (_ & _ & _ & Hrange & v & Hv);
    [|by destruct Hkind as [-> | ->]].
  unfold printed. rewrite Hrange. cbn [texts]. unfold is_paren.
  rewrite !bool_decide_eq_false_2 by (by destruct Hkind as [-> | ->]).
  rewrite Hv. simpl. split; [lia|]. split; [done|].
  by destruct Hty as [-> | ->].
Qed.

Lemma printed_parens pos e p1 tok1 tok2 :
  eat ts LPAREN pos = Ok (tok1, S pos) →
  printed (S pos) e p1 →
  eat ts RPAREN p1 = Ok (tok2, S p1) →
  printed pos e (S p1).
Proof.
  intros (_ & _ & Hty1 & Hr1 & _)%eat_token (Hle & Hne & Hstr)
         (_ & _ & Hty2 & Hr2 & _)%eat_token; [|done..].
  unfold printed.
  rewrite (range_split pos (S pos) (S p1)) by lia.
  rewrite (range_split (S pos) p1 (S p1)) by lia.
  rewrite Hr1, Hr2, !texts_app. cbn [texts]. unfold is_paren.
  rewrite Hty1, Hty2. cbn. rewrite app_nil_r.
  split; [lia|done].
Qed.

Lemma printed_binary kind pos left p1 tok right p2 :
  kind = "comparison" ∨ kind = "arith_expr" ∨ kind = "term" →
  printed pos left p1 →
  eat ts OP p1 = Ok (tok, S p1) →
  printed (S p1) right p2 →
  printed pos (Node kind (tvalue tok) [Some left; Some right]) p2.
Proof.
  intros Hkind (Hle1 & Hne1 & Hstr1)
         (_ & _ & Hty & Hr & v & Hv)%eat_token (Hle2 & Hne2 & Hstr2); [|done].
  unfold printed.
  rewrite (range_split pos p1 p2) by lia.
  rewrite (range_split p1 (S p1) p2) by lia.
  rewrite Hr, !texts_app. cbn [texts]. unfold is_paren. rewrite Hty, Hv. cbn [orb bool_decide].
  rewrite !bool_decide_eq_false_2 by done. cbn [orb app].
  split; [lia|]. split.
  { intros [? _]%app_eq_nil. done. }
  cbn [expr_to_str_node map]. rewrite Hstr1, Hstr2.
  rewrite concat_sep_app by done.
  destruct (texts (range (S p1) p2)) as [|w ws] eqn:Hws; [done|].
  change (String.concat " " (v :: w :: ws))
    with (v +:+ " " +:+ String.concat " " (w :: ws)).
  by destruct Hkind as [-> | [-> | ->]].
Qed.

Lemma prints_factor e : prints e → prints (factor ts e).
Proof.
  intros He pos n pos'. unfold factor.
  intros (tok & p0 & [= <- <-] & Hrun)%bind_inv_ok.
  repeat case_decide.
  - apply bind_inv_ok in Hrun as (t & p1 & Heat & [= <- <-]).
    pose proof Heat as (-> & _ & ->)%eat_inv.
    apply printed_atom; auto. by replace (ttype (token_at ts pos)) with NUM.
  - apply bind_inv_ok in Hrun as (t & p1 & Heat & [= <- <-]).
    pose proof Heat as (-> & _ & ->)%eat_inv.
    apply printed_atom; auto. by replace (ttype (token_at ts pos)) with ID.
  - apply bind_inv_ok in Hrun as (t1 & p1 & Heat1 & Hrun).
    apply bind_inv_ok in Hrun as (n' & p2 & Hexpr & Hrun).
    apply bind_inv_ok in Hrun as (t2 & p3 & Heat2 & [= <- <-]).
    pose proof Heat1 as (_ & _ & ->)%eat_inv.
    pose proof Heat2 as (_ & _ & ->)%eat_inv.
    eapply printed_parens; [exact Heat1| |exact Heat2]. by apply He.
  - done.
Qed.

Lemma prints_binary_step kind operand pos0 left :
  kind = "comparison" ∨ kind = "arith_expr" ∨ kind = "term" →
  prints operand →
  ∀ p1 n p2, printed pos0 left p1 →
    binary_step ts kind operand left p1 = Ok (n, p2) → printed pos0 n p2.
Proof.
  intros Hkind Hop p1 n p2 Hleft. unfold binary_step.
  intros (tok & p & Heat & Hrun)%bind_inv_ok.
  apply bind_inv_ok in Hrun as (rhs & p' & Hrhs & [= <- <-]).
  pose proof Heat as (_ & _ & ->)%eat_inv.
  eapply printed_binary; [done|exact Hleft|exact Heat|by apply Hop].
Qed.

Lemma while_printed n test step pos0 acc pos r pos' :
  (∀ acc p acc' p', printed pos0 acc p → step acc p = Ok (acc', p') →
     printed pos0 acc' p') →
  printed pos0 acc pos →
  while_current ts n test step acc pos = Ok (r, pos') →
  printed pos0 r pos'.
Proof.
  intros Hstep. revert acc pos.
  induction n as [|n IH]; intros acc pos Hacc; cbn [while_current];
    intros (cur & p & [= <- <-] & Hrun)%bind_inv_ok;
    destruct (test _); try done; try by injection Hrun as <- <-.
  apply bind_inv_ok in Hrun as (acc' & p' & Hrun1 & Hrun2).
  eapply IH; [|exact Hrun2]. by eapply Hstep.
Qed.

Lemma prints_chain kind first operand test :
  kind = "comparison" ∨ kind = "arith_expr" ∨ kind = "term" →
  prints first → prints operand →
  prints (do node <- first;
          while_current ts (length ts) test (binary_step ts kind operand) node).
Proof.
  intros Hkind Hfirst Hop pos n pos'.
  intros (node & p & Hrun1 & Hrun2)%bind_inv_ok.
  eapply while_printed; [|by apply Hfirst|exact Hrun2].
  intros acc p1 acc' p2 Hacc. by apply prints_binary_step.
Qed.

Lemma prints_term e : prints e → prints (term ts e).
Proof. intros He. apply prints_chain; auto using prints_factor. Qed.

Lemma prints_arith_expr e : prints e → prints (arith_expr ts e).
Proof. intros He. apply prints_chain; auto using prints_term. Qed.

Lemma prints_expr_body e : prints e → prints (expr_body ts e).
Proof.
  intros He pos n pos'. unfold expr_body.
  intros (left & p1 & Hleft%prints_arith_expr & Hrun)%bind_inv_ok; [|done].
  apply bind_inv_ok in Hrun as (cur & p & [= <- <-] & Hrun).
  destruct (is_op _ _); [|by injection Hrun as <- <-].
  eapply (prints_binary_step "comparison" (arith_expr ts e));
    [auto|by apply prints_arith_expr|exact Hleft|exact Hrun].
Qed.

Lemma prints_expr fuel : prints (expr ts fuel).
Proof.
  induction fuel as [|fuel IH]; [done|]. by apply prints_expr_body.
Qed.

(** *** Declarations, assignments and return statements *)

Hypothesis return_spelled :
  Forall (λ t, ttype t = RETURN → tvalue t = Some "return") ts.

(** The label of [n], parsed from the tokens from [pos] up to [pos'],
    is the texts of these tokens but the last, joined by single
    spaces. *)
Definition labelled (pos : nat) (n : ASTNode) (pos' : nat) : Prop :=
  _formatter n
  = Ok (Some (String.concat " " (texts (range pos (pos' - 1))))).

Lemma texts_eaten kind pos tok pos' :
  kind ≠ EOF → kind ≠ LPAREN → kind ≠ RPAREN →
  eat ts kind pos = Ok (tok, pos') →
  pos' = S pos ∧ ∃ v, tvalue tok = Some v ∧ texts (range pos (S pos)) = [v].
Proof.
  intros Heof Hl Hr Heat.
  apply eat_token in Heat as (-> & _ & Hty & Hrange & v & Hv); [|done].
  split; [done|]. exists v. split; [done|].
  rewrite Hrange. cbn [texts]. unfold is_paren.
  rewrite !bool_decide_eq_false_2 by congruence. by rewrite Hv.
Qed.

Lemma is_assign_op_value tok :
  is_assign_op tok = true → tvalue tok = Some "=".
Proof.
  unfold is_assign_op, is_op. intros [_ Hv]%andb_true_iff.
  destruct (tvalue tok) as [v|]; [|done]. cbn in Hv.
  rewrite orb_false_r in Hv. by apply String.eqb_eq in Hv as ->.
Qed.

Lemma labelled_var_decl e pos n pos' :
  prints e → var_decl ts e pos = Ok (n, pos') → labelled pos n pos'.
Proof.
  intros He. unfold var_decl, type_spec.
  intros (ty & p1 & Hty & Hrun)%bind_inv_ok.
  apply bind_inv_ok in Hty as (tok & p1' & Hint & [= <- <-]).
  apply bind_inv_ok in Hrun as (id_tok & p2 & Hid & Hrun).
  apply bind_inv_ok in Hrun as (cur & p2' & [= <- <-] & Hrun).
  apply texts_eaten in Hint as (-> & vt & Hvt & Htt); [|done..].
  apply texts_eaten in Hid as (-> & vi & Hvi & Hti); [|done..].
  destruct (is_assign_op _) eqn:Hop.
  - apply bind_inv_ok in Hrun as (op & p3 & Heq & Hrun).
    apply bind_inv_ok in Hrun as (init & p4 & Hinit & Hrun).
    apply bind_inv_ok in Hrun as (semi & p5 & Hsemi & [= <- <-]).
    pose proof Heq as (-> & _ & _)%eat_inv.
    apply texts_eaten in Heq as (-> & vo & Hvo & Hto); [|done..].
    apply is_assign_op_value in Hop. rewrite Hop in Hvo. injection Hvo as <-.
    apply He in Hinit as (Hle & Hne & Hstr).
    apply eat_inv in Hsemi as (_ & _ & ->).
    unfold labelled. replace (S p4 - 1) with p4 by lia.
    rewrite (range_split pos (S pos) p4) by lia.
    rewrite (range_split (S pos) (S (S pos)) p4) by lia.
    rewrite (range_split (S (S pos)) (S (S (S pos))) p4) by lia.
    rewrite !texts_app, Htt, Hti, Hto.
    cbn [_formatter map option_map formatter_body String.eqb Ascii.eqb
         Bool.eqb index lookup list_lookup value_of nvalue length
         expr_child _expr_to_str].
    cbn. rewrite Hvt, Hvi, Hstr. cbn [py_str].
    destruct (texts (range _ p4)) as [|w ws]; [done|]. reflexivity.
  - apply bind_inv_ok in Hrun as (semi & p5 & Hsemi & [= <- <-]).
    apply eat_inv in Hsemi as (_ & _ & ->).
    unfold labelled. replace (S (S (S pos)) - 1) with (S (S pos)) by lia.
    rewrite (range_split pos (S pos) (S (S pos))) by lia.
    rewrite !texts_app, Htt, Hti. cbn. by rewrite Hvt, Hvi.
Qed.

Lemma labelled_assign_stmt e pos n pos' :
  prints e → is_assign_op (token_at ts (pos + 1)) = true →
  assign_stmt ts e pos = Ok (n, pos') → labelled pos n pos'.
Proof.
  intros He Hop. unfold assign_stmt.
  intros (id_tok & p1 & Hid & Hrun)%bind_inv_ok.
  apply bind_inv_ok in Hrun as (op & p2 & Heq & Hrun).
  apply bind_inv_ok in Hrun as (rhs & p3 & Hrhs & Hrun).
  apply bind_inv_ok in Hrun as (semi & p4 & Hsemi & [= <- <-]).
  apply texts_eaten in Hid as (-> & vi & Hvi & Hti); [|done..].
  pose proof Heq as (-> & _ & _)%eat_inv.
  apply texts_eaten in Heq as (-> & vo & Hvo & Hto); [|done..].
  replace (pos + 1) with (S pos) in Hop by lia.
  apply is_assign_op_value in Hop. rewrite Hop in Hvo. injection Hvo as <-.
  apply He in Hrhs as (Hle & Hne & Hstr).
  apply eat_inv in Hsemi as (_ & _ & ->).
  unfold labelled. replace (S p3 - 1) with p3 by lia.
  rewrite (range_split pos (S pos) p3) by lia.
  rewrite (range_split (S pos) (S (S pos)) p3) by lia.
  rewrite !texts_app, Hti, Hto.
  cbn. rewrite Hvi, Hstr. cbn [py_str].
  destruct (texts (range _ p3)) as [|w ws]; [done|]. reflexivity.
Qed.

Lemma labelled_return_stmt e pos n pos' :
  prints e → return_stmt ts e pos = Ok (n, pos') → labelled pos n pos'.
Proof.
  intros He. unfold return_stmt.
  intros (tok & p1 & Hret & Hrun)%bind_inv_ok.
  apply bind_inv_ok in Hrun as (rhs & p3 & Hrhs & Hrun).
  apply bind_inv_ok in Hrun as (semi & p4 & Hsemi & [= <- <-]).
  pose proof Hret as (-> & Hkind & _)%eat_inv.
  apply texts_eaten in Hret as (-> & vr & Hvr & Htr); [|done..].
  assert (vr = "return") as ->.
  { assert (Hlt : pos < length ts) by (apply token_at_not_eof; congruence).
    unfold token_at in Hvr, Hkind.
    destruct (lookup_lt_is_Some_2 ts pos Hlt) as [t Ht].
    rewrite Ht in Hvr, Hkind. cbn in Hvr, Hkind.
    pose proof (proj1 (Forall_lookup _ _) return_spelled _ _ Ht Hkind).
    congruence. }
  apply He in Hrhs as (Hle & Hne & Hstr).
  apply eat_inv in Hsemi as (_ & _ & ->).
  unfold labelled. replace (S p3 - 1) with p3 by lia.
  rewrite (range_split pos (S pos) p3) by lia.
  rewrite !texts_app, Htr.
  cbn. rewrite Hstr. cbn [py_str].
  destruct (texts (range _ p3)) as [|w ws]; [done|]. reflexivity.
Qed.

(** The statements drawn as one box with their own text. *)
Definition is_simple (n : ASTNode) : bool :=
  in_types (ntype n) ["var_decl"; "assign"; "return_stmt"].

Lemma labelled_stmt fuel pos n pos' :
  stmt ts fuel pos = Ok (n, pos') → is_simple n = true →
  labelled pos n pos'.
Proof.
  destruct fuel as [|fuel]; [done|]. cbn [stmt]. unfold stmt_body.
  intros (tok & p & [= <- <-] & Hrun)%bind_inv_ok Hsimple.
  pose proof (prints_expr (S fuel)) as He.
  repeat case_decide.
  - by eapply labelled_var_decl.
  - apply bind_inv_ok in Hrun as (next & p & [= <- <-] & Hrun).
    destruct (is_assign_op _) eqn:Hop.
    + by eapply labelled_assign_stmt.
    + apply generic_stmt_type in Hrun. unfold of_type in Hrun.
      unfold is_simple in Hsimple. by rewrite Hrun in Hsimple.
  - assert (Hif : yields (if_stmt ts (expr ts (S fuel)) (stmt ts fuel)
                            (compound_stmt_body ts (stmt ts fuel)))
                         (of_type "if_stmt"))
      by (unfold if_stmt; by yields_steps fail).
    apply Hif in Hrun. unfold of_type in Hrun.
    unfold is_simple in Hsimple. by rewrite Hrun in Hsimple.
  - by eapply labelled_return_stmt.
  - apply while_stmt_type in Hrun. unfold of_type in Hrun.
    unfold is_simple in Hsimple. by rewrite Hrun in Hsimple.
  - apply for_stmt_type in Hrun. unfold of_type in Hrun.
    unfold is_simple in Hsimple. by rewrite Hrun in Hsimple.
  - apply do_while_stmt_type in Hrun. unfold of_type in Hrun.
    unfold is_simple in Hsimple. by rewrite Hrun in Hsimple.
  - done.
Qed.

End Printing.

Lemma scanned_return_spelled text toks :
  scanned text toks →
  Forall (λ t, ttype t = RETURN → tvalue t = Some "return") toks.
Proof.
  induction 1 as [| |k w rest toks Hskip Hmis Hlex _ IH];
    [constructor|done|]. constructor; [|done].
  cbn. intros ->. cbn in Hlex. by apply bool_decide_eq_true in Hlex as ->.
Qed.

(** X20. The text the builder writes for an expression the parser
    returned is the texts of the tokens the parser read for it, without
    the parentheses, joined by single spaces: the spacing of the source
    is normalised and its grouping is not shown.  (The recursion limit
    of the Python interpreter is not modelled.) *)
Theorem expression_label_is_its_tokens code tokens fuel pos e pos' :
  Lexer.lexer code = Ok tokens →
  expr tokens fuel pos = Ok (e, pos') →
  _expr_to_str (Some e)
  = Ok (Some (String.concat " " (texts (range tokens pos pos')))).
Proof.
  intros Hvalued%lexer_valued Hrun.
  by apply (prints_expr tokens Hvalued) in Hrun as (_ & _ & Hstr).
Qed.

Lemma expression_label_is_its_tokens_witness :
  let code := "(a+b)*c<10" in
  let tokens := match Lexer.lexer code with Ok t => t | _ => [] end in
  let e := match expr tokens 2 0 with Ok (e, _) => e | _ => empty_block end in
  Lexer.lexer code = Ok tokens ∧ expr tokens 2 0 = Ok (e, 9)
  ∧ _expr_to_str (Some e) = Ok (Some "a + b * c < 10").
Proof.
  intros code tokens e.
  assert (Hlex : Lexer.lexer code = Ok tokens) by (by vm_compute).
  assert (Hrun : expr tokens 2 0 = Ok (e, 9)) by (by vm_compute).
  split; [exact Hlex|]. split; [exact Hrun|].
  exact (expression_label_is_its_tokens code tokens 2 0 e 9 Hlex Hrun).
Defined.

(** X21. The box label of a declaration, an assignment or a return
    statement the parser returned is the texts of its tokens, without
    the closing semicolon and without parentheses, joined by single
    spaces.  (The recursion limit of the Python interpreter is not
    modelled.) *)
Theorem simple_statement_label_is_its_tokens code tokens fuel pos n pos' :
  Lexer.lexer code = Ok tokens →
  stmt tokens fuel pos = Ok (n, pos') →
  is_simple n = true →
  _formatter n
  = Ok (Some (String.concat " " (texts (range tokens pos (pos' - 1))))).
Proof.
  intros Hlex Hrun Hsimple.
  apply (labelled_stmt tokens (lexer_valued _ _ Hlex)
           (scanned_return_spelled _ _ (lexer_scanned _ _ Hlex))
           fuel pos n pos' Hrun Hsimple).
Qed.

Lemma simple_statement_label_is_its_tokens_witness :
  let code := "int  area=(w+2)*h;" in
  let tokens := match Lexer.lexer code with Ok t => t | _ => [] end in
  let n := match stmt tokens 2 0 with Ok (n, _) => n | _ => empty_block end in
  Lexer.lexer code = Ok tokens ∧ stmt tokens 2 0 = Ok (n, 11)
  ∧ is_simple n = true
  ∧ _formatter n = Ok (Some "int area = w + 2 * h").
Proof.
  intros code tokens n.
  assert (Hlex : Lexer.lexer code = Ok tokens) by (by vm_compute).
  assert (Hrun : stmt tokens 2 0 = Ok (n, 11)) by (by vm_compute).
  assert (Hsimple : is_simple n = true) by (by vm_compute).
  split; [exact Hlex|]. split; [exact Hrun|]. split; [exact Hsimple|].
  exact (simple_statement_label_is_its_tokens
           code tokens 2 0 n 11 Hlex Hrun Hsimple).
Defined.

End Labels.

(** ** Every node of the flowchart is linked *)

Module FlowchartLinks.
Import Flowchart FlowchartProps FlowchartMore.

(** An edge of [es] enters, or leaves, the node [id]. *)
Definition has_in (es : list gedge) (id : nat) : Prop :=
  ∃ e, e ∈ es ∧ e_head e = id.
Definition has_out (es : list gedge) (id : nat) : Prop :=
  ∃ e, e ∈ es ∧ e_tail e = id.

Lemma has_in_here es e id : e_head e = id → has_in (es ++ [e]) id.
Proof. intros He. exists e. split; [set_solver|done]. Qed.

Lemma has_out_here es e id : e_tail e = id → has_out (es ++ [e]) id.
Proof. intros He. exists e. split; [set_solver|done]. Qed.

Lemma has_in_app es es' id : has_in es id → has_in (es ++ es') id.
Proof. intros (e & He & Hid). exists e. split; [set_solver|done]. Qed.

Lemma has_out_app es es' id : has_out es id → has_out (es ++ es') id.
Proof. intros (e & He & Hid). exists e. split; [set_solver|done]. Qed.

(** What a walk from [g] to [g'] leaves behind: an edge enters each
    node it allocated but the first, and an edge leaves each node it
    allocated but the one the cursor is left on. *)
Record linked (g g' : generator) : Prop := mkLinked {
  lk_in : ∀ id, S (node_count g) < id ≤ node_count g' →
                has_in (g_edges (dot g')) id;
  lk_out : ∀ id, node_count g < id ≤ node_count g' →
                 last_node g' ≠ Some id → has_out (g_edges (dot g')) id
}.

Definition links (g g' : generator) : Prop := walk_ok g g' ∧ linked g g'.

Lemma walk_edges_in g g' id :
  walk_ok g g' → has_in (g_edges (dot g)) id → has_in (g_edges (dot g')) id.
Proof. intros [_ _ (es & -> & _) _ _ _]. apply has_in_app. Qed.

Lemma walk_edges_out g g' id :
  walk_ok g g' → has_out (g_edges (dot g)) id → has_out (g_edges (dot g')) id.
Proof. intros [_ _ (es & -> & _) _ _ _]. apply has_out_app. Qed.

Lemma links_refl g : links g g.
Proof. split; [apply walk_ok_refl|]. split; intros id; lia. Qed.

Lemma links_trans g1 g2 g3 : links g1 g2 → links g2 g3 → links g1 g3.
Proof.
  intros [Hw1 [Hin1 Hout1]] [Hw2 [Hin2 Hout2]].
  split; [by eapply walk_ok_trans|].
  pose proof (wo_count _ _ Hw1) as Hc1. pose proof (wo_count _ _ Hw2) as Hc2.
  split; intros id Hid.
  - destruct (decide (id ≤ node_count g2)) as [Hle|Hgt].
    { eapply walk_edges_in; [exact Hw2|]. apply Hin1. lia. }
    destruct (decide (id = S (node_count g2))) as [->|Hne].
    + destruct (wo_entry _ _ Hw1) as [[p Hp] _]; [lia|].
      destruct (wo_entry _ _ Hw2) as [_ Hedge]; [lia|].
      eexists. split; [exact (Hedge p Hp)|done].
    + apply Hin2. lia.
  - intros Hlast.
    destruct (decide (id ≤ node_count g2)) as [Hle|Hgt]; [|apply Hout2; [lia|done]].
    destruct (decide (last_node g2 = Some id)) as [Hcur|Hcur].
    + destruct (decide (node_count g3 = node_count g2)) as [Heq|Hne].
      { apply (wo_same _ _ Hw2) in Heq. by subst g3. }
      destruct (wo_entry _ _ Hw2) as [_ Hedge]; [lia|].
      eexists. split; [exact (Hedge id Hcur)|done].
    + eapply walk_edges_out; [exact Hw2|]. apply Hout1; [lia|done].
Qed.

Lemma wp_links {A} (m : M generator A) g :
  wp m (λ _ g', walk_ok g g') g →
  wp m (λ _ g', linked g g') g →
  wp m (λ _ g', links g g') g.
Proof.
  unfold wp, links. destruct (m g) as [[a g']| |]; [|done..]. by split.
Qed.

Lemma links_walk_ok rec :
  Forall (respects_slot links) rec → Forall (respects_slot walk_ok) rec.
Proof.
  intros Hrec. eapply Forall_impl; [exact Hrec|].
  intros [m|]; [|done]. simpl. intros Hm g.
  eapply wp_mono; [apply Hm|]. by intros _ g' [? _].
Qed.

Lemma process_action_linked node g :
  wp (process_action node) (λ _ g', linked g g') g.
Proof.
  unfold process_action. wp_run.
  apply wp_edge_from_last; gen_simpl; intros; wp_run;
    (split; gen_simpl; intros id Hid; [lia|]; intros Hlast;
     assert (id = S (node_count g)) as -> by lia; done).
Qed.

Section Constructs.

Variable rec : list (option (M generator unit)).
Hypothesis Hrec : Forall (respects_slot links) rec.

(* after a recursive call: what the walk has linked, and how its edges
   extend the edges before it *)
Ltac links_call :=
  eapply (wp_call links); [exact Hrec|];
  let g' := fresh "g" in
  let Hw := fresh "Hw" in let Hin := fresh "Hin" in let Hout := fresh "Hout" in
  intros g' [Hw [Hin Hout]];
  let Hc := fresh "Hc" in let Hsame := fresh "Hsame" in
  let Hent := fresh "Hent" in
  let Hmi := fresh "Hmi" in let Hmo := fresh "Hmo" in
  pose proof (wo_count _ _ Hw) as Hc;
  pose proof (wo_same _ _ Hw) as Hsame;
  pose proof (wo_entry _ _ Hw) as Hent;
  pose proof (λ id, walk_edges_in _ _ id Hw) as Hmi;
  pose proof (λ id, walk_edges_out _ _ id Hw) as Hmo;
  clear Hw; gen_simpl.

Ltac not_cursor :=
  first
    [ done
    | solve [intros [= ?]; lia]
    | match goal with
      | |- ?l ≠ Some _ =>
          match goal with H : l = _ |- _ => rewrite H end;
          first [done | intros [= ?]; lia]
      end ].

(* an edge into [id]: one of the edges drawn here, or one a walk drew *)
Ltac in_search :=
  gen_simpl;
  lazymatch goal with
  | |- has_in (_ ++ [?e]) ?id =>
      let Hd := fresh "Hd" in
      destruct (decide (e_head e = id)) as [Hd|Hd];
      [ by apply has_in_here | apply has_in_app; in_search ]
  | |- has_in ?L ?x =>
      first
        [ solve [exfalso; lia]
        | lazymatch goal with
          | H : ∀ id, ?a < id ≤ ?b → has_in L id |- _ =>
              let Hr := fresh "Hr" in
              destruct (decide (a < x ≤ b)) as [Hr|Hr];
              [ first [solve [exfalso; lia] | by apply H]
              | clear H; in_search ]
          | H : ∀ id, has_in _ id → has_in L id |- _ =>
              apply H; clear H; in_search
          end ]
  end.

Ltac out_search :=
  gen_simpl;
  lazymatch goal with
  | |- has_out (_ ++ [?e]) ?id =>
      let Hd := fresh "Hd" in
      destruct (decide (e_tail e = id)) as [Hd|Hd];
      [ by apply has_out_here | apply has_out_app; out_search ]
  | |- has_out ?L ?x =>
      first
        [ solve [exfalso; lia]
        | lazymatch goal with
          | H : ∀ id, ?a < id ≤ ?b → _ → has_out L id |- _ =>
              let Hr := fresh "Hr" in
              destruct (decide (a < x ≤ b)) as [Hr|Hr];
              [ first [solve [exfalso; lia] | apply H; [done|not_cursor]]
              | clear H; out_search ]
          | H : ∀ id, has_out _ id → has_out L id |- _ =>
              apply H; clear H; out_search
          end ]
  end.

(* whether the last walk allocated a node: if not, it changed nothing;
   if so, it left the cursor set *)
Ltac settle_walks :=
  simplify_eq;
  repeat match goal with
         | Hsame : node_count ?g0 = ?c → ?g0 = _,
           Hent : ?c < node_count ?g0 → _ |- _ =>
             let Heq := fresh "Heq" in
             destruct (decide (node_count g0 = c)) as [Heq|Heq];
             [ pose proof (Hsame Heq); clear Hsame Hent; subst g0;
               gen_simpl; simplify_eq
             | clear Hsame; destruct Hent as [[? ?] ?]; [lia|] ]
         end;
  repeat match goal with
         | H1 : ?l = Some _, H2 : ?l = Some _ |- _ =>
             rewrite H1 in H2; simplify_eq
         end;
  repeat match goal with
         | H : ∀ id, has_in ?L id → has_in ?L id |- _ => clear H
         | H : ∀ id, has_out ?L id → has_out ?L id |- _ => clear H
         end.

Ltac linked_done :=
  settle_walks;
  (split; gen_simpl; intros id Hid;
   [ in_search
   | let Hlast := fresh "Hlast" in
     intros Hlast;
     try match type of Hlast with
         | Some ?m ≠ Some _ => assert (m ≠ id) by congruence
         end;
     out_search ]).

Lemma process_while_linked node g :
  wp (process_while node rec) (λ _ g', linked g g') g.
Proof.
  unfold process_while. wp_run.
  apply wp_edge_from_last; gen_simpl; intros; wp_run;
    links_call; wp_run; linked_done.
Qed.

Lemma process_do_while_linked ch g :
  wp (process_do_while ch rec) (λ _ g', linked g g') g.
Proof.
  unfold process_do_while. wp_run. links_call. wp_run. linked_done.
Qed.

Lemma process_if_linked node ch g :
  wp (process_if node ch rec) (λ _ g', linked g g') g.
Proof.
  unfold process_if. wp_run.
  apply wp_edge_from_last; gen_simpl; intros; wp_run;
    links_call; wp_run;
    (case_decide;
     [ wp_run; links_call; wp_run; linked_done
     | wp_run; repeat (case_match; wp_run; gen_simpl); done ]).
Qed.

Lemma process_for_linked ch g :
  wp (process_for ch rec) (λ _ g', linked g g') g.
Proof.
  unfold process_for. wp_go.
  - links_call. wp_go.
    apply wp_edge_from_last; gen_simpl; intros; wp_go;
      links_call; wp_go; linked_done.
  - apply wp_edge_from_last; gen_simpl; intros; wp_go;
      links_call; wp_go; linked_done.
Qed.

Lemma process_body_links node : respects links (process_body node rec).
Proof.
  pose proof (links_walk_ok _ Hrec) as Hrec'.
  unfold process_body. repeat case_match; intros g.
  - by apply (wp_for_children links);
      [apply links_refl|apply links_trans|..].
  - apply wp_links;
      [apply process_action_walk_ok|apply process_action_linked].
  - apply wp_links; [by apply process_if_walk_ok|apply process_if_linked].
  - apply wp_links;
      [by apply process_while_walk_ok|apply process_while_linked].
  - apply wp_links; [by apply process_for_walk_ok|apply process_for_linked].
  - apply wp_links;
      [by apply process_do_while_walk_ok|apply process_do_while_linked].
  - apply wp_ret, links_refl.
  - by apply (wp_for_children links);
      [apply links_refl|apply links_trans|..].
Qed.

End Constructs.

Lemma process_node_links n : respects links (_process_node n).
Proof.
  induction n as [ty v ch IH] using ASTNode_tree_ind.
  cbn [_process_node]. apply process_body_links.
  by apply (Forall_visits (λ n, respects links (_process_node n))).
Qed.

(** In the graph [generate] hands back an edge enters every node but
    node 1 and an edge leaves every node but the last. *)
Definition all_linked (d : digraph) (count : nat) : Prop :=
  ∀ id, 1 ≤ id ≤ count →
    (id ≠ 1 → has_in (g_edges d) id) ∧ (id ≠ count → has_out (g_edges d) id).

Lemma has_in_elem es p id lbl : mkGEdge p id lbl ∈ es → has_in es id.
Proof. intros He. by eexists. Qed.

Lemma has_out_elem es p id lbl : mkGEdge p id lbl ∈ es → has_out es p.
Proof. intros He. by eexists. Qed.

Lemma generate_steps_linked ast :
  wp (generate_steps ast) (λ d g, all_linked d (node_count g)) init.
Proof.
  unfold generate_steps, init. wp_go.
  eapply wp_mono; [apply process_node_links|].
  intros [] g [Hw [Hin Hout]]. gen_simpl.
  pose proof (wo_count _ _ Hw) as Hc.
  pose proof (wo_same _ _ Hw) as Hsame.
  pose proof (wo_entry _ _ Hw) as Hent.
  assert (Hlast : ∃ q, last_node g = Some q ∧ (node_count g = 1 → q = 1)).
  { destruct (decide (node_count g = 1)) as [Heq|Hne].
    - gen_simpl. rewrite (Hsame Heq). by eexists.
    - gen_simpl. destruct Hent as [[q Hq] _]; [lia|]. by exists q. }
  destruct Hlast as (q & Hq & Hstart).
  assert (Hfirst : 1 < node_count g →
                   has_in (g_edges (dot g)) 2 ∧ has_out (g_edges (dot g)) 1).
  { intros Hlt. gen_simpl. destruct Hent as [_ Hedge]; [lia|].
    specialize (Hedge 1 eq_refl).
    split; [by eapply has_in_elem|by eapply has_out_elem]. }
  clear Hw Hsame Hent. gen_simpl. wp_go.
  apply wp_edge_from_last; gen_simpl; intros; wp_go; simplify_eq.
  intros id Hid. gen_simpl. split; intros Hne.
  - destruct (decide (id = S (node_count g))) as [->|Hend];
      [by apply has_in_here|]. apply has_in_app.
    destruct (decide (id = 2)) as [->|Htwo];
      [by destruct Hfirst as [? _]; [lia|]|].
    apply Hin. lia.
  - gen_simpl.
    destruct (decide (id = q)) as [->|Hcur]; [by apply has_out_here|].
    apply has_out_app.
    destruct (decide (id = 1)) as [->|Hone].
    + destruct (decide (node_count g = 1)) as [Heq|Hgt];
        [by specialize (Hstart Heq)|].
      by destruct Hfirst as [_ ?]; [lia|].
    + apply Hout; [lia|]. rewrite Hq. by intros [= ->].
Qed.

Lemma has_in_degree d id : has_in (g_edges d) id → 0 < in_degree d id.
Proof.
  intros (e & He & Hid). unfold in_degree.
  assert (Hin : e ∈ filter (λ e, e_head e = id) (g_edges d))
    by (by apply list_elem_of_filter).
  destruct (filter _ _); [by apply elem_of_nil in Hin|simpl; lia].
Qed.

Lemma has_out_degree d id : has_out (g_edges d) id → 0 < out_degree d id.
Proof.
  intros (e & He & Hid). unfold out_degree.
  assert (Hin : e ∈ filter (λ e, e_tail e = id) (g_edges d))
    by (by apply list_elem_of_filter).
  destruct (filter _ _); [by apply elem_of_nil in Hin|simpl; lia].
Qed.

(** X22. In every graph [generate] returns no node is left loose: an
    edge enters every node except the Start oval, and an edge leaves
    every node except the End oval. *)
Theorem every_node_is_linked ast d n :
  generate ast = Ok d → n ∈ g_nodes d →
  (n ≠ start_node → 0 < in_degree d (g_id n))
  ∧ (n ≠ end_node (length (g_nodes d)) → 0 < out_degree d (g_id n)).
Proof.
  unfold generate. intros Hgen Hn.
  destruct (generate_steps ast init) as [[d' g]| |] eqn:Hsteps; [|done..].
  injection Hgen as ->.
  destruct (wp_ok _ _ _ _ _ (generate_steps_tidy ast) Hsteps)
    as [[Hids _ _] ->].
  pose proof (wp_ok _ _ _ _ _ (generate_steps_terminals ast) Hsteps)
    as (ns & k & Hnodes & _ & _).
  pose proof (wp_ok _ _ _ _ _ (generate_steps_linked ast) Hsteps) as Hlinked.
  assert (Hlen : length (g_nodes (dot g)) = node_count g)
    by (by rewrite <- (length_map g_id), Hids, length_seq).
  rewrite Hlen. rewrite Hnodes in Hids, Hlen, Hn.
  rewrite length_cons, length_app in Hlen. cbn [length] in Hlen.
  assert (Hcount : node_count g = S (S (length ns))) by lia.
  rewrite Hcount in Hids.
  change (seq 1 (S (S (length ns)))) with (1 :: seq 2 (S (length ns))) in Hids.
  cbn [map] in Hids.
  injection Hids as Hids.
  change (2 :: seq 3 (length ns)) with (seq 2 (S (length ns))) in Hids.
  rewrite map_app, seq_S in Hids. cbn [map] in Hids.
  apply app_inj_tail in Hids as [Hmid Hk]. cbn [g_id end_node] in Hk.
  assert (Hends : ∀ id, 1 ≤ id ≤ node_count g →
            (id ≠ 1 → 0 < in_degree (dot g) id)
            ∧ (id ≠ node_count g → 0 < out_degree (dot g) id)).
  { intros id Hid. destruct (Hlinked id Hid) as [Hin Hout].
    split; intros Hne; [by apply has_in_degree, Hin|by apply has_out_degree, Hout]. }
  apply elem_of_cons in Hn as [->|Hn].
  { destruct (Hends 1) as [_ Hout]; [lia|]. split; [done|].
    intros _. apply Hout. lia. }
  apply elem_of_app in Hn as [Hn|Hn].
  - assert (Hid : g_id n ∈ seq 2 (length ns)).
    { rewrite <- Hmid. by apply list_elem_of_fmap_2. }
    apply elem_of_seq in Hid.
    destruct (Hends (g_id n)) as [Hin Hout]; [lia|].
    split; intros _; [apply Hin|apply Hout]; lia.
  - apply list_elem_of_singleton in Hn as ->. cbn [g_id end_node].
    destruct (Hends k) as [Hin _]; [lia|].
    split; [intros _; apply Hin; lia|]. intros Hne. destruct Hne.
    f_equal. lia.
Qed.

Lemma every_node_is_linked_witness :
  let ast :=
    main_program
      [Some (Node "while" None
               [Some (leaf "id" "c");
                Some (Node "if_stmt" None
                        [Some (leaf "id" "d"); Some (opaque "f ( ) ;");
                         Some empty_block])])] in
  let d :=
    mkDigraph
      [mkGNode 1 (Some "Start") oval [];
       mkGNode 2 (Some "while (c)") diamond [];
       mkGNode 3 (Some "if (d)") diamond [];
       mkGNode 4 (Some "f ( ) ;") box [];
       mkGNode 5 (Some "") point [("width", "0.01"); ("style", "invis")];
       mkGNode 6 (Some "") point [("width", "0.01"); ("style", "invis")];
       mkGNode 7 (Some "End") oval []]
      [mkGEdge 1 2 None; mkGEdge 3 4 None; mkGEdge 4 5 None;
       mkGEdge 3 5 None; mkGEdge 3 4 (Some "true");
       mkGEdge 3 5 (Some "false"); mkGEdge 2 3 (Some "true");
       mkGEdge 5 2 None; mkGEdge 2 6 (Some "false"); mkGEdge 6 7 None] in
  let n := mkGNode 3 (Some "if (d)") diamond [] in
  generate ast = Ok d ∧ n ∈ g_nodes d
  ∧ (n ≠ start_node → 0 < in_degree d (g_id n))
  ∧ (n ≠ end_node (length (g_nodes d)) → 0 < out_degree d (g_id n)).
Proof.
  intros ast d n.
  assert (Hgen : generate ast = Ok d) by reflexivity.
  assert (Hn : n ∈ g_nodes d) by (cbn; set_solver).
  split; [exact Hgen|]. split; [exact Hn|].
  exact (every_node_is_linked ast d n Hgen Hn).
Defined.

End FlowchartLinks.
